(** * Min-Cost-Flow: push-relabel maximum flow and cost-scaling minimum-cost flow

  A shallow embedding of [src/lib/push_relabel.py] and
  [src/lib/cost_scaling.py].  Python objects are mutable, so every
  method is a computation over the engine record in a small
  state-and-exception monad; Python lists are [list]s addressed with
  Python's indexing rule (negative indices count from the end, anything
  outside [-len, len) raises [IndexError]); the [defaultdict(list)]
  adjacency structure is a [gmap] read with default [[]].

  Python integers are unbounded and are modelled by [Z].  The cost
  scaling engine mixes integers with floats ([epsilon] and the
  potentials): a Python number is an [Int] or a [Float], a float being
  an IEEE 754 binary64 value ([spec_float] at precision 53 and maximal
  exponent 1024).  Arithmetic and comparisons follow Python's rules: an
  operation on an int and a float converts the int first and raises
  [OverflowError] when it is too large, results are rounded to nearest
  even, and an int is compared with a float exactly.

  The [while] loops take a budget ([fuel]) on their number of
  iterations; running out of it is the outcome [Timeout], which no
  Python run has.  The progress lines the solvers print are left out;
  the line printed by [set_supply] is its only answer to the caller and
  is returned as a result. *)

From Stdlib Require Import ZArith Lia List Floats.SpecFloat.
From stdpp Require Import base decidable option list numbers strings gmap.

Local Open Scope Z_scope.


(** ** Python run-time model *)

Module Py.

Inductive exn : Type :=
| IndexError
| TypeError
| ZeroDivisionError
| OverflowError.

(** Outcome of running a method on a state [S]: normal return,
    exception (the mutations done so far persist), or the model's
    loop budget ran out. *)
Inductive res (S A : Type) : Type :=
| Ok (a : A) (s : S)
| Raise (x : exn) (s : S)
| Timeout.
Arguments Ok {S A} a s.
Arguments Raise {S A} x s.
Arguments Timeout {S A}.

Definition M (S A : Type) : Type := S -> res S A.

#[global] Instance M_ret {S} : MRet (M S) := fun A a s => Ok a s.

#[global] Instance M_bind {S} : MBind (M S) :=
  fun A B k m s =>
    match m s with
    | Ok a s' => k a s'
    | Raise x s' => Raise x s'
    | Timeout => Timeout
    end.

Definition raise {S A} (x : exn) : M S A := fun s => Raise x s.
Definition timeout {S A} : M S A := fun _ => Timeout.
Definition get {S} : M S S := fun s => Ok s s.
Definition put {S} (s : S) : M S unit := fun _ => Ok tt s.
Definition modify {S} (f : S -> S) : M S unit := fun s => Ok tt (f s).

(** [lift_opt o] raises [IndexError] when a subscript failed. *)
Definition lift_opt {S A} (o : option A) : M S A :=
  match o with
  | Some a => mret a
  | None => raise IndexError
  end.

(** An expression that may raise instead of giving a value. *)
Definition lift_sum {S A} (r : exn + A) : M S A :=
  match r with
  | inl x => raise x
  | inr a => mret a
  end.

(** [for x in l: body x] *)
Fixpoint for_each {S A} (l : list A) (body : A -> M S unit) : M S unit :=
  match l with
  | [] => mret tt
  | x :: l' => body x;; for_each l' body
  end.

(** [range(n)] *)
Definition range (n : Z) : list Z := map Z.of_nat (seq 0 (Z.to_nat n)).

(** Position addressed by subscript [i] in a list of length [len]. *)
Definition index (len : nat) (i : Z) : option nat :=
  if decide (0 <= i < Z.of_nat len) then Some (Z.to_nat i)
  else if decide (- Z.of_nat len <= i < 0) then Some (Z.to_nat (Z.of_nat len + i))
  else None.

(** [l[i]] *)
Definition getitem {A} (l : list A) (i : Z) : option A :=
  match index (length l) i with
  | Some n => l !! n
  | None => None
  end.

(** [l[i] = x] *)
Definition setitem {A} (l : list A) (i : Z) (x : A) : option (list A) :=
  match index (length l) i with
  | Some n => Some (<[n := x]> l)
  | None => None
  end.

(** [m[i][j]] *)
Definition getitem2 {A} (m : list (list A)) (i j : Z) : option A :=
  match getitem m i with
  | Some row => getitem row j
  | None => None
  end.

(** [m[i][j] = x]: the row object [m[i]] is updated in place. *)
Definition setitem2 {A} (m : list (list A)) (i j : Z) (x : A)
  : option (list (list A)) :=
  match getitem m i with
  | Some row =>
      match setitem row j x with
      | Some row' => setitem m i row'
      | None => None
      end
  | None => None
  end.

(** [[x] * n] and [[[x] * n for _ in range(n)]] *)
Definition zeros {A} (x : A) (n : Z) : list A := replicate (Z.to_nat n) x.
Definition zeros2 {A} (x : A) (n : Z) : list (list A) :=
  replicate (Z.to_nat n) (zeros x n).

(** [sum(l)] *)
Definition sum (l : list Z) : Z := foldr Z.add 0 l.

(** [d[k]] on a [defaultdict(list)]: a missing key reads as [[]]. *)
Definition adj (d : gmap Z (list Z)) (k : Z) : list Z := default [] (d !! k).

(** [d[k].append(x)] *)
Definition adj_append (d : gmap Z (list Z)) (k x : Z) : gmap Z (list Z) :=
  <[k := adj d k ++ [x]]> d.

End Py.

(** ** Python numbers

    The cost-scaling engine computes with [int] and [float] values
    mixed: the costs are integers, [epsilon] is a float, and a potential
    is the integer 0 until [relabel] stores a float in it.  An [int] is
    unbounded; a [float] is an IEEE 754 binary64 value, computed with
    round-to-nearest-even by the operations of [SpecFloat].  Mixed
    arithmetic converts the integer operand to a float first, which
    raises [OverflowError] when it does not fit; comparisons between an
    integer and a float are exact. *)

Module PyNum.
Import Py.

Definition prec : Z := 53.
Definition emax : Z := 1024.

Inductive num : Type :=
| Int (z : Z)
| Float (f : spec_float).

(** [float('inf')] *)
Definition inf : num := Float (S754_infinity false).

(** [float(z)]: the nearest binary64 value, [OverflowError] when that
    would be an infinity. *)
Definition float_of_int (z : Z) : exn + spec_float :=
  match binary_normalize prec emax z 0 false with
  | S754_infinity _ => inl OverflowError
  | f => inr f
  end.

(** [float(z)] as a number. *)
Definition float (z : Z) : exn + num :=
  match float_of_int z with
  | inl err => inl err
  | inr f => inr (Float f)
  end.

Definition to_float (x : num) : exn + spec_float :=
  match x with
  | Int z => float_of_int z
  | Float f => inr f
  end.

(** A binary operation on two numbers of which at least one is a float:
    both are converted, the left one first. *)
Definition float_op (op : spec_float -> spec_float -> spec_float)
  (x y : num) : exn + num :=
  match to_float x with
  | inl err => inl err
  | inr fx =>
      match to_float y with
      | inl err => inl err
      | inr fy => inr (Float (op fx fy))
      end
  end.

(** [x + y], [x - y], [x * y] *)
Definition add (x y : num) : exn + num :=
  match x, y with
  | Int a, Int b => inr (Int (a + b))
  | _, _ => float_op (SFadd prec emax) x y
  end.

Definition sub (x y : num) : exn + num :=
  match x, y with
  | Int a, Int b => inr (Int (a - b))
  | _, _ => float_op (SFsub prec emax) x y
  end.

Definition mul (x y : num) : exn + num :=
  match x, y with
  | Int a, Int b => inr (Int (a * b))
  | _, _ => float_op (SFmul prec emax) x y
  end.

Definition is_zero (f : spec_float) : bool :=
  match f with
  | S754_zero _ => true
  | _ => false
  end.

(** The integer [z] as an unrounded significand with exponent 0. *)
Definition exact_of_int (z : Z) : spec_float :=
  match z with
  | Z0 => S754_zero false
  | Zpos p => S754_finite false p 0
  | Zneg p => S754_finite true p 0
  end.

(** [x / y] (true division).  Between two integers the quotient is
    rounded once, from the exact value. *)
Definition truediv (x y : num) : exn + num :=
  match x, y with
  | Int a, Int b =>
      if decide (b = 0) then inl ZeroDivisionError
      else if decide (a = 0) then inr (Float (S754_zero (b <? 0)))
      else
        match SFdiv prec emax (exact_of_int a) (exact_of_int b) with
        | S754_infinity _ => inl OverflowError
        | f => inr (Float f)
        end
  | _, _ =>
      match to_float x with
      | inl err => inl err
      | inr fx =>
          match to_float y with
          | inl err => inl err
          | inr fy =>
              if is_zero fy then inl ZeroDivisionError
              else inr (Float (SFdiv prec emax fx fy))
          end
      end
  end.

(** Exact comparison of an integer with a float; [None] for NaN. *)
Definition compare_int_float (a : Z) (f : spec_float) : option comparison :=
  match f with
  | S754_nan => None
  | S754_infinity s => Some (if s then Gt else Lt)
  | S754_zero _ => Some (a ?= 0)
  | S754_finite s m e =>
      let v := if s then Zneg m else Zpos m in
      Some (if decide (0 <= e) then a ?= v * 2 ^ e
            else a * 2 ^ (- e) ?= v)
  end.

Definition compare (x y : num) : option comparison :=
  match x, y with
  | Int a, Int b => Some (a ?= b)
  | Float f, Float g => SFcompare f g
  | Int a, Float g => compare_int_float a g
  | Float f, Int b => option_map CompOpp (compare_int_float b f)
  end.

(** [x < y], [x >= y], [x != y]; every ordering test on NaN is false. *)
Definition lt (x y : num) : bool :=
  match compare x y with
  | Some Lt => true
  | _ => false
  end.

Definition ge (x y : num) : bool :=
  match compare x y with
  | Some Gt | Some Eq => true
  | _ => false
  end.

Definition ne (x y : num) : bool :=
  match compare x y with
  | Some Eq => false
  | _ => true
  end.

(** [min(a, b)]: [b] when [b < a], else [a]. *)
Definition min (a b : num) : num := if lt b a then b else a.

End PyNum.



(** ** The maximum-flow engine ([push_relabel.py]) *)

Module PushRelabel.
Import Py.

Record engine : Type := mk {
  V : Z;
  excess : list Z;
  height : list Z;
  flow : list (list Z);
  capacity : list (list Z);
  graph : gmap Z (list Z)
}.

Definition set_excess (x : list Z) (e : engine) : engine :=
  mk (V e) x (height e) (flow e) (capacity e) (graph e).
Definition set_height (h : list Z) (e : engine) : engine :=
  mk (V e) (excess e) h (flow e) (capacity e) (graph e).
Definition set_flow (f : list (list Z)) (e : engine) : engine :=
  mk (V e) (excess e) (height e) f (capacity e) (graph e).
Definition set_capacity (c : list (list Z)) (e : engine) : engine :=
  mk (V e) (excess e) (height e) (flow e) c (graph e).
Definition set_graph (g : gmap Z (list Z)) (e : engine) : engine :=
  mk (V e) (excess e) (height e) (flow e) (capacity e) g.

(** [PushRelabel(num_vertices)] *)
Definition init (num_vertices : Z) : engine :=
  mk num_vertices (zeros 0 num_vertices) (zeros 0 num_vertices)
     (zeros2 0 num_vertices) (zeros2 0 num_vertices) ∅.

(** Subscripted reads and writes of the engine's fields. *)
Definition rd_excess (u : Z) : M engine Z :=
  fun e => lift_opt (getitem (excess e) u) e.
Definition wr_excess (u x : Z) : M engine unit :=
  fun e => (l ← lift_opt (setitem (excess e) u x); put (set_excess l e)) e.
Definition rd_height (u : Z) : M engine Z :=
  fun e => lift_opt (getitem (height e) u) e.
Definition wr_height (u x : Z) : M engine unit :=
  fun e => (l ← lift_opt (setitem (height e) u x); put (set_height l e)) e.
Definition rd_flow (u v : Z) : M engine Z :=
  fun e => lift_opt (getitem2 (flow e) u v) e.
Definition wr_flow (u v x : Z) : M engine unit :=
  fun e => (m ← lift_opt (setitem2 (flow e) u v x); put (set_flow m e)) e.
Definition rd_capacity (u v : Z) : M engine Z :=
  fun e => lift_opt (getitem2 (capacity e) u v) e.
Definition wr_capacity (u v x : Z) : M engine unit :=
  fun e => (m ← lift_opt (setitem2 (capacity e) u v x); put (set_capacity m e)) e.

Definition graph_append (u v : Z) : M engine unit :=
  modify (fun e => set_graph (adj_append (graph e) u v) e).

(** [add_edge(u, v, cap)] *)
Definition add_edge (u v cap : Z) : M engine unit :=
  graph_append u v;;
  wr_capacity u v cap.

(** [initialize_preflow(s)] *)
Definition initialize_preflow (s : Z) : M engine unit :=
  e ← get;
  wr_height s (V e);;
  for_each (adj (graph e) s) (fun v =>
    c ← rd_capacity s v;
    wr_flow s v c;;
    c ← rd_capacity s v;
    wr_flow v s (- c);;
    c ← rd_capacity s v;
    wr_excess v c;;
    x ← rd_excess s;
    c ← rd_capacity s v;
    wr_excess s (x - c)).

(** [push(u, v)] *)
Definition push (u v : Z) : M engine unit :=
  c ← rd_capacity u v;
  f ← rd_flow u v;
  let residual_capacity := c - f in
  x ← rd_excess u;
  let delta := Z.min x residual_capacity in
  f ← rd_flow u v;
  wr_flow u v (f + delta);;
  f ← rd_flow v u;
  wr_flow v u (f - delta);;
  x ← rd_excess u;
  wr_excess u (x - delta);;
  x ← rd_excess v;
  wr_excess v (x + delta).

(** [min(min_height, h)] where [None] stands for [float('inf')]. *)
Definition min_inf (m : option Z) (h : Z) : option Z :=
  match m with
  | None => Some h
  | Some a => Some (Z.min a h)
  end.

(** The [for v in range(self.V)] loop of [relabel]. *)
Fixpoint relabel_scan (u : Z) (vs : list Z) (min_height : option Z)
  : M engine (option Z) :=
  match vs with
  | [] => mret min_height
  | v :: vs' =>
      c ← rd_capacity u v;
      f ← rd_flow u v;
      if decide (c - f > 0) then
        h ← rd_height v;
        relabel_scan u vs' (min_inf min_height h)
      else relabel_scan u vs' min_height
  end.

(** [relabel(u)] *)
Definition relabel (u : Z) : M engine unit :=
  e ← get;
  min_height ← relabel_scan u (range (V e)) None;
  match min_height with
  | Some m => wr_height u (m + 1)
  | None => mret tt
  end.

(** The inner [for v in range(self.V)] loop of [max_flow]: push along
    the first admissible arc and [break]; the result is [pushed]. *)
Fixpoint find_push (u : Z) (vs : list Z) : M engine bool :=
  match vs with
  | [] => mret false
  | v :: vs' =>
      c ← rd_capacity u v;
      f ← rd_flow u v;
      if decide (c - f > 0) then
        hu ← rd_height u;
        hv ← rd_height v;
        if decide (hu = hv + 1) then push u v;; mret true
        else find_push u vs'
      else find_push u vs'
  end.

(** One iteration of [for u in range(self.V)]; the result is the new
    value of [active_node_found]. *)
Definition visit (s t u : Z) (active_node_found : bool) : M engine bool :=
  if decide (u = s \/ u = t) then mret active_node_found
  else
    x ← rd_excess u;
    if decide (x > 0) then
      e ← get;
      pushed ← find_push u (range (V e));
      (if pushed : bool then mret tt else relabel u);;
      mret true
    else mret active_node_found.

Fixpoint sweep (s t : Z) (us : list Z) (active_node_found : bool)
  : M engine bool :=
  match us with
  | [] => mret active_node_found
  | u :: us' =>
      a ← visit s t u active_node_found;
      sweep s t us' a
  end.

(** [while active_node_found: ...], with a budget on the number of
    iterations. *)
Fixpoint main_loop (fuel : nat) (s t : Z) : M engine unit :=
  match fuel with
  | O => timeout
  | S fuel' =>
      e ← get;
      active_node_found ← sweep s t (range (V e)) false;
      if active_node_found : bool then main_loop fuel' s t else mret tt
  end.

(** [max_flow(s, t)] *)
Definition max_flow (fuel : nat) (s t : Z) : M engine Z :=
  initialize_preflow s;;
  main_loop fuel s t;;
  rd_excess t.

(** The example graph of the module's [__main__] block. *)
Definition example_edges : list (Z * Z * Z) :=
  [(0, 1, 16); (0, 2, 13); (1, 2, 10); (1, 3, 12); (2, 1, 4);
   (2, 4, 14); (3, 2, 9); (3, 5, 20); (4, 3, 7); (4, 5, 4)].

(** [for u, v, cap in edges: g.add_edge(u, v, cap)] *)
Definition add_edges (edges : list (Z * Z * Z)) : M engine unit :=
  for_each edges (fun '(u, v, cap) => add_edge u v cap).

(** The driver of the [__main__] block: build the graph on a new
    engine, then call [max_flow(source, sink)]. *)
Definition solve (num_nodes : Z) (edges : list (Z * Z * Z))
  (source sink : Z) (fuel : nat) : res engine Z :=
  (add_edges edges;; max_flow fuel source sink) (init num_nodes).

End PushRelabel.

(** ** The minimum-cost-flow engine ([cost_scaling.py]) *)

Module MinCostPushRelabel.
Import Py PyNum.

Record engine : Type := mk {
  V : Z;
  graph : gmap Z (list Z);
  capacity : list (list Z);
  flow : list (list Z);
  cost : list (list Z);
  demand : list Z;
  supply : list Z;
  excess : list Z;
  potential : list num
}.

Definition set_graph (g : gmap Z (list Z)) (e : engine) : engine :=
  mk (V e) g (capacity e) (flow e) (cost e) (demand e) (supply e)
     (excess e) (potential e).
Definition set_capacity (c : list (list Z)) (e : engine) : engine :=
  mk (V e) (graph e) c (flow e) (cost e) (demand e) (supply e)
     (excess e) (potential e).
Definition set_flow (f : list (list Z)) (e : engine) : engine :=
  mk (V e) (graph e) (capacity e) f (cost e) (demand e) (supply e)
     (excess e) (potential e).
Definition set_cost (c : list (list Z)) (e : engine) : engine :=
  mk (V e) (graph e) (capacity e) (flow e) c (demand e) (supply e)
     (excess e) (potential e).
Definition set_demand (d : list Z) (e : engine) : engine :=
  mk (V e) (graph e) (capacity e) (flow e) (cost e) d (supply e)
     (excess e) (potential e).
Definition set_supply_list (l : list Z) (e : engine) : engine :=
  mk (V e) (graph e) (capacity e) (flow e) (cost e) (demand e) l
     (excess e) (potential e).
Definition set_excess (x : list Z) (e : engine) : engine :=
  mk (V e) (graph e) (capacity e) (flow e) (cost e) (demand e) (supply e)
     x (potential e).
Definition set_potential (p : list num) (e : engine) : engine :=
  mk (V e) (graph e) (capacity e) (flow e) (cost e) (demand e) (supply e)
     (excess e) p.

(** [MinCostPushRelabel(num_vertices)] *)
Definition init (num_vertices : Z) : engine :=
  mk num_vertices ∅ (zeros2 0 num_vertices) (zeros2 0 num_vertices)
     (zeros2 0 num_vertices) [] [] (zeros 0 num_vertices)
     (zeros (Int 0) num_vertices).

Definition rd_excess (u : Z) : M engine Z :=
  fun e => lift_opt (getitem (excess e) u) e.
Definition wr_excess (u x : Z) : M engine unit :=
  fun e => (l ← lift_opt (setitem (excess e) u x); put (set_excess l e)) e.
Definition rd_potential (u : Z) : M engine num :=
  fun e => lift_opt (getitem (potential e) u) e.
Definition wr_potential (u : Z) (x : num) : M engine unit :=
  fun e => (l ← lift_opt (setitem (potential e) u x); put (set_potential l e)) e.
Definition rd_flow (u v : Z) : M engine Z :=
  fun e => lift_opt (getitem2 (flow e) u v) e.
Definition wr_flow (u v x : Z) : M engine unit :=
  fun e => (m ← lift_opt (setitem2 (flow e) u v x); put (set_flow m e)) e.
Definition rd_capacity (u v : Z) : M engine Z :=
  fun e => lift_opt (getitem2 (capacity e) u v) e.
Definition wr_capacity (u v x : Z) : M engine unit :=
  fun e => (m ← lift_opt (setitem2 (capacity e) u v x); put (set_capacity m e)) e.
Definition rd_cost (u v : Z) : M engine Z :=
  fun e => lift_opt (getitem2 (cost e) u v) e.
Definition wr_cost (u v x : Z) : M engine unit :=
  fun e => (m ← lift_opt (setitem2 (cost e) u v x); put (set_cost m e)) e.
Definition graph_append (u v : Z) : M engine unit :=
  modify (fun e => set_graph (adj_append (graph e) u v) e).

(** [add_edge(u, v, cap, cost)] *)
Definition add_edge (u v cap cost : Z) : M engine unit :=
  graph_append u v;;
  graph_append v u;;
  wr_capacity u v cap;;
  wr_cost u v cost;;
  wr_cost v u (- cost).

(** The line printed by [set_supply] for a zero value. *)
Definition zero_supply_message : string :=
  "Valor de oferta deve ser diferente de zero"%string.

(** [set_supply(u, supply)]; the result is the list of printed lines. *)
Definition set_supply (u supply_value : Z) : M engine (list string) :=
  if decide (supply_value > 0) then
    wr_excess u supply_value;;
    modify (fun e => set_supply_list (supply e ++ [u]) e);;
    mret []
  else if decide (supply_value < 0) then
    wr_excess u supply_value;;
    modify (fun e => set_demand (demand e ++ [u]) e);;
    mret []
  else mret [zero_supply_message].

(** [_reduced_cost(u, v)]:
    [self.cost[u][v] + self.potential[u] - self.potential[v]], evaluated
    from left to right. *)
Definition _reduced_cost (u v : Z) : M engine num :=
  c ← rd_cost u v;
  pu ← rd_potential u;
  s ← lift_sum (add (Int c) pu);
  pv ← rd_potential v;
  lift_sum (sub s pv).

(** [push(u, v)] *)
Definition push (u v : Z) : M engine unit :=
  c ← rd_capacity u v;
  f ← rd_flow u v;
  let residual_capacity := c - f in
  x ← rd_excess u;
  let delta := Z.min x residual_capacity in
  f ← rd_flow u v;
  wr_flow u v (f + delta);;
  f ← rd_flow v u;
  wr_flow v u (f - delta);;
  x ← rd_excess u;
  wr_excess u (x - delta);;
  x ← rd_excess v;
  wr_excess v (x + delta).

(** The [for v in self.graph[u]] loop of [relabel]. *)
Fixpoint relabel_scan (u : Z) (vs : list Z) (min_potential_diff : num)
  : M engine num :=
  match vs with
  | [] => mret min_potential_diff
  | v :: vs' =>
      c ← rd_capacity u v;
      f ← rd_flow u v;
      if decide (c - f > 0) then
        pv ← rd_potential v;
        k ← rd_cost u v;
        d ← lift_sum (sub pv (Int k));
        relabel_scan u vs' (min min_potential_diff d)
      else relabel_scan u vs' min_potential_diff
  end.

(** [relabel(u, epsilon)] *)
Definition relabel (u : Z) (epsilon : num) : M engine unit :=
  e ← get;
  min_potential_diff ← relabel_scan u (adj (graph e) u) inf;
  if ne min_potential_diff inf then
    p ← lift_sum (sub min_potential_diff epsilon);
    wr_potential u p
  else mret tt.

(** Step 1 of [refine]: saturate every arc of negative reduced cost. *)
Definition saturate_arc (u v : Z) : M engine unit :=
  rc ← _reduced_cost u v;
  if lt rc (Int 0) then
    c ← rd_capacity u v;
    f ← rd_flow u v;
    let delta := c - f in
    if decide (delta > 0) then
      f ← rd_flow u v;
      wr_flow u v (f + delta);;
      f ← rd_flow v u;
      wr_flow v u (f - delta);;
      x ← rd_excess u;
      wr_excess u (x - delta);;
      x ← rd_excess v;
      wr_excess v (x + delta)
    else mret tt
  else mret tt.

Definition saturate : M engine unit :=
  e ← get;
  for_each (range (V e)) (fun u =>
    e ← get;
    for_each (adj (graph e) u) (fun v => saturate_arc u v)).

(** [[i for i, e in enumerate(self.excess) if e > 0]] *)
Definition active_of (xs : list Z) : list Z :=
  map (fun p => Z.of_nat (fst p))
      (filter (fun p => snd p > 0) (imap (fun i x => (i, x)) xs)).

(** The [for v in self.graph[u]] loop of the discharge step: push
    along every admissible arc; the state of the local variables
    [pushed] and [active_nodes] is threaded through. *)
Fixpoint push_all (u : Z) (vs : list Z) (pushed : bool)
  (active_nodes : list Z) : M engine (bool * list Z) :=
  match vs with
  | [] => mret (pushed, active_nodes)
  | v :: vs' =>
      c ← rd_capacity u v;
      f ← rd_flow u v;
      if decide (c - f > 0) then
        rc ← _reduced_cost u v;
        if lt rc (Int 0) then
          xv ← rd_excess v;
          let was_inactive := bool_decide (xv <= 0) in
          push u v;;
          xv ← rd_excess v;
          let active_nodes :=
            if bool_decide (xv > 0) && was_inactive
            then active_nodes ++ [v] else active_nodes in
          push_all u vs' true active_nodes
        else push_all u vs' pushed active_nodes
      else push_all u vs' pushed active_nodes
  end.

(** [while self.excess[u] > 0: ...] *)
Fixpoint discharge (fuel : nat) (u : Z) (epsilon : num)
  (active_nodes : list Z) : M engine (list Z) :=
  match fuel with
  | O => timeout
  | S fuel' =>
      x ← rd_excess u;
      if decide (x > 0) then
        e ← get;
        r ← push_all u (adj (graph e) u) false active_nodes;
        (if fst r : bool then mret tt else relabel u epsilon);;
        discharge fuel' u epsilon (snd r)
      else mret active_nodes
  end.

(** [while active_nodes: u = active_nodes.pop(0); ...] *)
Fixpoint drain (fuel : nat) (epsilon : num) (active_nodes : list Z)
  : M engine unit :=
  match fuel with
  | O => timeout
  | S fuel' =>
      match active_nodes with
      | [] => mret tt
      | u :: rest =>
          rest' ← discharge fuel u epsilon rest;
          drain fuel' epsilon rest'
      end
  end.

(** [refine(epsilon)] *)
Definition refine (fuel : nat) (epsilon : num) : M engine unit :=
  saturate;;
  e ← get;
  drain fuel epsilon (active_of (excess e)).

(** Run a method of the local max-flow object [g]; an exception
    propagates to the caller. *)
Definition on {A} (g : PushRelabel.engine) (m : M PushRelabel.engine A)
  : M engine (A * PushRelabel.engine) :=
  fun e =>
    match m g with
    | Ok a g' => Ok (a, g') e
    | Raise x _ => Raise x e
    | Timeout => Timeout
    end.

(** A call of [g.max_flow] with the positional arguments [args]: the
    method is declared as
    [max_flow(self, s, t)], so any other number of positional
    arguments raises [TypeError] before the body runs. *)
Definition call_max_flow (fuel : nat) (args : list Z)
  : M PushRelabel.engine Z :=
  match args with
  | [s; t] => PushRelabel.max_flow fuel s t
  | _ => raise TypeError
  end.

(** Step 1 of [min_cost_flow]: scale the costs, tracking
    [max_abs_cost]. *)
Fixpoint scale_row (u : Z) (vs : list Z) (scaling_factor max_abs_cost : Z)
  : M engine Z :=
  match vs with
  | [] => mret max_abs_cost
  | v :: vs' =>
      c ← rd_cost u v;
      wr_cost u v (c * scaling_factor);;
      c ← rd_cost u v;
      if decide (Z.abs c > max_abs_cost) then
        c ← rd_cost u v;
        scale_row u vs' scaling_factor (Z.abs c)
      else scale_row u vs' scaling_factor max_abs_cost
  end.

Fixpoint scale_costs (us : list Z) (scaling_factor max_abs_cost : Z)
  : M engine Z :=
  match us with
  | [] => mret max_abs_cost
  | u :: us' =>
      e ← get;
      m ← scale_row u (adj (graph e) u) scaling_factor max_abs_cost;
      scale_costs us' scaling_factor m
  end.

(** [product(range(n), range(n))] *)
Definition product (us vs : list Z) : list (Z * Z) :=
  u ← us; v ← vs; [(u, v)].

(** The three list comprehensions that fill the auxiliary graph. *)
Fixpoint export_arcs (g : PushRelabel.engine) (ps : list (Z * Z))
  : M engine PushRelabel.engine :=
  match ps with
  | [] => mret g
  | (u, v) :: ps' =>
      c ← rd_capacity u v;
      if decide (c > 0) then
        c ← rd_capacity u v;
        r ← on g (PushRelabel.add_edge u v c);
        export_arcs (snd r) ps'
      else export_arcs g ps'
  end.

Fixpoint connect_supply (g : PushRelabel.engine) (source : Z) (vs : list Z)
  : M engine PushRelabel.engine :=
  match vs with
  | [] => mret g
  | v :: vs' =>
      x ← rd_excess v;
      r ← on g (PushRelabel.add_edge source v (Z.abs x));
      connect_supply (snd r) source vs'
  end.

Fixpoint connect_demand (g : PushRelabel.engine) (sink : Z) (us : list Z)
  : M engine PushRelabel.engine :=
  match us with
  | [] => mret g
  | u :: us' =>
      x ← rd_excess u;
      r ← on g (PushRelabel.add_edge u sink (Z.abs x));
      connect_demand (snd r) sink us'
  end.

(** [[f[sink] for f in g.flow]] *)
Fixpoint column (rows : list (list Z)) (j : Z) : option (list Z) :=
  match rows with
  | [] => Some []
  | f :: rows' =>
      x ← getitem f j;
      l ← column rows' j;
      Some (x :: l)
  end.

(** [[[g.flow[u][v] for v in range(n)] for u in range(n)]] *)
Fixpoint copy_row (m : list (list Z)) (u : Z) (vs : list Z)
  : option (list Z) :=
  match vs with
  | [] => Some []
  | v :: vs' =>
      x ← getitem2 m u v;
      l ← copy_row m u vs';
      Some (x :: l)
  end.

Fixpoint copy_rows (m : list (list Z)) (us vs : list Z)
  : option (list (list Z)) :=
  match us with
  | [] => Some []
  | u :: us' =>
      r ← copy_row m u vs;
      l ← copy_rows m us' vs;
      Some (r :: l)
  end.

(** [while epsilon >= 1: print(f".. {epsilon / scaling_factor:.4f} ..");
    self.refine(epsilon); epsilon /= alpha].  The printed line is left
    out, the division it evaluates is not. *)
Fixpoint scaling_loop (fuel : nat) (epsilon alpha : num) (scaling_factor : Z)
  : M engine unit :=
  match fuel with
  | O => timeout
  | S fuel' =>
      if ge epsilon (Int 1) then
        lift_sum (truediv epsilon (Int scaling_factor));;
        refine fuel epsilon;;
        epsilon ← lift_sum (truediv epsilon alpha);
        scaling_loop fuel' epsilon alpha scaling_factor
      else mret tt
  end.

(** Step 5 of [min_cost_flow]: the cost of the final flow. *)
Fixpoint cost_row (u : Z) (vs : list Z) (scaling_factor : Z)
  (total_cost : num) : M engine num :=
  match vs with
  | [] => mret total_cost
  | v :: vs' =>
      f ← rd_flow u v;
      if decide (f > 0) then
        c ← rd_cost u v;
        original_cost ← lift_sum (truediv (Int c) (Int scaling_factor));
        f ← rd_flow u v;
        p ← lift_sum (mul (Int f) original_cost);
        total_cost ← lift_sum (add total_cost p);
        cost_row u vs' scaling_factor total_cost
      else cost_row u vs' scaling_factor total_cost
  end.

Fixpoint cost_rows (us vs : list Z) (scaling_factor : Z) (total_cost : num)
  : M engine num :=
  match us with
  | [] => mret total_cost
  | u :: us' =>
      c ← cost_row u vs scaling_factor total_cost;
      cost_rows us' vs scaling_factor c
  end.

(** [min_cost_flow(alpha)]; [None] is the pair [(None, None)]. *)
Definition min_cost_flow (fuel : nat) (alpha : num)
  : M engine (option (num * list (list Z))) :=
  e ← get;
  let scaling_factor := V e in
  max_abs_cost ← scale_costs (range (V e)) scaling_factor 0;
  epsilon ← lift_sum (float max_abs_cost);
  let g := PushRelabel.init (V e + 2) in
  let source := PushRelabel.V g - 2 in
  let sink := PushRelabel.V g - 1 in
  g ← export_arcs g (product (range (V e)) (range (V e)));
  e ← get;
  g ← connect_supply g source (supply e);
  e ← get;
  g ← connect_demand g sink (demand e);
  r ← on g (call_max_flow fuel []);
  let g := snd r in
  into_sink ← lift_opt (column (PushRelabel.flow g) sink);
  out_of_source ← lift_opt (getitem (PushRelabel.flow g) source);
  if decide (sum into_sink ≠ sum out_of_source) then mret None
  else
    e ← get;
    f ← lift_opt (copy_rows (PushRelabel.flow g) (range (V e)) (range (V e)));
    put (set_flow f e);;
    e ← get;
    put (set_excess (zeros 0 (V e)) e);;
    scaling_loop fuel epsilon alpha scaling_factor;;
    e ← get;
    total_cost ← cost_rows (range (V e)) (range (V e)) scaling_factor (Int 0);
    e ← get;
    mret (Some (total_cost, flow e)).

(** The example of the module's [__main__] block. *)
Definition example_edges : list (Z * Z * Z * Z) :=
  [(0, 2, 15, 4); (0, 3, 10, 3); (1, 2, 20, 6); (1, 3, 5, 8);
   (2, 4, 25, 2); (3, 4, 10, 5); (3, 5, 15, 4); (4, 5, 20, 1)].

Definition add_edges (edges : list (Z * Z * Z * Z)) : M engine unit :=
  for_each edges (fun '(u, v, cap, cost) => add_edge u v cap cost).

Definition set_supplies (l : list (Z * Z)) : M engine unit :=
  for_each l (fun '(u, x) => set_supply u x;; mret tt).

End MinCostPushRelabel.

(** * Verification *)

(** ** Facts about the run-time model *)

Module PyFacts.
Import Py.

(** Total readers used in statements: [at1 l i] is [l[i]] and
    [at2 m i j] is [m[i][j]] (0 where the subscript would raise). *)
Definition at1 (l : list Z) (i : Z) : Z := default 0 (getitem l i).
Definition at2 (m : list (list Z)) (i j : Z) : Z := default 0 (getitem2 m i j).

(** The lists left by [l[i] = x] and [m[i][j] = x] for subscripts in
    [0, len). *)
Definition upd1 {A} (l : list A) (i : Z) (x : A) : list A := <[Z.to_nat i := x]> l.
Definition upd2 (m : list (list Z)) (i j : Z) (x : Z) : list (list Z) :=
  <[Z.to_nat i := <[Z.to_nat j := x]> (default [] (m !! Z.to_nat i))]> m.

(** [m] is an [n] by [n] matrix. *)
Definition shape (n : Z) (m : list (list Z)) : Prop :=
  length m = Z.to_nat n /\ forall r, r ∈ m -> length r = Z.to_nat n.

(** [sum(f(a) for a in l)] *)
Definition sumf (l : list Z) (f : Z -> Z) : Z := sum (map f l).

Lemma bind_ok {S A B} (m : M S A) (k : A -> M S B) s a s' :
  m s = Ok a s' -> (m ≫= k) s = k a s'.
Proof. intros H. unfold mbind, M_bind. now rewrite H. Qed.

Lemma bind_ok_ex {S A B} (m : M S A) (k : A -> M S B) s a s' s'' :
  m s = Ok a s' -> (exists b, k a s' = Ok b s'') ->
  exists b, (m ≫= k) s = Ok b s''.
Proof. intros H [b Hb]. exists b. now rewrite (bind_ok _ _ _ _ _ H). Qed.

Lemma bind_inv {S A B} (m : M S A) (k : A -> M S B) s b s'' :
  (m ≫= k) s = Ok b s'' -> exists a s', m s = Ok a s' /\ k a s' = Ok b s''.
Proof.
  unfold mbind, M_bind. destruct (m s) as [a s'| |]; try discriminate.
  intros H. eauto.
Qed.

Lemma index_in (len : nat) (i : Z) :
  0 <= i < Z.of_nat len -> index len i = Some (Z.to_nat i).
Proof. intros H. unfold index. now rewrite decide_True. Qed.

Lemma getitem_in {A} (l : list A) (i : Z) :
  0 <= i < Z.of_nat (length l) -> getitem l i = l !! Z.to_nat i.
Proof. intros H. unfold getitem. now rewrite index_in. Qed.

Lemma setitem_in {A} (l : list A) (i : Z) (x : A) :
  0 <= i < Z.of_nat (length l) -> setitem l i x = Some (upd1 l i x).
Proof. intros H. unfold setitem. now rewrite index_in. Qed.

Lemma length_upd1 {A} (l : list A) i x : length (upd1 l i x) = length l.
Proof. apply length_insert. Qed.

Lemma getitem_at1 (l : list Z) (i : Z) :
  0 <= i < Z.of_nat (length l) -> getitem l i = Some (at1 l i).
Proof.
  intros H. unfold at1. rewrite getitem_in by done.
  destruct (lookup_lt_is_Some_2 l (Z.to_nat i)) as [x Hx]; [lia|].
  now rewrite Hx.
Qed.

Lemma at1_upd1 (l : list Z) (i j x : Z) :
  0 <= i < Z.of_nat (length l) -> 0 <= j < Z.of_nat (length l) ->
  at1 (upd1 l i x) j = if decide (j = i) then x else at1 l j.
Proof.
  intros Hi Hj. unfold at1.
  rewrite !getitem_in by (rewrite ?length_upd1; done).
  unfold upd1. destruct (decide (j = i)) as [->|Hne].
  - rewrite list_lookup_insert_eq by lia. done.
  - rewrite list_lookup_insert_ne by lia. done.
Qed.

(** The same reader for lists of numbers (the integer 0 where the
    subscript would raise). *)
Definition atn (l : list PyNum.num) (i : Z) : PyNum.num :=
  default (PyNum.Int 0) (getitem l i).

Lemma getitem_atn (l : list PyNum.num) (i : Z) :
  0 <= i < Z.of_nat (length l) -> getitem l i = Some (atn l i).
Proof.
  intros H. unfold atn. rewrite getitem_in by done.
  destruct (lookup_lt_is_Some_2 l (Z.to_nat i)) as [x Hx]; [lia|].
  now rewrite Hx.
Qed.

Lemma atn_upd1 (l : list PyNum.num) (i j : Z) (x : PyNum.num) :
  0 <= i < Z.of_nat (length l) -> 0 <= j < Z.of_nat (length l) ->
  atn (upd1 l i x) j = if decide (j = i) then x else atn l j.
Proof.
  intros Hi Hj. unfold atn.
  rewrite !getitem_in by (rewrite ?length_upd1; done).
  unfold upd1. destruct (decide (j = i)) as [->|Hne].
  - rewrite list_lookup_insert_eq by lia. done.
  - rewrite list_lookup_insert_ne by lia. done.
Qed.

Lemma shape_row n m i :
  shape n m -> 0 <= i < n ->
  exists r, m !! Z.to_nat i = Some r /\ length r = Z.to_nat n.
Proof.
  intros [Hl Hr] Hi.
  destruct (lookup_lt_is_Some_2 m (Z.to_nat i)) as [r Hx]; [lia|].
  exists r. split; [done|]. apply Hr. eapply list_elem_of_lookup_2; eauto.
Qed.

Lemma shape_upd2 n m i j x : shape n m -> shape n (upd2 m i j x).
Proof.
  intros [Hl Hr]. unfold upd2. split.
  - now rewrite length_insert.
  - intros r Hin. apply list_elem_of_lookup in Hin as [k Hk].
    destruct (decide (k = Z.to_nat i)) as [->|Hne].
    + assert (Hlt : (Z.to_nat i < length m)%nat).
      { apply lookup_lt_Some in Hk. now rewrite length_insert in Hk. }
      rewrite list_lookup_insert_eq in Hk by done.
      injection Hk as <-. rewrite length_insert.
      destruct (lookup_lt_is_Some_2 m (Z.to_nat i) Hlt) as [r Hx].
      rewrite Hx. simpl. apply Hr. eapply list_elem_of_lookup_2; eauto.
    + rewrite list_lookup_insert_ne in Hk by done.
      apply Hr. eapply list_elem_of_lookup_2; eauto.
Qed.

Lemma getitem2_at2 n m i j :
  shape n m -> 0 <= i < n -> 0 <= j < n -> getitem2 m i j = Some (at2 m i j).
Proof.
  intros Hs Hi Hj. destruct (shape_row n m i Hs Hi) as (r & Hr & Hlen).
  destruct Hs as [Hl _].
  unfold at2, getitem2. rewrite getitem_in by lia. rewrite Hr.
  rewrite getitem_in by lia.
  destruct (lookup_lt_is_Some_2 r (Z.to_nat j)) as [x Hx]; [lia|].
  now rewrite Hx.
Qed.

Lemma setitem2_in n m i j x :
  shape n m -> 0 <= i < n -> 0 <= j < n -> setitem2 m i j x = Some (upd2 m i j x).
Proof.
  intros Hs Hi Hj. destruct (shape_row n m i Hs Hi) as (r & Hr & Hlen).
  destruct Hs as [Hl _].
  unfold setitem2, upd2. rewrite getitem_in by lia. rewrite Hr. simpl.
  rewrite setitem_in by lia. rewrite setitem_in by lia. done.
Qed.

Lemma at2_upd2 n m i j x a b :
  shape n m -> 0 <= i < n -> 0 <= j < n -> 0 <= a < n -> 0 <= b < n ->
  at2 (upd2 m i j x) a b = if decide (a = i /\ b = j) then x else at2 m a b.
Proof.
  intros Hs Hi Hj Ha Hb.
  destruct (shape_row n m i Hs Hi) as (r & Hr & Hlen).
  destruct (shape_row n m a Hs Ha) as (ra & Hra & Hlena).
  pose proof Hs as [Hl _].
  unfold at2, getitem2, upd2.
  rewrite (getitem_in (<[_ := _]> m)) by (rewrite length_insert; lia).
  rewrite (getitem_in m) by lia. rewrite Hr, Hra. simpl.
  destruct (decide (a = i)) as [->|Hne].
  - rewrite list_lookup_insert_eq by lia.
    rewrite Hr in Hra. injection Hra as <-.
    rewrite !getitem_in by (rewrite ?length_insert; lia).
    destruct (decide (b = j)) as [->|Hnb].
    + rewrite list_lookup_insert_eq by lia. now rewrite decide_True.
    + rewrite list_lookup_insert_ne by lia. rewrite decide_False by tauto. done.
  - rewrite list_lookup_insert_ne by lia. rewrite Hra.
    rewrite decide_False by tauto. done.
Qed.

Lemma index_none (len : nat) (i : Z) :
  ~ (- Z.of_nat len <= i < Z.of_nat len) -> index len i = None.
Proof.
  intros H. unfold index. rewrite !decide_False by lia. done.
Qed.

(** A subscript outside [-n, n) on either axis makes [m[i][j] = x]
    raise. *)
Lemma setitem2_out n m i j x :
  shape n m -> ~ (- n <= i < n) \/ ~ (- n <= j < n) -> setitem2 m i j x = None.
Proof.
  intros [Hl Hr] Hout. unfold setitem2.
  destruct (getitem m i) as [row|] eqn:Hrow; [|done].
  unfold getitem in Hrow.
  destruct (index (length m) i) as [k|] eqn:Hk; [|done].
  assert (Hi : - n <= i < n).
  { unfold index in Hk. repeat case_decide; try done; lia. }
  assert (Hlen : length row = Z.to_nat n).
  { apply Hr. eapply list_elem_of_lookup_2; eauto. }
  unfold setitem. rewrite index_none; [done|]. rewrite Hlen. lia.
Qed.

Lemma length_zeros {A} (x : A) n : length (zeros x n) = Z.to_nat n.
Proof. apply length_replicate. Qed.

Lemma shape_zeros2 n : shape n (zeros2 0 n).
Proof.
  split; [apply length_replicate|].
  intros r Hr. apply elem_of_replicate in Hr as [-> _]. apply length_replicate.
Qed.

Lemma at1_zeros n i : at1 (zeros 0 n) i = 0.
Proof.
  unfold at1, getitem.
  destruct (index _ i) as [k|]; [|done]. simpl.
  destruct (zeros 0 n !! k) as [x|] eqn:Hx; [|done].
  apply lookup_replicate in Hx as [-> _]. done.
Qed.

Lemma at2_zeros2 n i j : at2 (zeros2 0 n) i j = 0.
Proof.
  unfold at2, getitem2, getitem at 1.
  destruct (index _ i) as [k|]; [|done].
  destruct (zeros2 0 n !! k) as [r|] eqn:Hr; [|done].
  apply lookup_replicate in Hr as [-> _]. apply at1_zeros.
Qed.

(** *** [range] *)

Lemma elem_of_range n x : x ∈ range n <-> 0 <= x < n.
Proof.
  unfold range. rewrite list_elem_of_fmap. split.
  - intros (k & -> & Hk). apply elem_of_seq in Hk. lia.
  - intros H. exists (Z.to_nat x). split; [lia|]. apply elem_of_seq. lia.
Qed.

Lemma NoDup_range n : NoDup (range n).
Proof.
  unfold range. apply NoDup_fmap_2; [|apply NoDup_seq].
  intros a b. apply Nat2Z.inj.
Qed.

Lemma length_range n : length (range n) = Z.to_nat n.
Proof. unfold range. now rewrite length_map, length_seq. Qed.

(** *** Finite sums *)

Lemma sumf_nil f : sumf [] f = 0.
Proof. reflexivity. Qed.

Lemma sumf_cons a l f : sumf (a :: l) f = f a + sumf l f.
Proof. reflexivity. Qed.

Lemma sumf_ext l f g : (forall a, a ∈ l -> f a = g a) -> sumf l f = sumf l g.
Proof.
  induction l as [|a l IH]; intros H; [done|].
  rewrite !sumf_cons, H, IH; [done| |left].
  intros b Hb. apply H. now right.
Qed.

Lemma sumf_le l f g : (forall a, a ∈ l -> f a <= g a) -> sumf l f <= sumf l g.
Proof.
  induction l as [|a l IH]; intros H; [done|].
  rewrite !sumf_cons.
  assert (f a <= g a) by (apply H; left).
  assert (sumf l f <= sumf l g) by (apply IH; intros b Hb; apply H; now right).
  lia.
Qed.

Lemma sumf_add l f g : sumf l (fun a => f a + g a) = sumf l f + sumf l g.
Proof.
  induction l as [|a l IH]; [done|]. rewrite !sumf_cons, IH. lia.
Qed.

Lemma sumf_opp l f : sumf l (fun a => - f a) = - sumf l f.
Proof.
  induction l as [|a l IH]; [done|]. rewrite !sumf_cons, IH. lia.
Qed.

Lemma sumf_zero l f : (forall a, a ∈ l -> f a = 0) -> sumf l f = 0.
Proof.
  induction l as [|a l IH]; intros H; [done|].
  rewrite sumf_cons, H, IH; [done| |left].
  intros b Hb. apply H. now right.
Qed.

Lemma sumf_nonneg l f : (forall a, a ∈ l -> 0 <= f a) -> 0 <= sumf l f.
Proof.
  intros H. rewrite <- (sumf_zero l (fun _ => 0)) by done.
  now apply sumf_le.
Qed.

Lemma sumf_sub l f g : sumf l (fun a => f a - g a) = sumf l f - sumf l g.
Proof.
  induction l as [|a l IH]; [done|]. rewrite !sumf_cons, IH. lia.
Qed.

Lemma sumf_pos_exists l f : 0 < sumf l f -> exists a, a ∈ l /\ 0 < f a.
Proof.
  induction l as [|a l IH]; intros Hpos.
  - rewrite sumf_nil in Hpos. lia.
  - rewrite sumf_cons in Hpos.
    destruct (decide (0 < f a)) as [Ha|Ha].
    + exists a. split; [left|done].
    + destruct IH as (b & Hb & Hfb); [lia|].
      exists b. split; [now right|done].
Qed.

Lemma sumf_app l1 l2 f : sumf (l1 ++ l2) f = sumf l1 f + sumf l2 f.
Proof.
  induction l1 as [|a l1 IH]; [done|]. cbn [app]. rewrite !sumf_cons, IH. lia.
Qed.

(** A sum with a single non-zero term. *)
Lemma sumf_single l v c :
  NoDup l -> v ∈ l -> sumf l (fun a => if decide (a = v) then c else 0) = c.
Proof.
  induction l as [|a l IH]; intros Hnd Hin.
  - now apply elem_of_nil in Hin.
  - apply NoDup_cons in Hnd as [Hna Hnd]. rewrite sumf_cons.
    destruct (decide (a = v)) as [->|Hne].
    + rewrite sumf_zero; [lia|].
      intros b Hb. rewrite decide_False; [done|]. intros ->. done.
    + apply elem_of_cons in Hin as [->|Hin]; [done|].
      rewrite IH by done. lia.
Qed.

(** Lowering one term lowers the sum. *)
Lemma sumf_lt l f g u :
  NoDup l -> u ∈ l -> (forall a, a ∈ l -> f a <= g a) -> f u < g u ->
  sumf l f < sumf l g.
Proof.
  intros Hnd Hu Hle Hlt.
  assert (sumf l f <= sumf l (fun a => g a - (if decide (a = u) then 1 else 0))).
  { apply sumf_le. intros a Ha. specialize (Hle a Ha).
    case_decide; subst; lia. }
  rewrite sumf_sub, sumf_single in H by done. lia.
Qed.

(** Exchange of the order of summation. *)
Lemma sumf_swap l1 l2 (f : Z -> Z -> Z) :
  sumf l1 (fun a => sumf l2 (fun b => f a b))
  = sumf l2 (fun b => sumf l1 (fun a => f a b)).
Proof.
  induction l1 as [|a l1 IH].
  - simpl. symmetry. now apply sumf_zero.
  - rewrite sumf_cons, IH. rewrite <- sumf_add. done.
Qed.

(** [sum(l)] is the sum of the entries of [l]. *)
Lemma sum_sumf (l : list Z) n :
  length l = Z.to_nat n -> sum l = sumf (range n) (at1 l).
Proof.
  intros Hlen. unfold sumf. f_equal.
  apply list_eq. intros k. unfold range.
  rewrite list_lookup_fmap, list_lookup_fmap.
  destruct (decide (k < length l)%nat) as [Hk|Hk].
  - rewrite lookup_seq_lt by lia. simpl.
    unfold at1. rewrite getitem_in by lia. rewrite Nat2Z.id.
    destruct (lookup_lt_is_Some_2 l k Hk) as [x Hx]. now rewrite Hx.
  - rewrite lookup_seq_ge by lia. simpl. apply lookup_ge_None. lia.
Qed.

(** *** Skew symmetry of a matrix, and a loop rule *)

Definition skew (n : Z) (m : list (list Z)) : Prop :=
  forall u v, 0 <= u < n -> 0 <= v < n -> at2 m v u = - at2 m u v.

Lemma skew_zeros2 n : skew n (zeros2 0 n).
Proof. intros u v _ _. now rewrite !at2_zeros2. Qed.

(** A [for] loop whose body keeps [I] and returns normally does so
    too. *)
Lemma for_each_inv {S A} (I : S -> Prop) (l : list A) (body : A -> M S unit) :
  (forall x s, x ∈ l -> I s -> exists s', body x s = Ok tt s' /\ I s') ->
  forall s, I s -> exists s', for_each l body s = Ok tt s' /\ I s'.
Proof.
  induction l as [|x l IH]; intros Hbody s Hs.
  - exists s. done.
  - destruct (Hbody x s) as (s1 & Hrun & Hs1); [left|done|].
    destruct (IH (fun y s0 Hy => Hbody y s0 (list_elem_of_further _ _ _ Hy)) s1 Hs1)
      as (s2 & Hrun2 & Hs2).
    exists s2. split; [|done]. cbn [for_each].
    erewrite bind_ok by exact Hrun. exact Hrun2.
Qed.

(** *** Subscripts below zero *)

(** The position that subscript [v] addresses in a list of length
    [n] when [-n <= v < n]. *)
Definition norm (n v : Z) : Z := if decide (v < 0) then n + v else v.

Lemma norm_range n v : - n <= v < n -> 0 <= norm n v < n.
Proof. unfold norm. case_decide; lia. Qed.

Lemma norm_vertex n v : 0 <= v < n -> norm n v = v.
Proof. unfold norm. case_decide; lia. Qed.

Lemma getitem_norm {A} (l : list A) v :
  - Z.of_nat (length l) <= v < Z.of_nat (length l) ->
  getitem l v = getitem l (norm (Z.of_nat (length l)) v).
Proof.
  intros Hv. unfold getitem, index, norm.
  repeat case_decide; try lia; try done.
Qed.

Lemma setitem_norm {A} (l : list A) v x :
  - Z.of_nat (length l) <= v < Z.of_nat (length l) ->
  setitem l v x = setitem l (norm (Z.of_nat (length l)) v) x.
Proof.
  intros Hv. unfold setitem, index, norm.
  repeat case_decide; try lia; try done.
Qed.

Lemma getitem_out {A} (l : list A) v :
  ~ (- Z.of_nat (length l) <= v < Z.of_nat (length l)) -> getitem l v = None.
Proof. intros Hv. unfold getitem. now rewrite index_none. Qed.

Lemma getitem2_norm n (m : list (list Z)) i j :
  shape n m -> - n <= i < n -> - n <= j < n ->
  getitem2 m i j = getitem2 m (norm n i) (norm n j).
Proof.
  intros [Hl Hr] Hi Hj. unfold getitem2.
  rewrite (getitem_norm m i) by lia.
  replace (Z.of_nat (length m)) with n by lia.
  destruct (getitem m (norm n i)) as [row|] eqn:Hrow; [|done].
  assert (Hlen : length row = Z.to_nat n).
  { apply Hr. unfold getitem in Hrow.
    destruct (index _ _); [|done]. eapply list_elem_of_lookup_2; eauto. }
  rewrite (getitem_norm row j) by lia.
  replace (Z.of_nat (length row)) with n by lia. done.
Qed.

Lemma setitem2_norm n (m : list (list Z)) i j x :
  shape n m -> - n <= i < n -> - n <= j < n ->
  setitem2 m i j x = setitem2 m (norm n i) (norm n j) x.
Proof.
  intros [Hl Hr] Hi Hj. unfold setitem2.
  rewrite (getitem_norm m i) by lia.
  replace (Z.of_nat (length m)) with n by lia.
  destruct (getitem m (norm n i)) as [row|] eqn:Hrow; [|done].
  assert (Hlen : length row = Z.to_nat n).
  { apply Hr. unfold getitem in Hrow.
    destruct (index _ _); [|done]. eapply list_elem_of_lookup_2; eauto. }
  rewrite (setitem_norm row j) by lia.
  replace (Z.of_nat (length row)) with n by lia.
  destruct (setitem row (norm n j) x); [|done].
  rewrite (setitem_norm m i) by lia.
  replace (Z.of_nat (length m)) with n by lia. done.
Qed.

(** A column subscript outside [-n, n) makes [m[i][j]] raise. *)
Lemma getitem2_out n (m : list (list Z)) i j :
  shape n m -> ~ (- n <= i < n) \/ ~ (- n <= j < n) -> getitem2 m i j = None.
Proof.
  intros [Hl Hr] Hout. unfold getitem2.
  destruct (getitem m i) as [row|] eqn:Hrow; [|done].
  assert (Hi : - n <= i < n).
  { unfold getitem in Hrow. destruct (index (length m) i) eqn:Hk; [|done].
    unfold index in Hk. repeat case_decide; try done; lia. }
  assert (Hlen : length row = Z.to_nat n).
  { apply Hr. unfold getitem in Hrow.
    destruct (index _ _); [|done]. eapply list_elem_of_lookup_2; eauto. }
  apply getitem_out. lia.
Qed.

(** A decidable form of skew symmetry, for concrete matrices. *)
Definition skewb (n : Z) (m : list (list Z)) : bool :=
  forallb (fun u => forallb (fun v => at2 m v u =? - at2 m u v) (range n))
          (range n).

Lemma skewb_skew n m : skewb n m = true -> skew n m.
Proof.
  unfold skewb. intros Hb u v Hu Hv. rewrite forallb_forall in Hb.
  specialize (Hb u (proj1 (list_elem_of_In _ _) (proj2 (elem_of_range _ _) Hu))).
  rewrite forallb_forall in Hb.
  specialize (Hb v (proj1 (list_elem_of_In _ _) (proj2 (elem_of_range _ _) Hv))).
  lia.
Qed.

End PyFacts.

(** ** The maximum-flow engine: invariants *)

Module PushRelabelFacts.
Import Py PyFacts PushRelabel.

(** Readers of the engine's arrays. *)
Definition X (e : engine) (u : Z) : Z := at1 (excess e) u.
Definition H (e : engine) (u : Z) : Z := at1 (height e) u.
Definition F (e : engine) (u v : Z) : Z := at2 (flow e) u v.
Definition C (e : engine) (u v : Z) : Z := at2 (capacity e) u v.

(** The arrays have the sizes the constructor gave them. *)
Record wf (e : engine) : Prop := {
  wf_excess : length (excess e) = Z.to_nat (V e);
  wf_height : length (height e) = Z.to_nat (V e);
  wf_flow : shape (V e) (flow e);
  wf_capacity : shape (V e) (capacity e)
}.

Lemma wf_init n : wf (init n).
Proof.
  split; simpl; auto using length_zeros, shape_zeros2.
Qed.

Lemma wf_set_excess e u x : wf e -> wf (set_excess (upd1 (excess e) u x) e).
Proof. intros [? ? ? ?]. split; simpl; rewrite ?length_upd1; done. Qed.

Lemma wf_set_height e u x : wf e -> wf (set_height (upd1 (height e) u x) e).
Proof. intros [? ? ? ?]. split; simpl; rewrite ?length_upd1; done. Qed.

Lemma wf_set_flow e u v x : wf e -> wf (set_flow (upd2 (flow e) u v x) e).
Proof. intros [? ? ? ?]. split; simpl; auto using shape_upd2. Qed.

Lemma wf_set_capacity e u v x :
  wf e -> wf (set_capacity (upd2 (capacity e) u v x) e).
Proof. intros [? ? ? ?]. split; simpl; auto using shape_upd2. Qed.

Lemma wf_set_graph e g : wf e -> wf (set_graph g e).
Proof. intros [? ? ? ?]. split; simpl; done. Qed.

#[local] Hint Resolve wf_set_excess wf_set_height wf_set_flow
  wf_set_capacity wf_set_graph : core.

Lemma rd_excess_ok e u :
  wf e -> 0 <= u < V e -> rd_excess u e = Ok (X e u) e.
Proof.
  intros [Hx _ _ _] Hu. unfold rd_excess, X.
  rewrite getitem_at1 by lia. done.
Qed.

Lemma wr_excess_ok e u x :
  wf e -> 0 <= u < V e ->
  wr_excess u x e = Ok tt (set_excess (upd1 (excess e) u x) e).
Proof.
  intros [Hx _ _ _] Hu. unfold wr_excess.
  rewrite setitem_in by lia. done.
Qed.

Lemma rd_height_ok e u :
  wf e -> 0 <= u < V e -> rd_height u e = Ok (H e u) e.
Proof.
  intros [_ Hh _ _] Hu. unfold rd_height, H.
  rewrite getitem_at1 by lia. done.
Qed.

Lemma wr_height_ok e u x :
  wf e -> 0 <= u < V e ->
  wr_height u x e = Ok tt (set_height (upd1 (height e) u x) e).
Proof.
  intros [_ Hh _ _] Hu. unfold wr_height.
  rewrite setitem_in by lia. done.
Qed.

Lemma rd_flow_ok e u v :
  wf e -> 0 <= u < V e -> 0 <= v < V e -> rd_flow u v e = Ok (F e u v) e.
Proof.
  intros [_ _ Hf _] Hu Hv. unfold rd_flow, F.
  erewrite getitem2_at2 by eauto. done.
Qed.

Lemma wr_flow_ok e u v x :
  wf e -> 0 <= u < V e -> 0 <= v < V e ->
  wr_flow u v x e = Ok tt (set_flow (upd2 (flow e) u v x) e).
Proof.
  intros [_ _ Hf _] Hu Hv. unfold wr_flow.
  erewrite setitem2_in by eauto. done.
Qed.

Lemma rd_capacity_ok e u v :
  wf e -> 0 <= u < V e -> 0 <= v < V e -> rd_capacity u v e = Ok (C e u v) e.
Proof.
  intros [_ _ _ Hc] Hu Hv. unfold rd_capacity, C.
  erewrite getitem2_at2 by eauto. done.
Qed.

Lemma wr_capacity_ok e u v x :
  wf e -> 0 <= u < V e -> 0 <= v < V e ->
  wr_capacity u v x e = Ok tt (set_capacity (upd2 (capacity e) u v x) e).
Proof.
  intros [_ _ _ Hc] Hu Hv. unfold wr_capacity.
  erewrite setitem2_in by eauto. done.
Qed.

(** Reading back after a write. *)
Lemma X_upd e u x a :
  wf e -> 0 <= u < V e -> 0 <= a < V e ->
  X (set_excess (upd1 (excess e) u x) e) a = if decide (a = u) then x else X e a.
Proof.
  intros [Hx _ _ _] Hu Ha. unfold X. simpl. apply at1_upd1; lia.
Qed.

Lemma H_upd e u x a :
  wf e -> 0 <= u < V e -> 0 <= a < V e ->
  H (set_height (upd1 (height e) u x) e) a = if decide (a = u) then x else H e a.
Proof.
  intros [_ Hh _ _] Hu Ha. unfold H. simpl. apply at1_upd1; lia.
Qed.

Lemma F_upd e u v x a b :
  wf e -> 0 <= u < V e -> 0 <= v < V e -> 0 <= a < V e -> 0 <= b < V e ->
  F (set_flow (upd2 (flow e) u v x) e) a b
  = if decide (a = u /\ b = v) then x else F e a b.
Proof.
  intros [_ _ Hf _] Hu Hv Ha Hb. unfold F. simpl. eapply at2_upd2; eauto.
Qed.

Lemma C_upd e u v x a b :
  wf e -> 0 <= u < V e -> 0 <= v < V e -> 0 <= a < V e -> 0 <= b < V e ->
  C (set_capacity (upd2 (capacity e) u v x) e) a b
  = if decide (a = u /\ b = v) then x else C e a b.
Proof.
  intros [_ _ _ Hc] Hu Hv Ha Hb. unfold C. simpl. eapply at2_upd2; eauto.
Qed.

(** Symbolic execution of one monadic step on a well-formed state. *)
Ltac side := solve [ done | simpl; lia | eauto 10 ].
Ltac step :=
  lazymatch goal with
  | |- (?m ≫= ?k) ?e = _ =>
      erewrite (bind_ok m k e);
      [ | first [ apply rd_excess_ok | apply wr_excess_ok
                | apply rd_height_ok | apply wr_height_ok
                | apply rd_flow_ok | apply wr_flow_ok
                | apply rd_capacity_ok | apply wr_capacity_ok
                | reflexivity ]; side ];
      cbv beta
  end.

(** The state left by [push(u, v)]. *)
Definition push_delta (e : engine) (u v : Z) : Z :=
  Z.min (X e u) (C e u v - F e u v).

Definition pushed (e : engine) (u v : Z) : engine :=
  let d := push_delta e u v in
  let e1 := set_flow (upd2 (flow e) u v (F e u v + d)) e in
  let e2 := set_flow (upd2 (flow e1) v u (F e1 v u - d)) e1 in
  let e3 := set_excess (upd1 (excess e2) u (X e2 u - d)) e2 in
  set_excess (upd1 (excess e3) v (X e3 v + d)) e3.

Lemma push_ok e u v :
  wf e -> 0 <= u < V e -> 0 <= v < V e -> push u v e = Ok tt (pushed e u v).
Proof.
  intros Hwf Hu Hv. unfold push.
  repeat step. rewrite wr_excess_ok by side. reflexivity.
Qed.

Lemma wf_pushed e u v : wf e -> wf (pushed e u v).
Proof. intros Hwf. unfold pushed. cbv zeta. auto 10. Qed.

Lemma V_pushed e u v : V (pushed e u v) = V e.
Proof. reflexivity. Qed.

Lemma H_pushed e u v a : H (pushed e u v) a = H e a.
Proof. reflexivity. Qed.

Lemma C_pushed e u v a b : C (pushed e u v) a b = C e a b.
Proof. reflexivity. Qed.

Lemma graph_pushed e u v : graph (pushed e u v) = graph e.
Proof. reflexivity. Qed.

(** Effect of [push(u, v)] on the flow matrix; for [u = v] the two
    updates cancel. *)
Lemma F_pushed e u v a b :
  wf e -> 0 <= u < V e -> 0 <= v < V e -> 0 <= a < V e -> 0 <= b < V e ->
  F (pushed e u v) a b =
    if decide (u = v) then F e a b
    else if decide (a = u /\ b = v) then F e u v + push_delta e u v
    else if decide (a = v /\ b = u) then F e v u - push_delta e u v
    else F e a b.
Proof.
  intros Hwf Hu Hv Ha Hb.
  set (d := push_delta e u v).
  set (e1 := set_flow (upd2 (flow e) u v (F e u v + d)) e).
  assert (Hwf1 : wf e1) by (subst e1; auto).
  change (F (pushed e u v) a b)
    with (F (set_flow (upd2 (flow e1) v u (F e1 v u - d)) e1) a b).
  rewrite F_upd by side.
  subst e1. rewrite !F_upd by side.
  repeat case_decide; try lia; try done.
  all: destruct_and?; subst; try lia; try tauto.
Qed.

Lemma X_pushed e u v a :
  wf e -> 0 <= u < V e -> 0 <= v < V e -> 0 <= a < V e ->
  X (pushed e u v) a =
    if decide (u = v) then X e a
    else if decide (a = u) then X e u - push_delta e u v
    else if decide (a = v) then X e v + push_delta e u v
    else X e a.
Proof.
  intros Hwf Hu Hv Ha.
  set (d := push_delta e u v).
  set (e1 := set_flow (upd2 (flow e) u v (F e u v + d)) e).
  set (e2 := set_flow (upd2 (flow e1) v u (F e1 v u - d)) e1).
  assert (Hwf2 : wf e2) by (subst e2 e1; auto).
  set (e3 := set_excess (upd1 (excess e2) u (X e2 u - d)) e2).
  assert (Hwf3 : wf e3) by (subst e3; auto).
  change (X (pushed e u v) a)
    with (X (set_excess (upd1 (excess e3) v (X e3 v + d)) e3) a).
  rewrite X_upd by side.
  subst e3. rewrite !X_upd by side.
  change (X e2) with (X e).
  repeat case_decide; subst; try lia; try done.
Qed.

(** *** [relabel], the admissible-arc search and one sweep *)

Definition residual (e : engine) (u v : Z) : Z := C e u v - F e u v.

Definition min_height (e : engine) (u : Z) (vs : list Z) (acc : option Z)
  : option Z :=
  foldl (fun acc v => if decide (residual e u v > 0)
                      then min_inf acc (H e v) else acc) acc vs.

Definition relabeled (e : engine) (u : Z) : engine :=
  match min_height e u (range (V e)) None with
  | Some m => set_height (upd1 (height e) u (m + 1)) e
  | None => e
  end.

Definition admissible (e : engine) (u v : Z) : Prop :=
  residual e u v > 0 /\ H e u = H e v + 1.

#[local] Instance admissible_dec e u v : Decision (admissible e u v).
Proof. unfold admissible. apply _. Defined.

Definition first_admissible (e : engine) (u : Z) (vs : list Z) : option Z :=
  List.find (fun v => bool_decide (admissible e u v)) vs.

Definition is_active (s t : Z) (e : engine) (u : Z) : bool :=
  bool_decide (u <> s /\ u <> t /\ X e u > 0).

Definition visited (s t : Z) (e : engine) (u : Z) : engine :=
  if is_active s t e u then
    match first_admissible e u (range (V e)) with
    | Some v => pushed e u v
    | None => relabeled e u
    end
  else e.

Fixpoint swept (s t : Z) (us : list Z) (a : bool) (e : engine)
  : bool * engine :=
  match us with
  | [] => (a, e)
  | u :: us' => swept s t us' (a || is_active s t e u) (visited s t e u)
  end.

Lemma relabel_scan_ok e u vs acc :
  wf e -> 0 <= u < V e -> (forall v, v ∈ vs -> 0 <= v < V e) ->
  relabel_scan u vs acc e = Ok (min_height e u vs acc) e.
Proof.
  intros Hwf Hu. revert acc.
  induction vs as [|v vs IH]; intros acc Hvs; [done|].
  assert (Hv : 0 <= v < V e) by (apply Hvs; left).
  assert (Hvs' : forall w, w ∈ vs -> 0 <= w < V e)
    by (intros w Hw; apply Hvs; now right).
  cbn [relabel_scan min_height foldl]. do 2 step.
  unfold residual. case_decide; [step|]; now apply IH.
Qed.

Lemma relabel_ok e u :
  wf e -> 0 <= u < V e -> relabel u e = Ok tt (relabeled e u).
Proof.
  intros Hwf Hu. unfold relabel, relabeled. step.
  erewrite bind_ok
    by (apply relabel_scan_ok; [done..|intros v Hv; now apply elem_of_range]).
  destruct (min_height _ _ _ _); [|done].
  now apply wr_height_ok.
Qed.

Lemma wf_relabeled e u : wf e -> wf (relabeled e u).
Proof. intros Hwf. unfold relabeled. destruct (min_height _ _ _ _); auto. Qed.

Lemma V_relabeled e u : V (relabeled e u) = V e.
Proof. unfold relabeled. now destruct (min_height _ _ _ _). Qed.

Lemma find_push_ok e u vs :
  wf e -> 0 <= u < V e -> (forall v, v ∈ vs -> 0 <= v < V e) ->
  find_push u vs e =
    match first_admissible e u vs with
    | Some v => Ok true (pushed e u v)
    | None => Ok false e
    end.
Proof.
  intros Hwf Hu. induction vs as [|v vs IH]; intros Hvs; [done|].
  assert (Hv : 0 <= v < V e) by (apply Hvs; left).
  assert (Hvs' : forall w, w ∈ vs -> 0 <= w < V e)
    by (intros w Hw; apply Hvs; now right).
  cbn [find_push first_admissible List.find]. do 2 step.
  unfold admissible at 1, residual.
  destruct (decide (C e u v - F e u v > 0)) as [Hr|Hr].
  - do 2 step. destruct (decide (H e u = H e v + 1)) as [Hh|Hh].
    + rewrite bool_decide_eq_true_2 by done.
      erewrite bind_ok by now apply push_ok. done.
    + rewrite bool_decide_eq_false_2 by tauto. now apply IH.
  - rewrite bool_decide_eq_false_2 by tauto. now apply IH.
Qed.

Lemma first_admissible_Some e u vs v :
  first_admissible e u vs = Some v -> v ∈ vs /\ admissible e u v.
Proof.
  intros Hf. apply List.find_some in Hf as [Hin Hb].
  apply bool_decide_eq_true in Hb. split; [|done].
  now apply list_elem_of_In.
Qed.

Lemma first_admissible_None e u vs v :
  first_admissible e u vs = None -> v ∈ vs -> ~ admissible e u v.
Proof.
  intros Hf Hin Ha. apply list_elem_of_In in Hin.
  pose proof (List.find_none _ _ Hf _ Hin) as Hb. simpl in Hb.
  now rewrite bool_decide_eq_true_2 in Hb.
Qed.

Lemma wf_visited s t e u : wf e -> wf (visited s t e u).
Proof.
  intros Hwf. unfold visited. destruct (is_active s t e u); [|done].
  destruct (first_admissible _ _ _); auto using wf_pushed, wf_relabeled.
Qed.

Lemma V_visited s t e u : V (visited s t e u) = V e.
Proof.
  unfold visited. destruct (is_active s t e u); [|done].
  destruct (first_admissible _ _ _); auto using V_relabeled.
Qed.

Lemma visit_ok s t e u a :
  wf e -> 0 <= u < V e ->
  visit s t u a e = Ok (a || is_active s t e u) (visited s t e u).
Proof.
  intros Hwf Hu. unfold visit, visited, is_active.
  destruct (decide (u = s \/ u = t)) as [Hst|Hst].
  { rewrite bool_decide_eq_false_2 by tauto. now rewrite orb_false_r. }
  step. destruct (decide (X e u > 0)) as [Hx|Hx].
  - rewrite bool_decide_eq_true_2 by tauto. rewrite orb_true_r. step.
    unfold mbind at 1, M_bind at 1.
    rewrite find_push_ok by (try done; intros v Hv; now apply elem_of_range).
    destruct (first_admissible e u (range (V e))) as [v|] eqn:Hf.
    + reflexivity.
    + erewrite bind_ok by now apply relabel_ok. reflexivity.
  - rewrite bool_decide_eq_false_2 by tauto. now rewrite orb_false_r.
Qed.

Lemma sweep_ok s t us e a :
  wf e -> (forall u, u ∈ us -> 0 <= u < V e) ->
  sweep s t us a e = Ok (swept s t us a e).1 (swept s t us a e).2.
Proof.
  revert e a. induction us as [|u us IH]; intros e a Hwf Hus; [done|].
  cbn [sweep swept].
  erewrite bind_ok by (apply visit_ok; [done|apply Hus; left]).
  apply IH; [now apply wf_visited|].
  intros w Hw. rewrite V_visited. apply Hus. now right.
Qed.

(** *** The preflow invariant *)

Definition vertex (e : engine) (a : Z) : Prop := 0 <= a < V e.

(** What the main loop of [max_flow(s, t)] maintains: a preflow
    with a valid height labelling.  The diagonal entry [flow[s][s]] is
    left out of the skew-symmetry clause because a self-loop at the
    source makes [initialize_preflow] overwrite it. *)
Record Inv (s t : Z) (e : engine) : Prop := {
  inv_wf : wf e;
  inv_s : vertex e s;
  inv_t : vertex e t;
  inv_st : s <> t;
  inv_cap : forall a b, vertex e a -> vertex e b -> 0 <= C e a b;
  inv_skew : forall a b, vertex e a -> vertex e b -> a <> s \/ b <> s ->
                         F e a b = - F e b a;
  inv_le : forall a b, vertex e a -> vertex e b -> F e a b <= C e a b;
  inv_diag : - C e s s <= F e s s;
  inv_X : forall a, vertex e a -> a <> s ->
                    X e a = sumf (range (V e)) (fun b => F e b a);
  inv_Xpos : forall a, vertex e a -> a <> s -> 0 <= X e a;
  inv_Hs : H e s = V e;
  inv_Ht : H e t = 0;
  inv_Hpos : forall a, vertex e a -> 0 <= H e a;
  inv_valid : forall a b, vertex e a -> vertex e b ->
                          residual e a b > 0 -> H e a <= H e b + 1
}.

(** A double sum of a skew-symmetric function vanishes. *)
Lemma sumf2_skew l (G : Z -> Z -> Z) :
  (forall a b, a ∈ l -> b ∈ l -> G a b = - G b a) ->
  sumf l (fun a => sumf l (fun b => G a b)) = 0.
Proof.
  intros HG.
  assert (Heq : sumf l (fun a => sumf l (fun b => G a b))
                = - sumf l (fun a => sumf l (fun b => G a b))).
  { rewrite <- sumf_opp. rewrite sumf_swap at 1.
    apply sumf_ext. intros a Ha. rewrite <- sumf_opp.
    apply sumf_ext. intros b Hb. now apply HG. }
  lia.
Qed.

(** Pigeonhole: distinct levels that are all occupied need as many
    vertices. *)
Lemma occupied_levels (h : Z -> Z) (levels verts : list Z) :
  NoDup levels ->
  (forall g, g ∈ levels -> exists a, a ∈ verts /\ h a = g) ->
  (length levels <= length verts)%nat.
Proof.
  revert verts. induction levels as [|g gs IH]; intros verts Hnd Hocc.
  - simpl. lia.
  - apply NoDup_cons in Hnd as [Hg Hnd].
    destruct (Hocc g) as (a & Ha & Hha); [left|].
    apply elem_of_Permutation in Ha as [verts' Hp].
    rewrite Hp. simpl. apply le_n_S. apply IH; [done|].
    intros g' Hg'. destruct (Hocc g') as (a' & Ha' & Hha'); [now right|].
    exists a'. split; [|done].
    rewrite Hp in Ha'. apply elem_of_cons in Ha' as [->|Ha']; [|done].
    congruence.
Qed.

(** Some level strictly between [V] and [2V] is empty when a vertex
    sits at level [2V] or above. *)
Lemma empty_level s t e u :
  Inv s t e -> vertex e u -> 2 * V e <= H e u ->
  exists g, V e < g < 2 * V e /\ forall a, vertex e a -> H e a <> g.
Proof.
  intros HI Hu Hhu.
  assert (Hn : 0 < V e) by (pose proof (inv_s _ _ _ HI) as Hs; unfold vertex in Hs; lia).
  set (n := V e) in *.
  set (levels := map (fun k => n + 1 + k) (range (n - 1))).
  assert (Hlev : forall g, g ∈ levels <-> n < g < 2 * n).
  { intros g. subst levels. rewrite list_elem_of_fmap. split.
    - intros (k & -> & Hk). apply elem_of_range in Hk. lia.
    - intros Hg. exists (g - n - 1). split; [lia|]. apply elem_of_range. lia. }
  assert (Hnd : NoDup levels).
  { subst levels. apply NoDup_fmap_2; [|apply NoDup_range].
    intros a b Hab. simpl in Hab. lia. }
  destruct (decide (Forall (fun g => Exists (fun a => H e a = g) (range n)) levels))
    as [Hall|Hsome].
  - exfalso.
    assert (Hlen : (length (n :: H e u :: levels) <= length (range n))%nat).
    { apply (occupied_levels (H e)).
      - apply NoDup_cons. split.
        + rewrite elem_of_cons, Hlev. lia.
        + apply NoDup_cons. split; [rewrite Hlev; lia|done].
      - intros g Hg.
        apply elem_of_cons in Hg as [->|Hg].
        { exists s. split; [apply elem_of_range, HI|apply HI]. }
        apply elem_of_cons in Hg as [->|Hg].
        { exists u. split; [now apply elem_of_range|done]. }
        rewrite Forall_forall in Hall. apply Hall in Hg.
        apply Exists_exists in Hg as (a & Ha & Hha). eauto. }
    simpl in Hlen. subst levels.
    rewrite length_map, !length_range in Hlen.
    lia.
  - apply not_Forall_Exists in Hsome; [|apply _].
    apply Exists_exists in Hsome as (g & Hg & Hng). simpl in Hng.
    exists g. split; [now apply Hlev|].
    intros a Ha Hha. apply Hng. apply Exists_exists.
    exists a. split; [now apply elem_of_range|done].
Qed.

(** A vertex that holds excess is never higher than [2V - 1]: above
    an empty level no excess can sit, because nothing flows into the
    set of vertices above that level. *)
Lemma active_height_bound s t e u :
  Inv s t e -> vertex e u -> u <> s -> X e u > 0 -> H e u <= 2 * V e - 1.
Proof.
  intros HI Hu Hus Hx.
  destruct (decide (H e u <= 2 * V e - 1)) as [|Hhigh]; [done|exfalso].
  destruct (empty_level s t e u) as (g & Hg & Hgap); [done|done|lia|].
  pose proof (inv_Hs _ _ _ HI) as Hhs.
  set (l := range (V e)).
  assert (Hl : forall a, a ∈ l <-> vertex e a) by (intros a; apply elem_of_range).
  set (T := sumf l (fun a => if decide (g < H e a) then X e a else 0)).
  assert (Hlow : X e u <= T).
  { rewrite <- (sumf_single l u (X e u)) by (try apply NoDup_range; now apply Hl).
    apply sumf_le. intros a Ha. apply Hl in Ha.
    destruct (decide (a = u)) as [->|Hau].
    - rewrite decide_True by lia. lia.
    - case_decide; [|lia]. apply (inv_Xpos _ _ _ HI); [done|]. intros ->. lia. }
  assert (Hup : T <= 0).
  { set (G1 := fun a b : Z =>
                 if decide (g < H e a /\ g < H e b) then F e b a else 0).
    set (G2 := fun a b : Z =>
                 if decide (g < H e a /\ ~ g < H e b) then F e b a else 0).
    assert (HT : T = sumf l (fun a => sumf l (fun b => G1 a b))
                     + sumf l (fun a => sumf l (fun b => G2 a b))).
    { rewrite <- sumf_add. apply sumf_ext. intros a Ha. apply Hl in Ha.
      rewrite <- sumf_add. subst G1 G2. cbv beta.
      destruct (decide (g < H e a)) as [Hga|Hga].
      - rewrite (inv_X _ _ _ HI) by (try done; intros ->; lia).
        apply sumf_ext. intros b Hb.
        destruct (decide (g < H e b)).
        + rewrite decide_True, decide_False by tauto. lia.
        + rewrite decide_False, decide_True by tauto. lia.
      - symmetry. apply sumf_zero. intros b Hb.
        rewrite !decide_False by tauto. done. }
    assert (H1 : sumf l (fun a => sumf l (fun b => G1 a b)) = 0).
    { apply sumf2_skew. intros a b Ha Hb. apply Hl in Ha, Hb.
      subst G1. cbv beta.
      destruct (decide (g < H e a /\ g < H e b)) as [[Ha' Hb']|Hn].
      - rewrite decide_True by tauto.
        apply (inv_skew _ _ _ HI); [done..|]. left. intros ->. lia.
      - rewrite decide_False by tauto. done. }
    assert (H2 : sumf l (fun a => sumf l (fun b => G2 a b)) <= 0).
    { rewrite <- (sumf_zero l (fun _ => 0)) by done.
      apply sumf_le. intros a Ha. apply Hl in Ha.
      rewrite <- (sumf_zero l (fun _ => 0)) by done.
      apply sumf_le. intros b Hb. apply Hl in Hb.
      subst G2. cbv beta. case_decide as Hab; [|done].
      destruct Hab as [Hga Hgb].
      assert (Hres : ~ residual e a b > 0).
      { intros Hr. pose proof (inv_valid _ _ _ HI a b Ha Hb Hr).
        pose proof (Hgap b Hb). lia. }
      pose proof (inv_cap _ _ _ HI a b Ha Hb).
      rewrite (inv_skew _ _ _ HI b a) by (try done; right; intros ->; lia).
      unfold residual in Hres. lia. }
    lia. }
  lia.
Qed.

(** *** [relabel] raises the vertex, [push] keeps the invariant *)

Lemma min_height_None e u vs acc :
  min_height e u vs acc = None ->
  acc = None /\ forall v, v ∈ vs -> ~ residual e u v > 0.
Proof.
  revert acc. induction vs as [|v vs IH]; intros acc Hm.
  - split; [done|]. intros v Hv. now apply elem_of_nil in Hv.
  - cbn [min_height foldl] in Hm. fold (min_height e u vs) in Hm.
    apply IH in Hm as [Hacc Hvs].
    destruct (decide (residual e u v > 0)) as [Hr|Hr].
    + destruct acc; discriminate.
    + split; [done|]. intros w Hw.
      apply elem_of_cons in Hw as [->|Hw]; auto.
Qed.

Lemma min_height_Some e u vs acc m :
  min_height e u vs acc = Some m ->
  (acc = Some m \/ exists v, v ∈ vs /\ residual e u v > 0 /\ H e v = m)
  /\ (forall a, acc = Some a -> m <= a)
  /\ (forall v, v ∈ vs -> residual e u v > 0 -> m <= H e v).
Proof.
  revert acc. induction vs as [|v vs IH]; intros acc Hm.
  - cbn in Hm. subst acc. split; [now left|]. split.
    + intros a [= ->]. lia.
    + intros v Hv. now apply elem_of_nil in Hv.
  - cbn [min_height foldl] in Hm. fold (min_height e u vs) in Hm.
    apply IH in Hm as (Hatt & Hacc & Hvs).
    destruct (decide (residual e u v > 0)) as [Hr|Hr].
    + split; [|split].
      * destruct Hatt as [Hatt|(w & Hw & Hrw & Hhw)].
        -- destruct acc as [a|]; simpl in Hatt; injection Hatt as Hatt.
           ++ destruct (decide (a <= H e v)).
              ** left. f_equal. lia.
              ** right. exists v. split; [left|]. split; [done|lia].
           ++ right. exists v. split; [left|]. split; [done|lia].
        -- right. exists w. split; [now right|done].
      * intros a ->. specialize (Hacc _ eq_refl). lia.
      * intros w Hw Hrw. apply elem_of_cons in Hw as [->|Hw]; [|auto].
        destruct acc as [a|]; specialize (Hacc _ eq_refl); lia.
    + split; [|split].
      * destruct Hatt as [Hatt|(w & Hw & Hrw & Hhw)]; [now left|].
        right. exists w. split; [now right|done].
      * done.
      * intros w Hw Hrw. apply elem_of_cons in Hw as [->|Hw]; [done|auto].
Qed.

(** A vertex with excess has an outgoing residual arc. *)
Lemma active_has_residual s t e u :
  Inv s t e -> vertex e u -> u <> s -> X e u > 0 ->
  exists v, vertex e v /\ residual e u v > 0.
Proof.
  intros HI Hu Hus Hx.
  rewrite (inv_X _ _ _ HI) in Hx by done.
  destruct (sumf_pos_exists (range (V e)) (fun b => F e b u)) as (b & Hb & Hfb);
    [lia|].
  apply elem_of_range in Hb. exists b. split; [done|].
  pose proof (inv_cap _ _ _ HI u b Hu Hb).
  pose proof (inv_skew _ _ _ HI u b Hu Hb (or_introl Hus)).
  unfold residual. lia.
Qed.

Lemma relabeled_Some s t e u :
  Inv s t e -> vertex e u -> u <> s -> X e u > 0 ->
  (forall v, vertex e v -> ~ admissible e u v) ->
  exists m, min_height e u (range (V e)) None = Some m
            /\ H e u <= m
            /\ (forall v, vertex e v -> residual e u v > 0 -> m <= H e v).
Proof.
  intros HI Hu Hus Hx Hna.
  destruct (active_has_residual s t e u) as (w & Hw & Hrw); [done..|].
  destruct (min_height e u (range (V e)) None) as [m|] eqn:Hm.
  - exists m. split; [done|].
    apply min_height_Some in Hm as (Hatt & _ & Hle).
    split.
    + destruct Hatt as [|(v & Hv & Hrv & Hhv)]; [done|].
      apply elem_of_range in Hv.
      pose proof (inv_valid _ _ _ HI u v Hu Hv Hrv).
      assert (H e u <> H e v + 1) by (intros Heq; now apply (Hna v Hv)).
      lia.
    + intros v Hv. apply Hle. now apply elem_of_range.
  - apply min_height_None in Hm as [_ Hm].
    exfalso. apply (Hm w); [now apply elem_of_range|done].
Qed.

Lemma inv_relabeled s t e u :
  Inv s t e -> vertex e u -> u <> s -> u <> t -> X e u > 0 ->
  (forall v, vertex e v -> ~ admissible e u v) ->
  Inv s t (relabeled e u)
  /\ H e u < H (relabeled e u) u
  /\ (forall a, vertex e a -> a <> u -> H (relabeled e u) a = H e a)
  /\ (forall a, X (relabeled e u) a = X e a)
  /\ (forall a b, F (relabeled e u) a b = F e a b)
  /\ (forall a b, C (relabeled e u) a b = C e a b).
Proof.
  intros HI Hu Hus Hut Hx Hna.
  destruct (relabeled_Some s t e u) as (m & Hm & Hum & Hmle); [done..|].
  pose proof (inv_wf _ _ _ HI) as Hwf.
  unfold relabeled. rewrite Hm.
  set (e' := set_height (upd1 (height e) u (m + 1)) e).
  assert (HH : forall a, vertex e a ->
                         H e' a = if decide (a = u) then m + 1 else H e a).
  { intros a Ha. subst e'. now apply H_upd. }
  assert (Hres : forall a b, residual e' a b = residual e a b) by done.
  split; [|split; [|split]].
  - destruct HI. split; try done.
    + subst e'. auto.
    + rewrite HH by done. now rewrite decide_False.
    + rewrite HH by done. now rewrite decide_False.
    + intros a Ha. rewrite HH by done. case_decide; subst; [|auto].
      specialize (inv_Hpos0 u Hu). lia.
    + intros a b Ha Hb Hr. rewrite Hres in Hr.
      rewrite !HH by done.
      specialize (inv_valid0 a b Ha Hb Hr).
      repeat case_decide; subst; try lia.
      specialize (Hmle b Hb Hr). lia.
  - rewrite HH by done. rewrite decide_True by done. lia.
  - intros a Ha Hau. rewrite HH by done. now rewrite decide_False.
  - done.
Qed.

Lemma push_delta_bounds e u v :
  X e u > 0 -> residual e u v > 0 ->
  0 < push_delta e u v /\ push_delta e u v <= X e u
  /\ push_delta e u v <= residual e u v.
Proof. unfold push_delta, residual. lia. Qed.

Lemma inv_pushed s t e u v :
  Inv s t e -> vertex e u -> vertex e v -> u <> s -> X e u > 0 ->
  admissible e u v -> Inv s t (pushed e u v).
Proof.
  intros HI Hu Hv Hus Hx [Hr Hh].
  assert (Huv : u <> v) by (intros ->; lia).
  pose proof (inv_wf _ _ _ HI) as Hwf.
  destruct (push_delta_bounds e u v Hx Hr) as (Hd0 & Hdx & Hdr).
  set (d := push_delta e u v) in *.
  assert (HF : forall a b, vertex e a -> vertex e b ->
            F (pushed e u v) a b =
              if decide (a = u /\ b = v) then F e u v + d
              else if decide (a = v /\ b = u) then F e v u - d
              else F e a b).
  { intros a b Ha Hb. rewrite F_pushed by done. now rewrite decide_False. }
  assert (HX : forall a, vertex e a ->
            X (pushed e u v) a =
              if decide (a = u) then X e u - d
              else if decide (a = v) then X e v + d
              else X e a).
  { intros a Ha. rewrite X_pushed by done. now rewrite decide_False. }
  destruct HI. split; try done.
  - now apply wf_pushed.
  - intros a b Ha Hb Hab. rewrite !HF by done.
    pose proof (inv_skew0 a b Ha Hb Hab).
    pose proof (inv_skew0 u v Hu Hv (or_introl Hus)).
    repeat case_decide; destruct_and?; subst; try lia; tauto.
  - intros a b Ha Hb. rewrite HF by done. rewrite C_pushed.
    pose proof (inv_le0 a b Ha Hb). unfold residual in Hdr.
    repeat case_decide; destruct_and?; subst; lia.
  - rewrite HF by done. rewrite C_pushed.
    repeat case_decide; destruct_and?; subst; lia.
  - intros a Ha Has. rewrite HX by done. rewrite V_pushed.
    rewrite (sumf_ext _ _ (fun b =>
               F e b a
               + (if decide (b = u) then (if decide (a = v) then d else 0) else 0)
               - (if decide (b = v) then (if decide (a = u) then d else 0) else 0))).
    2:{ intros b Hb. apply elem_of_range in Hb. rewrite HF by done.
        pose proof (inv_skew0 u v Hu Hv (or_introl Hus)).
        repeat case_decide; destruct_and?; subst; try lia; tauto. }
    rewrite sumf_sub, sumf_add.
    rewrite !sumf_single by (try apply NoDup_range; now apply elem_of_range).
    rewrite <- inv_X0 by done.
    repeat case_decide; subst; lia.
  - intros a Ha Has. rewrite HX by done.
    pose proof (inv_Xpos0 a Ha Has).
    repeat case_decide; subst; lia.
  - intros a b Ha Hb. unfold residual. rewrite C_pushed, !H_pushed.
    rewrite HF by done. intros Hres.
    pose proof (inv_valid0 a b Ha Hb). unfold residual in *.
    repeat case_decide; destruct_and?; subst; lia.
Qed.

(** *** One sweep and the main loop *)

Lemma inv_visited s t e u :
  Inv s t e -> vertex e u -> Inv s t (visited s t e u).
Proof.
  intros HI Hu. unfold visited.
  destruct (is_active s t e u) eqn:Hact; [|done].
  apply bool_decide_eq_true in Hact as (Hus & Hut & Hx).
  destruct (first_admissible e u (range (V e))) as [v|] eqn:Hf.
  - apply first_admissible_Some in Hf as [Hv Hadm].
    apply elem_of_range in Hv. now apply inv_pushed.
  - apply inv_relabeled; try done.
    intros v Hv. apply (first_admissible_None _ _ _ _ Hf).
    now apply elem_of_range.
Qed.

Lemma inv_swept s t us a e :
  Inv s t e -> (forall u, u ∈ us -> vertex e u) ->
  Inv s t (swept s t us a e).2.
Proof.
  revert a e. induction us as [|u us IH]; intros a e HI Hus; [done|].
  cbn [swept]. apply IH.
  - apply inv_visited; [done|]. apply Hus. left.
  - intros w Hw. unfold vertex. rewrite V_visited. apply Hus. now right.
Qed.

(** A sweep that leaves the flag down met no active vertex and
    changed nothing. *)
Lemma swept_false s t us a e :
  (swept s t us a e).1 = false ->
  a = false /\ (swept s t us a e).2 = e
  /\ forall u, u ∈ us -> is_active s t e u = false.
Proof.
  revert a e. induction us as [|u us IH]; intros a e Hfl.
  - cbn in *. split; [done|]. split; [done|].
    intros u Hu. now apply elem_of_nil in Hu.
  - cbn [swept] in *. apply IH in Hfl as (Ha & He & Hus).
    apply orb_false_iff in Ha as [-> Hact].
    assert (Hv : visited s t e u = e) by (unfold visited; now rewrite Hact).
    rewrite Hv in *. split; [done|]. split; [done|].
    intros w Hw. apply elem_of_cons in Hw as [->|Hw]; auto.
Qed.

Definition settled (s t : Z) (e : engine) : Prop :=
  forall u, vertex e u -> u <> s -> u <> t -> X e u <= 0.

Lemma main_loop_step fuel s t e :
  wf e ->
  main_loop (S fuel) s t e =
    if (swept s t (range (V e)) false e).1
    then main_loop fuel s t (swept s t (range (V e)) false e).2
    else Ok tt (swept s t (range (V e)) false e).2.
Proof.
  intros Hwf. cbn [main_loop]. step.
  erewrite bind_ok
    by (apply sweep_ok; [done|intros u Hu; now apply elem_of_range]).
  now destruct (swept s t (range (V e)) false e).1.
Qed.

Lemma main_loop_inv fuel s t e e' :
  Inv s t e -> main_loop fuel s t e = Ok tt e' ->
  Inv s t e' /\ settled s t e'.
Proof.
  revert e. induction fuel as [|fuel IH]; intros e HI Hrun; [done|].
  rewrite main_loop_step in Hrun by apply HI.
  assert (HI' : Inv s t (swept s t (range (V e)) false e).2).
  { apply inv_swept; [done|]. intros u Hu. now apply elem_of_range. }
  destruct (swept s t (range (V e)) false e).1 eqn:Hfl.
  - now apply IH in Hrun.
  - injection Hrun as <-. split; [done|].
    apply swept_false in Hfl as (_ & He & Hact). rewrite He.
    intros u Hu Hus Hut.
    specialize (Hact u (proj2 (elem_of_range _ _) Hu)).
    apply bool_decide_eq_false in Hact. lia.
Qed.

(** *** Graph construction and [initialize_preflow] *)

(** An arc the spec allows: both ends are vertices and the capacity
    is not negative (self-loops included). *)
Definition valid_edge (n : Z) (edge : Z * Z * Z) : Prop :=
  let '(u, v, cap) := edge in 0 <= u < n /\ 0 <= v < n /\ 0 <= cap.

(** An engine on which only [add_edge] has been called, with valid
    arcs. *)
Record Fresh (e : engine) : Prop := {
  fresh_wf : wf e;
  fresh_excess : excess e = zeros 0 (V e);
  fresh_height : height e = zeros 0 (V e);
  fresh_flow : flow e = zeros2 0 (V e);
  fresh_cap : forall a b, vertex e a -> vertex e b -> 0 <= C e a b;
  fresh_graph : forall a b, vertex e a -> vertex e b ->
                            C e a b <> 0 -> b ∈ adj (graph e) a;
  fresh_adj : forall a b, vertex e a -> b ∈ adj (graph e) a -> vertex e b
}.

Lemma adj_adj_append g u v a :
  adj (adj_append g u v) a = if decide (a = u) then adj g u ++ [v] else adj g a.
Proof.
  unfold adj, adj_append. case_decide; subst.
  - now rewrite lookup_insert_eq.
  - now rewrite lookup_insert_ne.
Qed.

Lemma fresh_init n : Fresh (init n).
Proof.
  split; try done.
  - apply wf_init.
  - intros a b _ _. unfold C. simpl. now rewrite at2_zeros2.
  - intros a b _ _ Hc. exfalso. apply Hc. unfold C. simpl. apply at2_zeros2.
  - intros a b _ Hb. unfold adj in Hb. simpl in Hb.
    rewrite lookup_empty in Hb. now apply elem_of_nil in Hb.
Qed.

Definition edge_added (e : engine) (u v cap : Z) : engine :=
  let e1 := set_graph (adj_append (graph e) u v) e in
  set_capacity (upd2 (capacity e1) u v cap) e1.

Lemma add_edge_ok e u v cap :
  wf e -> vertex e u -> vertex e v ->
  add_edge u v cap e = Ok tt (edge_added e u v cap).
Proof.
  intros Hwf Hu Hv. unfold add_edge, graph_append. step.
  now apply wr_capacity_ok; auto.
Qed.

Lemma fresh_edge_added e u v cap :
  Fresh e -> valid_edge (V e) (u, v, cap) -> Fresh (edge_added e u v cap).
Proof.
  intros [Hwf Hx Hh Hf Hc Hg Ha] (Hu & Hv & Hcap).
  assert (HC : forall a b, vertex e a -> vertex e b ->
            C (edge_added e u v cap) a b
            = if decide (a = u /\ b = v) then cap else C e a b).
  { intros a b Ha' Hb'. unfold edge_added. cbv zeta.
    rewrite C_upd by (auto using wf_set_graph). done. }
  split; try done.
  - unfold edge_added. cbv zeta. auto using wf_set_graph.
  - intros a b Ha' Hb'. rewrite HC by done. case_decide; auto.
  - intros a b Ha' Hb'. rewrite HC by done.
    change (graph (edge_added e u v cap)) with (adj_append (graph e) u v).
    rewrite adj_adj_append. intros Hne.
    repeat case_decide; destruct_and?; subst.
    + apply elem_of_app. right. left.
    + tauto.
    + apply elem_of_app. left. now apply Hg.
    + now apply Hg.
  - intros a b Ha'.
    change (graph (edge_added e u v cap)) with (adj_append (graph e) u v).
    rewrite adj_adj_append. case_decide; subst; [|now apply Ha].
    intros Hb. apply elem_of_app in Hb as [Hb|Hb]; [now apply (Ha u)|].
    apply list_elem_of_singleton in Hb. now subst.
Qed.

Lemma add_edges_fresh edges e :
  Fresh e -> Forall (valid_edge (V e)) edges ->
  exists e', add_edges edges e = Ok tt e' /\ Fresh e' /\ V e' = V e.
Proof.
  revert e. induction edges as [|[[u v] cap] edges IH]; intros e Hfr Hval.
  - exists e. done.
  - apply Forall_cons in Hval as [Hed Hval].
    destruct (IH (edge_added e u v cap)) as (e' & Hrun & Hfr' & HV).
    { now apply fresh_edge_added. }
    { done. }
    exists e'. split; [|done].
    unfold add_edges. cbn [for_each].
    erewrite bind_ok by (apply add_edge_ok; [apply Hfr|apply Hed..]).
    apply Hrun.
Qed.

(** The state left by one iteration of the loop of
    [initialize_preflow], and by the whole method. *)
Definition saturated (s : Z) (e : engine) (v : Z) : engine :=
  let c := C e s v in
  let e1 := set_flow (upd2 (flow e) s v c) e in
  let e2 := set_flow (upd2 (flow e1) v s (- c)) e1 in
  let e3 := set_excess (upd1 (excess e2) v c) e2 in
  set_excess (upd1 (excess e3) s (X e3 s - c)) e3.

Definition preflow (s : Z) (e : engine) : engine :=
  foldl (saturated s) (set_height (upd1 (height e) s (V e)) e)
        (adj (graph e) s).

Lemma wf_saturated s e v : wf e -> wf (saturated s e v).
Proof. intros Hwf. unfold saturated. cbv zeta. auto 10. Qed.

Lemma saturate_loop_ok s e vs :
  wf e -> vertex e s -> (forall v, v ∈ vs -> vertex e v) ->
  for_each vs (fun v =>
    c ← rd_capacity s v;
    wr_flow s v c;;
    c ← rd_capacity s v;
    wr_flow v s (- c);;
    c ← rd_capacity s v;
    wr_excess v c;;
    x ← rd_excess s;
    c ← rd_capacity s v;
    wr_excess s (x - c)) e
  = Ok tt (foldl (saturated s) e vs).
Proof.
  revert e. induction vs as [|v vs IH]; intros e Hwf Hs Hvs; [done|].
  assert (Hv : vertex e v) by (apply Hvs; left).
  unfold vertex in *.
  cbn [for_each foldl].
  erewrite bind_ok with (a := tt) (s' := saturated s e v).
  - apply IH; [now apply wf_saturated|done|].
    intros w Hw. apply Hvs. now right.
  - repeat step. rewrite wr_excess_ok by side. reflexivity.
Qed.

Lemma initialize_preflow_ok s e :
  wf e -> vertex e s -> (forall v, v ∈ adj (graph e) s -> vertex e v) ->
  initialize_preflow s e = Ok tt (preflow s e).
Proof.
  intros Hwf Hs Hadj. unfold initialize_preflow, preflow. unfold vertex in *.
  do 2 step. apply saturate_loop_ok; auto.
Qed.

(** State of the flow and excess arrays after the entries [l] of
    [graph[s]] have been processed, starting from [e0]. *)
Record Saturated (s : Z) (e0 e : engine) (l : list Z) : Prop := {
  sat_wf : wf e;
  sat_V : V e = V e0;
  sat_capacity : capacity e = capacity e0;
  sat_height : height e = upd1 (height e0) s (V e0);
  sat_graph : graph e = graph e0;
  sat_F : forall a b, vertex e0 a -> vertex e0 b ->
    F e a b =
      if decide (a = s /\ b = s)
      then (if decide (s ∈ l) then - C e0 s s else F e0 s s)
      else if decide (a = s /\ b ∈ l) then C e0 s b
      else if decide (b = s /\ a ∈ l) then - C e0 s a
      else F e0 a b;
  sat_X : forall a, vertex e0 a -> a <> s ->
    X e a = if decide (a ∈ l) then C e0 s a else X e0 a;
  sat_Xs : s ∉ l -> X e s = X e0 s - sumf l (C e0 s)
}.

Lemma saturated_step s e0 e l v :
  vertex e0 s -> vertex e0 v ->
  Saturated s e0 e l -> Saturated s e0 (saturated s e v) (l ++ [v]).
Proof.
  intros Hs Hv [Hwf HV Hc Hh Hg HF HX HXs].
  assert (Hs' : 0 <= s < V e) by (rewrite HV; apply Hs).
  assert (Hv' : 0 <= v < V e) by (rewrite HV; apply Hv).
  assert (HC : C e s v = C e0 s v) by (unfold C; now rewrite Hc).
  set (e1 := set_flow (upd2 (flow e) s v (C e s v)) e).
  set (e2 := set_flow (upd2 (flow e1) v s (- C e s v)) e1).
  assert (Hwf1 : wf e1) by (subst e1; auto).
  assert (Hwf2 : wf e2) by (subst e2; auto).
  set (e3 := set_excess (upd1 (excess e2) v (C e s v)) e2).
  assert (Hwf3 : wf e3) by (subst e3; auto).
  assert (HX' : forall a, 0 <= a < V e ->
            X (saturated s e v) a
            = if decide (a = s) then X e3 s - C e s v
              else if decide (a = v) then C e s v else X e a).
  { intros a Ha.
    change (X (saturated s e v) a)
      with (X (set_excess (upd1 (excess e3) s (X e3 s - C e s v)) e3) a).
    rewrite X_upd by side. destruct (decide (a = s)); [done|].
    subst e3. rewrite X_upd by side. done. }
  split; try done.
  - now apply wf_saturated.
  - intros a b Ha Hb.
    assert (Ha' : 0 <= a < V e) by (rewrite HV; apply Ha).
    assert (Hb' : 0 <= b < V e) by (rewrite HV; apply Hb).
    change (F (saturated s e v) a b)
      with (F (set_flow (upd2 (flow e1) v s (- C e s v)) e1) a b).
    rewrite F_upd by side. subst e1. rewrite F_upd by side.
    rewrite HF by done. rewrite HC.
    repeat case_decide; rewrite ?elem_of_app, ?list_elem_of_singleton in *;
      destruct_and?; destruct_or?; subst; try done; try tauto.
  - intros a Ha Has.
    assert (Ha' : 0 <= a < V e) by (rewrite HV; apply Ha).
    rewrite HX' by done. rewrite decide_False by done.
    rewrite HX by done. rewrite HC.
    repeat case_decide; rewrite ?elem_of_app, ?list_elem_of_singleton in *;
      destruct_and?; destruct_or?; subst; try done; try tauto.
  - intros Hnin. rewrite not_elem_of_app, list_elem_of_singleton in Hnin.
    destruct Hnin as [Hnl Hsv].
    rewrite HX' by done. rewrite decide_True by done.
    subst e3. rewrite X_upd by side. rewrite decide_False by done.
    change (X e2 s) with (X e s). rewrite HXs by done. rewrite HC.
    rewrite sumf_app, sumf_cons, sumf_nil. lia.
Qed.

Lemma saturated_foldl s e0 e l vs :
  vertex e0 s -> (forall v, v ∈ vs -> vertex e0 v) ->
  Saturated s e0 e l -> Saturated s e0 (foldl (saturated s) e vs) (l ++ vs).
Proof.
  intros Hs. revert e l. induction vs as [|v vs IH]; intros e l Hvs Hsat.
  - now rewrite app_nil_r.
  - cbn [foldl]. replace (l ++ v :: vs) with ((l ++ [v]) ++ vs)
      by now rewrite <- app_assoc.
    apply IH; [intros w Hw; apply Hvs; now right|].
    apply saturated_step; [done| |done]. apply Hvs. left.
Qed.

Lemma saturated_preflow s e :
  wf e -> vertex e s -> (forall v, v ∈ adj (graph e) s -> vertex e v) ->
  Saturated s e (preflow s e) (adj (graph e) s).
Proof.
  intros Hwf Hs Hadj. unfold preflow.
  apply (saturated_foldl s e _ []); [done|done|].
  split; try done.
  - auto.
  - intros a b _ _.
    change (F (set_height (upd1 (height e) s (V e)) e) a b) with (F e a b).
    repeat case_decide; destruct_and?; subst; try done.
    all: exfalso; eapply elem_of_nil; eauto.
  - intros _. rewrite sumf_nil.
    change (X (set_height (upd1 (height e) s (V e)) e) s) with (X e s). lia.
Qed.

Lemma fresh_zero e :
  Fresh e -> (forall a, X e a = 0) /\ (forall a b, F e a b = 0).
Proof.
  intros Hfr. split.
  - intros a. unfold X. now rewrite (fresh_excess _ Hfr), at1_zeros.
  - intros a b. unfold F. now rewrite (fresh_flow _ Hfr), at2_zeros2.
Qed.

(** [initialize_preflow] establishes the invariant on a fresh graph. *)
Lemma inv_preflow s t e :
  Fresh e -> vertex e s -> vertex e t -> s <> t -> Inv s t (preflow s e).
Proof.
  intros Hfr Hs Ht Hst.
  assert (Hadj : forall v, v ∈ adj (graph e) s -> vertex e v)
    by (intros v Hv; apply (fresh_adj _ Hfr s v Hs Hv)).
  pose proof (saturated_preflow s e (fresh_wf _ Hfr) Hs Hadj)
    as [Hwf HV Hc Hh Hg HF1 HX1 _].
  destruct (fresh_zero e Hfr) as [HX0 HF0].
  set (e' := preflow s e) in *. set (l := adj (graph e) s) in *.
  assert (HF : forall a b, vertex e a -> vertex e b ->
    F e' a b =
      if decide (a = s /\ b = s) then (if decide (s ∈ l) then - C e s s else 0)
      else if decide (a = s /\ b ∈ l) then C e s b
      else if decide (b = s /\ a ∈ l) then - C e s a
      else 0).
  { intros a b Ha Hb. rewrite HF1 by done. now rewrite !HF0. }
  assert (HX : forall a, vertex e a -> a <> s ->
    X e' a = if decide (a ∈ l) then C e s a else 0).
  { intros a Ha Has. rewrite HX1 by done. now rewrite HX0. }
  clear HF1 HX1.
  assert (Hvx : forall a, vertex e' a <-> vertex e a)
    by (intros a; unfold vertex; now rewrite HV).
  assert (HC : forall a b, C e' a b = C e a b)
    by (intros a b; unfold C; now rewrite Hc).
  assert (HH : forall a, vertex e a ->
                         H e' a = if decide (a = s) then V e else 0).
  { intros a Ha. unfold H. rewrite Hh.
    rewrite at1_upd1
      by (rewrite (wf_height _ (fresh_wf _ Hfr)); unfold vertex in *; lia).
    now rewrite (fresh_height _ Hfr), at1_zeros. }
  pose proof (fresh_cap _ Hfr) as Hcap.
  pose proof (fresh_graph _ Hfr) as Hgr.
  assert (HV0 : 0 < V e) by (unfold vertex in Hs; lia).
  split; try done.
  - now apply Hvx.
  - now apply Hvx.
  - intros a b Ha Hb. rewrite HC. apply Hcap; now apply Hvx.
  - intros a b Ha%Hvx Hb%Hvx Hab. rewrite !HF by done.
    repeat case_decide; destruct_and?; subst; try done; try lia; tauto.
  - intros a b Ha%Hvx Hb%Hvx. rewrite HF, HC by done.
    pose proof (Hcap a b Ha Hb). pose proof (Hcap b a Hb Ha).
    pose proof (Hcap s s Hs Hs).
    repeat case_decide; destruct_and?; subst; lia.
  - rewrite HF, HC by done. pose proof (Hcap s s Hs Hs).
    repeat case_decide; destruct_and?; subst; try lia; tauto.
  - intros a Ha%Hvx Has. rewrite HX by done. rewrite HV.
    rewrite (sumf_ext _ _ (fun b =>
               if decide (b = s) then (if decide (a ∈ l) then C e s a else 0)
               else 0)).
    2:{ intros b Hb%elem_of_range. rewrite HF by done.
        repeat case_decide; destruct_and?; subst; try done; tauto. }
    rewrite sumf_single by (try apply NoDup_range; now apply elem_of_range).
    done.
  - intros a Ha%Hvx Has. rewrite HX by done.
    pose proof (Hcap s a Hs Ha). destruct (decide (a ∈ l)); lia.
  - rewrite HH by done. rewrite decide_True by done. done.
  - rewrite HH by done. rewrite decide_False by done. done.
  - intros a Ha%Hvx. rewrite HH by done. destruct (decide (a = s)); lia.
  - intros a b Ha%Hvx Hb%Hvx. unfold residual. rewrite HC, HF by done.
    rewrite !HH by done. intros Hres.
    destruct (decide (a = s)) as [->|Has]; [|destruct (decide (b = s)); lia].
    destruct (decide (b = s)) as [->|Hbs]; [lia|].
    exfalso.
    rewrite decide_False in Hres by tauto.
    destruct (decide (s = s /\ b ∈ l)) as [_|Hn]; [lia|].
    rewrite decide_False in Hres by tauto.
    apply Hn. split; [done|]. apply Hgr; [done..|lia].
Qed.

(** *** [max_flow] as a whole *)

Lemma capacity_visited s t e u : capacity (visited s t e u) = capacity e.
Proof.
  unfold visited. destruct (is_active s t e u); [|done].
  destruct (first_admissible _ _ _); [done|].
  unfold relabeled. now destruct (min_height _ _ _ _).
Qed.

Lemma V_swept s t us a e : V (swept s t us a e).2 = V e.
Proof.
  revert a e. induction us as [|u us IH]; intros a e; [done|].
  cbn [swept]. now rewrite IH, V_visited.
Qed.

Lemma capacity_swept s t us a e :
  capacity (swept s t us a e).2 = capacity e.
Proof.
  revert a e. induction us as [|u us IH]; intros a e; [done|].
  cbn [swept]. now rewrite IH, capacity_visited.
Qed.

Lemma wf_swept s t us a e : wf e -> wf (swept s t us a e).2.
Proof.
  revert a e. induction us as [|u us IH]; intros a e Hwf; [done|].
  cbn [swept]. apply IH. now apply wf_visited.
Qed.

Lemma main_loop_frame fuel s t e e' :
  wf e -> main_loop fuel s t e = Ok tt e' ->
  V e' = V e /\ capacity e' = capacity e.
Proof.
  revert e. induction fuel as [|fuel IH]; intros e Hwf Hrun; [done|].
  rewrite main_loop_step in Hrun by done.
  destruct (swept s t (range (V e)) false e).1.
  - apply IH in Hrun as [-> ->]; [|now apply wf_swept].
    now rewrite V_swept, capacity_swept.
  - injection Hrun as <-. now rewrite V_swept, capacity_swept.
Qed.

(** More budget does not change a run that already returned. *)
Lemma main_loop_mono fuel fuel' s t e e' :
  main_loop fuel s t e = Ok tt e' -> (fuel <= fuel')%nat ->
  main_loop fuel' s t e = Ok tt e'.
Proof.
  revert fuel' e. induction fuel as [|fuel IH]; intros fuel' e Hrun Hle; [done|].
  destruct fuel' as [|fuel']; [lia|].
  cbn [main_loop] in *. unfold mbind, M_bind, get in *.
  destruct (sweep s t (range (V e)) false e) as [a e1| |]; try done.
  destruct a; [|done]. apply IH; [done|lia].
Qed.

Lemma max_flow_inv fuel s t e r e' :
  Fresh e -> vertex e s -> vertex e t -> s <> t ->
  max_flow fuel s t e = Ok r e' ->
  Inv s t e' /\ settled s t e' /\ r = X e' t
  /\ V e' = V e /\ capacity e' = capacity e.
Proof.
  intros Hfr Hs Ht Hst Hrun. unfold max_flow in Hrun.
  pose proof (fresh_wf _ Hfr) as Hwf.
  erewrite bind_ok in Hrun
    by (apply initialize_preflow_ok;
        [done..|intros v Hv; apply (fresh_adj _ Hfr s v Hs Hv)]).
  apply bind_inv in Hrun as ([] & e1 & Hloop & Hrd).
  pose proof (inv_preflow s t e Hfr Hs Ht Hst) as HI.
  assert (Hadj : forall v, v ∈ adj (graph e) s -> vertex e v)
    by (intros v Hv; apply (fresh_adj _ Hfr s v Hs Hv)).
  pose proof (sat_V _ _ _ _ (saturated_preflow s e Hwf Hs Hadj)) as HV.
  pose proof (sat_capacity _ _ _ _ (saturated_preflow s e Hwf Hs Hadj)) as HC.
  destruct (main_loop_inv _ _ _ _ _ HI Hloop) as [HI1 Hset].
  apply main_loop_frame in Hloop as [HV1 HC1]; [|apply HI].
  rewrite rd_excess_ok in Hrd by (try apply HI1; apply (inv_t _ _ _ HI1)).
  injection Hrd as <- <-.
  split; [done|]. split; [done|]. split; [done|]. split; congruence.
Qed.

(** *** Termination measure

    Ordered lexicographically: the room left for relabels, the number
    of admissible arcs, and the total height of the active vertices.
    A relabel lowers the first, a saturating push the second and a
    non-saturating push the third, each leaving the earlier ones
    alone. *)

Definition Bounded (e : engine) : Prop :=
  forall a, vertex e a -> H e a <= 2 * V e - 1.

Definition room (e : engine) : Z :=
  sumf (range (V e)) (fun a => 2 * V e - 1 - H e a).

Definition arcs (e : engine) : Z :=
  sumf (range (V e)) (fun a =>
    sumf (range (V e)) (fun b => if decide (admissible e a b) then 1 else 0)).

Definition load (s t : Z) (e : engine) : Z :=
  sumf (range (V e)) (fun a => if is_active s t e a then H e a else 0).

Definition mlt (s t : Z) (e' e : engine) : Prop :=
  room e' < room e
  \/ (room e' = room e /\ arcs e' < arcs e)
  \/ (room e' = room e /\ arcs e' = arcs e /\ load s t e' < load s t e).

Definition mle (s t : Z) (e' e : engine) : Prop :=
  mlt s t e' e
  \/ (room e' = room e /\ arcs e' = arcs e /\ load s t e' = load s t e).

Lemma room_nonneg e : Bounded e -> 0 <= room e.
Proof.
  intros Hb. apply sumf_nonneg. intros a Ha%elem_of_range.
  specialize (Hb a Ha). lia.
Qed.

Lemma arcs_nonneg e : 0 <= arcs e.
Proof.
  apply sumf_nonneg. intros a _. apply sumf_nonneg. intros b _.
  case_decide; lia.
Qed.

Lemma load_nonneg s t e : Inv s t e -> 0 <= load s t e.
Proof.
  intros HI. apply sumf_nonneg. intros a Ha%elem_of_range.
  pose proof (inv_Hpos _ _ _ HI a Ha). destruct (is_active s t e a); lia.
Qed.

Lemma relabeled_lt s t e u :
  Inv s t e -> Bounded e -> vertex e u -> u <> s -> u <> t -> X e u > 0 ->
  (forall v, vertex e v -> ~ admissible e u v) ->
  Bounded (relabeled e u) /\ mlt s t (relabeled e u) e.
Proof.
  intros HI Hb Hu Hus Hut Hx Hna.
  destruct (inv_relabeled s t e u) as (HI' & Hup & Hsame & HX' & _); [done..|].
  pose proof (V_relabeled e u) as HV.
  split.
  - intros a Ha. unfold vertex in Ha. rewrite HV in *.
    destruct (decide (a = u)) as [->|Hau].
    + rewrite <- HV. apply (active_height_bound s t); [done| |done|].
      * unfold vertex. now rewrite HV.
      * now rewrite HX'.
    + rewrite Hsame by done. now apply Hb.
  - left. unfold room. rewrite HV.
    apply (sumf_lt _ _ _ u); [apply NoDup_range|now apply elem_of_range| |lia].
    intros a Ha%elem_of_range.
    destruct (decide (a = u)) as [->|Hau]; [lia|].
    rewrite Hsame by done. lia.
Qed.

Lemma pushed_lt s t e u v :
  Inv s t e -> vertex e u -> vertex e v -> u <> s -> u <> t -> X e u > 0 ->
  admissible e u v -> mlt s t (pushed e u v) e.
Proof.
  intros HI Hu Hv Hus Hut Hx [Hr Hh].
  assert (Huv : u <> v) by (intros ->; lia).
  pose proof (inv_wf _ _ _ HI) as Hwf.
  destruct (push_delta_bounds e u v Hx Hr) as (Hd0 & Hdx & Hdr).
  set (d := push_delta e u v) in *.
  assert (Hres : forall a b, vertex e a -> vertex e b ->
            residual (pushed e u v) a b =
              if decide (a = u /\ b = v) then residual e u v - d
              else if decide (a = v /\ b = u) then residual e v u + d
              else residual e a b).
  { intros a b Ha Hb. unfold residual. rewrite C_pushed, F_pushed by done.
    rewrite decide_False by done. fold d.
    repeat case_decide; destruct_and?; subst; lia. }
  assert (HX : forall a, vertex e a ->
            X (pushed e u v) a =
              if decide (a = u) then X e u - d
              else if decide (a = v) then X e v + d
              else X e a).
  { intros a Ha. rewrite X_pushed by done. now rewrite decide_False. }
  assert (Hroom : room (pushed e u v) = room e) by done.
  assert (Hadm : forall a b, vertex e a -> vertex e b ->
            admissible (pushed e u v) a b -> admissible e a b).
  { intros a b Ha Hb [Hr' Hh']. rewrite Hres in Hr' by done.
    rewrite !H_pushed in Hh'. split; [|done].
    repeat case_decide; destruct_and?; subst; lia. }
  assert (Harcs : arcs (pushed e u v) <= arcs e).
  { apply sumf_le. intros a Ha%elem_of_range.
    apply sumf_le. intros b Hb%elem_of_range.
    destruct (decide (admissible (pushed e u v) a b)) as [Hp|Hp].
    - rewrite decide_True by auto. lia.
    - case_decide; lia. }
  destruct (decide (d = residual e u v)) as [Hsat|Hnsat].
  - (* saturating *)
    right. left. split; [done|].
    unfold arcs. rewrite V_pushed.
    apply (sumf_lt _ _ _ u); [apply NoDup_range|now apply elem_of_range| |].
    + intros a Ha%elem_of_range.
      apply sumf_le. intros b Hb%elem_of_range.
      destruct (decide (admissible (pushed e u v) a b)) as [Hp|Hp].
      * rewrite decide_True by auto. lia.
      * case_decide; lia.
    + apply (sumf_lt _ _ _ v); [apply NoDup_range|now apply elem_of_range| |].
      * intros b Hb%elem_of_range.
        destruct (decide (admissible (pushed e u v) u b)) as [Hp|Hp].
        -- rewrite decide_True by auto. lia.
        -- case_decide; lia.
      * rewrite (decide_True (P := admissible e u v)) by (split; done).
        rewrite decide_False; [lia|].
        intros [Hr' _]. rewrite Hres in Hr' by done.
        rewrite decide_True in Hr' by done. lia.
  - (* non-saturating: [u] is emptied *)
    assert (Hd : d = X e u) by (unfold d, push_delta, residual in *; lia).
    destruct (Z_le_lt_eq_dec _ _ Harcs) as [Hlt|Heq]; [right; left; done|].
    right. right. split; [done|]. split; [done|].
    unfold load. rewrite V_pushed.
    pose proof (inv_Hpos _ _ _ HI v Hv) as Hhv.
    assert (Hle : sumf (range (V e))
              (fun a => if is_active s t (pushed e u v) a
                        then H (pushed e u v) a else 0)
            <= sumf (range (V e))
              (fun a => (if is_active s t e a then H e a else 0)
                        + (if decide (a = v) then H e u - 1 else 0)
                        - (if decide (a = u) then H e u else 0))).
    { apply sumf_le. intros a Ha%elem_of_range.
      rewrite H_pushed. unfold is_active. rewrite HX by done.
      pose proof (inv_Hpos _ _ _ HI a Ha) as Hha.
      destruct (decide (a = u)) as [->|Hau].
      - rewrite decide_False by done.
        rewrite bool_decide_eq_false_2 by lia.
        rewrite bool_decide_eq_true_2 by tauto. lia.
      - destruct (decide (a = v)) as [->|Hav].
        + repeat case_bool_decide; lia.
        + repeat case_bool_decide; try lia; tauto. }
    rewrite sumf_sub, sumf_add in Hle.
    rewrite !sumf_single in Hle
      by (try apply NoDup_range; now apply elem_of_range).
    lia.
Qed.

Lemma visited_mle s t e u :
  Inv s t e -> Bounded e -> vertex e u ->
  Bounded (visited s t e u)
  /\ mle s t (visited s t e u) e
  /\ (is_active s t e u = true -> mlt s t (visited s t e u) e).
Proof.
  intros HI Hb Hu. unfold visited.
  destruct (is_active s t e u) eqn:Hact.
  - apply bool_decide_eq_true in Hact as (Hus & Hut & Hx).
    destruct (first_admissible e u (range (V e))) as [v|] eqn:Hf.
    + apply first_admissible_Some in Hf as [Hv%elem_of_range Hadm].
      pose proof (pushed_lt s t e u v HI Hu Hv Hus Hut Hx Hadm) as Hlt.
      split; [exact Hb|]. split; [now left|done].
    + destruct (relabeled_lt s t e u) as [Hb' Hlt]; try done.
      { intros v Hv. apply (first_admissible_None _ _ _ _ Hf).
        now apply elem_of_range. }
      split; [done|]. split; [now left|done].
  - split; [done|]. split; [right; done|discriminate].
Qed.

Lemma swept_mle s t us a e :
  Inv s t e -> Bounded e -> (forall u, u ∈ us -> vertex e u) ->
  Bounded (swept s t us a e).2
  /\ mle s t (swept s t us a e).2 e
  /\ ((swept s t us a e).1 = true -> a = true \/ mlt s t (swept s t us a e).2 e).
Proof.
  revert a e. induction us as [|u us IH]; intros a e HI Hb Hus.
  - cbn. split; [done|]. split; [right; done|]. intros ->. now left.
  - cbn [swept].
    assert (Hu : vertex e u) by (apply Hus; left).
    destruct (visited_mle s t e u HI Hb Hu) as (Hb1 & Hle1 & Hlt1).
    destruct (IH (a || is_active s t e u) (visited s t e u)) as (Hb2 & Hle2 & Hlt2).
    { now apply inv_visited. }
    { done. }
    { intros w Hw. unfold vertex. rewrite V_visited. apply Hus. now right. }
    split; [done|]. split.
    + unfold mle, mlt in *. lia.
    + intros Hfl. specialize (Hlt2 Hfl).
      destruct Hlt2 as [Hor|Hlt2].
      * apply orb_true_iff in Hor as [->|Hact]; [now left|].
        right. specialize (Hlt1 Hact). unfold mle, mlt in *. lia.
      * right. unfold mle, mlt in *. lia.
Qed.

(** Well-founded induction along [mlt] on states whose three
    measures are not negative. *)
Lemma mlt_ind s t (good P : engine -> Prop) :
  (forall e, good e -> 0 <= room e /\ 0 <= arcs e /\ 0 <= load s t e) ->
  (forall e, good e -> (forall e', good e' -> mlt s t e' e -> P e') -> P e) ->
  forall e, good e -> P e.
Proof.
  intros Hpos Hstep.
  assert (Hall : forall r a l : nat, forall e, good e ->
            Z.to_nat (room e) = r -> Z.to_nat (arcs e) = a ->
            Z.to_nat (load s t e) = l -> P e).
  { induction r as [r IHr] using lt_wf_ind.
    induction a as [a IHa] using lt_wf_ind.
    induction l as [l IHl] using lt_wf_ind.
    intros e Hg Hr Ha Hl. apply Hstep; [done|].
    intros e' Hg' Hlt.
    destruct (Hpos e Hg) as (? & ? & ?).
    destruct (Hpos e' Hg') as (? & ? & ?).
    destruct Hlt as [Hlt|[[Heq Hlt]|(Heq1 & Heq2 & Hlt)]].
    - apply (IHr (Z.to_nat (room e'))) with (a := Z.to_nat (arcs e'))
                                            (l := Z.to_nat (load s t e')); [lia|done..].
    - apply (IHa (Z.to_nat (arcs e'))) with (l := Z.to_nat (load s t e'));
        [lia|done|lia|done..].
    - apply (IHl (Z.to_nat (load s t e'))); [lia|done|lia|lia|done]. }
  intros e Hg. exact (Hall _ _ _ e Hg eq_refl eq_refl eq_refl).
Qed.

Lemma main_loop_terminates s t e :
  Inv s t e -> Bounded e -> exists fuel e', main_loop fuel s t e = Ok tt e'.
Proof.
  intros HI Hb.
  apply (mlt_ind s t (fun e => Inv s t e /\ Bounded e)
           (fun e => exists fuel e', main_loop fuel s t e = Ok tt e'));
    [| |done].
  - intros e0 [HI0 Hb0].
    auto using room_nonneg, arcs_nonneg, load_nonneg.
  - intros e0 [HI0 Hb0] IH.
    assert (Hr : forall u, u ∈ range (V e0) -> vertex e0 u)
      by (intros u Hu; now apply elem_of_range).
    destruct (swept_mle s t (range (V e0)) false e0 HI0 Hb0 Hr) as (Hb1 & _ & Hlt).
    pose proof (inv_swept s t (range (V e0)) false e0 HI0 Hr) as HI1.
    destruct (swept s t (range (V e0)) false e0).1 eqn:Hfl.
    + destruct (IH (swept s t (range (V e0)) false e0).2) as (fuel & e' & Hrun).
      { done. }
      { destruct (Hlt eq_refl) as [|]; [discriminate|done]. }
      exists (S fuel), e'. rewrite main_loop_step by apply HI0.
      now rewrite Hfl.
    + exists 1%nat, (swept s t (range (V e0)) false e0).2.
      rewrite main_loop_step by apply HI0. now rewrite Hfl.
Qed.

Lemma bounded_preflow s t e :
  Fresh e -> vertex e s -> vertex e t -> s <> t -> Bounded (preflow s e).
Proof.
  intros Hfr Hs Ht Hst.
  assert (Hadj : forall v, v ∈ adj (graph e) s -> vertex e v)
    by (intros v Hv; apply (fresh_adj _ Hfr s v Hs Hv)).
  pose proof (saturated_preflow s e (fresh_wf _ Hfr) Hs Hadj)
    as [Hwf HV Hc Hh Hg HF HX _].
  intros a Ha. unfold vertex in *. rewrite HV in *.
  unfold H. rewrite Hh.
  rewrite at1_upd1 by (rewrite (wf_height _ (fresh_wf _ Hfr)); lia).
  rewrite (fresh_height _ Hfr), at1_zeros.
  destruct (decide (a = s)); lia.
Qed.

Lemma max_flow_terminates s t e :
  Fresh e -> vertex e s -> vertex e t -> s <> t ->
  exists fuel r e', max_flow fuel s t e = Ok r e'.
Proof.
  intros Hfr Hs Ht Hst.
  pose proof (inv_preflow s t e Hfr Hs Ht Hst) as HI.
  pose proof (bounded_preflow s t e Hfr Hs Ht Hst) as Hb.
  destruct (main_loop_terminates s t _ HI Hb) as (fuel & e' & Hrun).
  destruct (main_loop_inv _ _ _ _ _ HI Hrun) as [HI' _].
  exists fuel, (X e' t), e'. unfold max_flow.
  erewrite bind_ok
    by (apply initialize_preflow_ok;
        [apply Hfr|done|intros v Hv; apply (fresh_adj _ Hfr s v Hs Hv)]).
  erewrite bind_ok by exact Hrun.
  apply rd_excess_ok; [apply HI'|apply (inv_t _ _ _ HI')].
Qed.

(** *** The driver *)

Lemma max_flow_mono fuel fuel' s t e r e' :
  max_flow fuel s t e = Ok r e' -> (fuel <= fuel')%nat ->
  max_flow fuel' s t e = Ok r e'.
Proof.
  unfold max_flow. intros Hrun Hle.
  apply bind_inv in Hrun as ([] & e1 & Hpre & Hrun).
  apply bind_inv in Hrun as ([] & e2 & Hloop & Hrd).
  erewrite bind_ok by exact Hpre.
  erewrite bind_ok by (eapply main_loop_mono; eauto).
  exact Hrd.
Qed.

Lemma solve_mono n edges s t fuel fuel' r e' :
  solve n edges s t fuel = Ok r e' -> (fuel <= fuel')%nat ->
  solve n edges s t fuel' = Ok r e'.
Proof.
  unfold solve. intros Hrun Hle.
  apply bind_inv in Hrun as ([] & e1 & Hadd & Hrun).
  erewrite bind_ok by exact Hadd. eapply max_flow_mono; eauto.
Qed.

Lemma solve_inv n edges s t fuel r e' :
  Forall (valid_edge n) edges -> 0 <= s < n -> 0 <= t < n -> s <> t ->
  solve n edges s t fuel = Ok r e' ->
  exists e0, add_edges edges (init n) = Ok tt e0
             /\ Fresh e0 /\ V e0 = n
             /\ Inv s t e' /\ settled s t e' /\ r = X e' t
             /\ V e' = n /\ capacity e' = capacity e0.
Proof.
  intros Hval Hs Ht Hst Hrun.
  destruct (add_edges_fresh edges (init n) (fresh_init n) Hval)
    as (e0 & Hadd & Hfr & HV).
  simpl in HV. exists e0. split; [done|]. split; [done|]. split; [done|].
  unfold solve in Hrun. erewrite bind_ok in Hrun by exact Hadd.
  apply max_flow_inv in Hrun as (HI & Hset & Hr & HV' & HC);
    [|done|unfold vertex; lia..|done].
  repeat (split; [done|]). split; [congruence|done].
Qed.

(** The state in which the example run ends. *)
Definition example_final : engine :=
  match solve 6 example_edges 0 5 100 with
  | Ok _ e => e
  | _ => init 6
  end.

Lemma example_valid : Forall (valid_edge 6) example_edges.
Proof.
  unfold example_edges.
  repeat (apply List.Forall_cons; [unfold valid_edge; lia|]).
  apply List.Forall_nil.
Defined.

Lemma example_run : solve 6 example_edges 0 5 100 = Ok 23 example_final.
Proof. vm_compute. reflexivity. Defined.

(** C2. On the six-vertex example graph, [max_flow(0, 5)] returns 23:
    the run ends with that value within a bounded number of passes of
    the main loop, and any larger budget gives the same outcome. *)
Theorem max_flow_example :
  exists fuel0 e', forall fuel, (fuel0 <= fuel)%nat ->
    solve 6 example_edges 0 5 fuel = Ok 23 e'.
Proof.
  exists 100%nat, example_final. intros fuel Hle.
  eapply solve_mono; [apply example_run|done].
Qed.

(** C3. For every graph with non-negative capacities and every
    in-range source [s] different from the sink [t], when
    [max_flow(s, t)] returns, the value returned is [excess[t]] and
    every vertex [u] other than [s] and [t] has
    [sum(flow[u][v] for v) = 0]. *)
Theorem max_flow_conservation n edges s t fuel r e' :
  Forall (valid_edge n) edges -> 0 <= s < n -> 0 <= t < n -> s <> t ->
  solve n edges s t fuel = Ok r e' ->
  r = at1 (excess e') t
  /\ forall u, 0 <= u < n -> u <> s -> u <> t ->
               sumf (range n) (fun v => at2 (flow e') u v) = 0.
Proof.
  intros Hval Hs Ht Hst Hrun.
  destruct (solve_inv n edges s t fuel r e' Hval Hs Ht Hst Hrun)
    as (e0 & _ & _ & _ & HI & Hset & Hr & HV & _).
  split; [done|]. intros u Hu Hus Hut.
  assert (Hvu : vertex e' u) by (unfold vertex; lia).
  pose proof (inv_Xpos _ _ _ HI u Hvu Hus) as Hpos.
  pose proof (Hset u Hvu Hus Hut) as Hneg.
  pose proof (inv_X _ _ _ HI u Hvu Hus) as HX. rewrite HV in HX.
  assert (Hsum : sumf (range n) (fun v => at2 (flow e') u v)
                 = - sumf (range n) (fun b => F e' b u)).
  { rewrite <- sumf_opp. apply sumf_ext. intros v Hv%elem_of_range.
    apply (inv_skew _ _ _ HI); [done|unfold vertex; lia|now left]. }
  lia.
Qed.

Lemma max_flow_conservation_witness :
  23 = at1 (excess example_final) 5
  /\ forall u, 0 <= u < 6 -> u <> 0 -> u <> 5 ->
               sumf (range 6) (fun v => at2 (flow example_final) u v) = 0.
Proof.
  apply (max_flow_conservation 6 example_edges 0 5 100 23 example_final);
    [apply example_valid|lia|lia|lia|apply example_run].
Defined.

(** C4, as the code has it.  When [max_flow(s, t)] returns, the
    capacities are those registered and every ordered pair satisfies
    [-capacity[v][u] <= flow[u][v] <= capacity[u][v]]: an arc never
    carries more than its capacity, and its entry is non-negative
    whenever the antiparallel arc has capacity 0. *)
Theorem max_flow_capacity_bounds n edges s t fuel r e' :
  Forall (valid_edge n) edges -> 0 <= s < n -> 0 <= t < n -> s <> t ->
  solve n edges s t fuel = Ok r e' ->
  (exists e0, add_edges edges (init n) = Ok tt e0
              /\ capacity e' = capacity e0)
  /\ forall u v, 0 <= u < n -> 0 <= v < n ->
       - at2 (capacity e') v u <= at2 (flow e') u v <= at2 (capacity e') u v
       /\ (at2 (capacity e') v u = 0 -> 0 <= at2 (flow e') u v).
Proof.
  intros Hval Hs Ht Hst Hrun.
  destruct (solve_inv n edges s t fuel r e' Hval Hs Ht Hst Hrun)
    as (e0 & Hadd & _ & _ & HI & _ & _ & HV & HC).
  split; [eauto|]. intros u v Hu Hv.
  assert (Hvu : vertex e' u) by (unfold vertex; lia).
  assert (Hvv : vertex e' v) by (unfold vertex; lia).
  pose proof (inv_le _ _ _ HI u v Hvu Hvv) as Hle.
  pose proof (inv_le _ _ _ HI v u Hvv Hvu) as Hle'.
  pose proof (inv_diag _ _ _ HI) as Hd.
  fold (F e' u v) (C e' u v) (C e' v u).
  assert (- C e' v u <= F e' u v).
  { destruct (decide (u = s /\ v = s)) as [[-> ->]|Hn]; [done|].
    rewrite (inv_skew _ _ _ HI u v) by (try done; lia). lia. }
  lia.
Qed.

Lemma max_flow_capacity_bounds_witness :
  (exists e0, add_edges example_edges (init 6) = Ok tt e0
              /\ capacity example_final = capacity e0)
  /\ forall u v, 0 <= u < 6 -> 0 <= v < 6 ->
       - at2 (capacity example_final) v u <= at2 (flow example_final) u v
         <= at2 (capacity example_final) u v
       /\ (at2 (capacity example_final) v u = 0
           -> 0 <= at2 (flow example_final) u v).
Proof.
  apply (max_flow_capacity_bounds 6 example_edges 0 5 100 23 example_final);
    [apply example_valid|lia|lia|lia|apply example_run].
Defined.

(** C4 as stated fails on the example graph itself: the arc (2, 1)
    has capacity 4, yet the run ends with [flow[2][1] = -4], the mirror
    of the 4 units carried by the antiparallel arc (1, 2). *)
Lemma max_flow_negative_flow :
  solve 6 example_edges 0 5 100 = Ok 23 example_final
  /\ at2 (capacity example_final) 2 1 = 4
  /\ at2 (flow example_final) 2 1 = -4
  /\ ~ (at2 (capacity example_final) 2 1 > 0 ->
        0 <= at2 (flow example_final) 2 1 <= at2 (capacity example_final) 2 1).
Proof.
  split; [apply example_run|].
  assert (Hc : at2 (capacity example_final) 2 1 = 4) by (vm_compute; reflexivity).
  assert (Hf : at2 (flow example_final) 2 1 = -4) by (vm_compute; reflexivity).
  rewrite Hc, Hf. split; [done|]. split; [done|]. lia.
Qed.

(** *** Skew symmetry under [push] and [initialize_preflow] *)

Lemma skew_pushed e u v :
  wf e -> vertex e u -> vertex e v ->
  skew (V e) (flow e) -> skew (V e) (flow (pushed e u v)).
Proof.
  intros Hwf Hu Hv Hsk a b Ha Hb.
  fold (F (pushed e u v) b a) (F (pushed e u v) a b).
  rewrite !F_pushed by done.
  pose proof (Hsk a b Ha Hb) as Hab. pose proof (Hsk u v Hu Hv) as Huv.
  fold (F e b a) (F e a b) in Hab. fold (F e v u) (F e u v) in Huv.
  repeat case_decide; destruct_and?; subst; try lia; tauto.
Qed.

Lemma skew_preflow s e :
  wf e -> vertex e s -> (forall v, v ∈ adj (graph e) s -> vertex e v) ->
  (s ∈ adj (graph e) s -> C e s s = 0) ->
  skew (V e) (flow e) -> skew (V e) (flow (preflow s e)).
Proof.
  intros Hwf Hs Hadj Hloop Hsk a b Ha Hb.
  pose proof (saturated_preflow s e Hwf Hs Hadj) as [_ _ _ _ _ HF _ _].
  fold (F (preflow s e) b a) (F (preflow s e) a b).
  rewrite !HF by done.
  pose proof (Hsk a b Ha Hb) as Hab. fold (F e b a) (F e a b) in Hab.
  pose proof (Hsk s s Hs Hs) as Hss. fold (F e s s) in Hss.
  repeat case_decide; destruct_and?; subst; try lia; try tauto.
  all: rewrite Hloop by done; lia.
Qed.

(** The source's self-loop is what breaks it: with the arc (0, 0) of
    capacity 5 registered, [initialize_preflow(0)] first stores 5 and
    then -5 in the single cell [flow[0][0]]. *)
Definition looped_engine : engine :=
  match (add_edge 0 0 5;; initialize_preflow 0) (init 2) with
  | Ok _ e => e
  | _ => init 2
  end.

(** *** Registering the same arc twice *)

(** C9. Calling [add_edge] twice for the same ordered pair is neither
    rejected nor merged: the second capacity replaces the first and [v]
    is appended to [graph[u]] a second time; [initialize_preflow(u)]
    then subtracts the capacity from [excess[u]] once per entry of
    [graph[u]], twice for the duplicated arc, while [excess[v]] and
    [flow[u][v]] are merely set to the stored capacity. *)
Theorem duplicate_arc_accounting e u v c1 c2 :
  wf e -> vertex e u -> vertex e v ->
  exists e1,
    (add_edge u v c1;; add_edge u v c2) e = Ok tt e1
    /\ at2 (capacity e1) u v = c2
    /\ adj (graph e1) u = adj (graph e) u ++ [v; v]
    /\ (u <> v ->
        (forall w, w ∈ adj (graph e) u -> vertex e w /\ w <> u) ->
        exists e2,
          initialize_preflow u e1 = Ok tt e2
          /\ at2 (flow e2) u v = c2
          /\ at1 (excess e2) v = c2
          /\ at1 (excess e2) u
             = at1 (excess e) u
               - sumf (adj (graph e) u) (fun w => at2 (capacity e1) u w)
               - 2 * c2).
Proof.
  intros Hwf Hu Hv.
  set (e0 := edge_added e u v c1).
  set (e1 := edge_added e0 u v c2).
  assert (Hwf0 : wf e0) by (subst e0; unfold edge_added; cbv zeta; auto).
  assert (Hwf1 : wf e1) by (subst e1; unfold edge_added; cbv zeta; auto).
  assert (HC : C e1 u v = c2).
  { subst e1. unfold edge_added. cbv zeta.
    rewrite C_upd by (auto using wf_set_graph). now rewrite decide_True. }
  assert (Hg : adj (graph e1) u = adj (graph e) u ++ [v; v]).
  { change (graph e1)
      with (adj_append (adj_append (graph e) u v) u v).
    rewrite !adj_adj_append, !decide_True by done.
    now rewrite <- app_assoc. }
  exists e1. split; [|split; [done|split; [done|]]].
  { erewrite bind_ok by now apply add_edge_ok. now apply add_edge_ok. }
  intros Huv Hadj.
  assert (Hadj1 : forall w, w ∈ adj (graph e1) u -> vertex e1 w).
  { intros w. rewrite Hg, elem_of_app. intros [Hw|Hw]; [now apply Hadj|].
    apply elem_of_cons in Hw as [->|Hw]; [done|].
    apply list_elem_of_singleton in Hw. now rewrite Hw. }
  assert (Hnin : u ∉ adj (graph e1) u).
  { rewrite Hg, elem_of_app. intros [Hw|Hw]; [now apply Hadj in Hw|].
    apply elem_of_cons in Hw as [Hw|Hw]; [done|].
    apply list_elem_of_singleton in Hw. done. }
  pose proof (saturated_preflow u e1 Hwf1 Hu Hadj1)
    as [_ _ _ _ _ HF HX HXs].
  exists (preflow u e1). split; [now apply initialize_preflow_ok|].
  assert (Hvin : v ∈ adj (graph e1) u)
    by (rewrite Hg, elem_of_app; right; left).
  split; [|split].
  - fold (F (preflow u e1) u v). rewrite HF by done.
    rewrite decide_False by (intros [_ ?]; congruence).
    rewrite decide_True by done. done.
  - fold (X (preflow u e1) v). rewrite HX by done.
    rewrite decide_True by done. done.
  - fold (X (preflow u e1) u). rewrite HXs by done.
    rewrite Hg, sumf_app, !sumf_cons, sumf_nil, HC.
    change (X e1 u) with (at1 (excess e) u). unfold C. lia.
Qed.

Lemma duplicate_arc_accounting_witness :
  exists e1,
    (add_edge 0 1 3;; add_edge 0 1 5) (init 2) = Ok tt e1
    /\ at2 (capacity e1) 0 1 = 5
    /\ adj (graph e1) 0 = adj (graph (init 2)) 0 ++ [1; 1]
    /\ (0 <> 1 ->
        (forall w, w ∈ adj (graph (init 2)) 0 -> vertex (init 2) w /\ w <> 0) ->
        exists e2,
          initialize_preflow 0 e1 = Ok tt e2
          /\ at2 (flow e2) 0 1 = 5
          /\ at1 (excess e2) 1 = 5
          /\ at1 (excess e2) 0
             = at1 (excess (init 2)) 0
               - sumf (adj (graph (init 2)) 0) (fun w => at2 (capacity e1) 0 w)
               - 2 * 5).
Proof.
  apply (duplicate_arc_accounting (init 2) 0 1 3 5).
  - apply wf_init.
  - unfold vertex. simpl. lia.
  - unfold vertex. simpl. lia.
Defined.

(** *** [add_edge] does not validate its arguments *)

(** With a subscript outside [-V, V) the adjacency list has already
    been extended when [IndexError] is raised. *)
Lemma add_edge_out_of_range e u v cap :
  wf e -> ~ (- V e <= u < V e) \/ ~ (- V e <= v < V e) ->
  add_edge u v cap e
  = Raise IndexError (set_graph (adj_append (graph e) u v) e).
Proof.
  intros Hwf Hout. unfold add_edge, graph_append.
  erewrite bind_ok by reflexivity.
  unfold wr_capacity. simpl.
  rewrite (setitem2_out (V e)); [done|apply Hwf|done].
Qed.

Lemma add_edge_stores e u v cap :
  wf e -> vertex e u -> vertex e v ->
  exists e', add_edge u v cap e = Ok tt e'
             /\ at2 (capacity e') u v = cap
             /\ adj (graph e') u = adj (graph e) u ++ [v].
Proof.
  intros Hwf Hu Hv. exists (edge_added e u v cap).
  split; [now apply add_edge_ok|]. split.
  - fold (C (edge_added e u v cap) u v). unfold edge_added. cbv zeta.
    rewrite C_upd by (auto using wf_set_graph). now rewrite decide_True.
  - change (graph (edge_added e u v cap)) with (adj_append (graph e) u v).
    rewrite adj_adj_append. now rewrite decide_True.
Qed.

(** *** [initialize_preflow] on any source and any adjacency list

    The entries of [graph[s]] are whatever [add_edge] was given.  An
    entry in [-V, V) addresses a vertex, a negative one counting from the
    end; any other entry makes the first statement of the loop body
    raise [IndexError]. *)

Definition in_bounds (e : engine) (v : Z) : Prop := - V e <= v < V e.

Lemma rd_capacity_any e u v :
  wf e -> in_bounds e u -> in_bounds e v ->
  rd_capacity u v e = Ok (C e (norm (V e) u) (norm (V e) v)) e.
Proof.
  intros Hwf Hu Hv. rewrite <- rd_capacity_ok by (try done; now apply norm_range).
  unfold rd_capacity. now rewrite (getitem2_norm (V e)) by (try done; apply Hwf).
Qed.

Lemma wr_flow_any e u v x :
  wf e -> in_bounds e u -> in_bounds e v ->
  wr_flow u v x e
  = Ok tt (set_flow (upd2 (flow e) (norm (V e) u) (norm (V e) v) x) e).
Proof.
  intros Hwf Hu Hv. rewrite <- wr_flow_ok by (try done; now apply norm_range).
  unfold wr_flow. now rewrite (setitem2_norm (V e)) by (try done; apply Hwf).
Qed.

Lemma rd_excess_any e u :
  wf e -> in_bounds e u -> rd_excess u e = Ok (X e (norm (V e) u)) e.
Proof.
  intros Hwf Hu. rewrite <- rd_excess_ok by (try done; now apply norm_range).
  unfold rd_excess. rewrite (getitem_norm (excess e) u);
    rewrite (wf_excess _ Hwf), Z2Nat.id; unfold in_bounds in Hu; (done || lia).
Qed.

Lemma wr_excess_any e u x :
  wf e -> in_bounds e u ->
  wr_excess u x e = Ok tt (set_excess (upd1 (excess e) (norm (V e) u) x) e).
Proof.
  intros Hwf Hu. rewrite <- wr_excess_ok by (try done; now apply norm_range).
  unfold wr_excess. rewrite (setitem_norm (excess e) u);
    rewrite (wf_excess _ Hwf), Z2Nat.id; unfold in_bounds in Hu; (done || lia).
Qed.

Lemma wr_height_any e u x :
  wf e -> in_bounds e u ->
  wr_height u x e = Ok tt (set_height (upd1 (height e) (norm (V e) u) x) e).
Proof.
  intros Hwf Hu. rewrite <- wr_height_ok by (try done; now apply norm_range).
  unfold wr_height. rewrite (setitem_norm (height e) u);
    rewrite (wf_height _ Hwf), Z2Nat.id; unfold in_bounds in Hu; (done || lia).
Qed.

(** One iteration of the loop of [initialize_preflow(s)] at the entry
    [v]. *)
Definition saturate_entry (s v : Z) : M engine unit :=
  c ← rd_capacity s v;
  wr_flow s v c;;
  c ← rd_capacity s v;
  wr_flow v s (- c);;
  c ← rd_capacity s v;
  wr_excess v c;;
  x ← rd_excess s;
  c ← rd_capacity s v;
  wr_excess s (x - c).

Lemma initialize_preflow_unfold s :
  initialize_preflow s
  = (e ← get; wr_height s (V e);; for_each (adj (graph e) s) (saturate_entry s)).
Proof. reflexivity. Qed.

Lemma saturate_entry_ok s v e :
  wf e -> in_bounds e s -> in_bounds e v ->
  saturate_entry s v e = Ok tt (saturated (norm (V e) s) e (norm (V e) v)).
Proof.
  intros Hwf Hs Hv. unfold saturate_entry, saturated. cbv zeta.
  pose proof (norm_range _ _ Hs) as Hs'. pose proof (norm_range _ _ Hv) as Hv'.
  erewrite bind_ok by now apply rd_capacity_any.
  erewrite bind_ok by now apply wr_flow_any.
  set (e1 := set_flow _ e).
  assert (Hwf1 : wf e1) by (subst e1; auto).
  erewrite bind_ok by (apply (rd_capacity_any e1); done).
  erewrite bind_ok by (apply (wr_flow_any e1); done).
  set (e2 := set_flow _ e1).
  assert (Hwf2 : wf e2) by (subst e2; auto).
  erewrite bind_ok by (apply (rd_capacity_any e2); done).
  erewrite bind_ok by (apply (wr_excess_any e2); done).
  set (e3 := set_excess _ e2).
  assert (Hwf3 : wf e3) by (subst e3; auto).
  erewrite bind_ok by (apply (rd_excess_any e3); done).
  erewrite bind_ok by (apply (rd_capacity_any e3); done).
  rewrite (wr_excess_any e3) by done. reflexivity.
Qed.

Lemma saturate_entry_out s v e :
  wf e -> in_bounds e s -> ~ in_bounds e v ->
  saturate_entry s v e = Raise IndexError e.
Proof.
  intros Hwf Hs Hv. unfold saturate_entry, rd_capacity.
  unfold mbind, M_bind.
  rewrite (getitem2_out (V e)); [done|apply Hwf|now right].
Qed.

Lemma V_saturated s e v : V (saturated s e v) = V e.
Proof. reflexivity. Qed.

Lemma capacity_saturated s e v : capacity (saturated s e v) = capacity e.
Proof. reflexivity. Qed.

Lemma graph_saturated s e v : graph (saturated s e v) = graph e.
Proof. reflexivity. Qed.

(** Saturating one arc out of [s] keeps the flow matrix
    skew-symmetric, unless the arc is a loop at [s] with capacity. *)
Lemma skew_saturated s e v :
  wf e -> vertex e s -> vertex e v -> (v = s -> C e s s = 0) ->
  skew (V e) (flow e) -> skew (V e) (flow (saturated s e v)).
Proof.
  intros Hwf Hs Hv Hloop Hsk a b Ha Hb. unfold vertex in *.
  set (c := C e s v).
  set (e1 := set_flow (upd2 (flow e) s v c) e).
  assert (Hwf1 : wf e1) by (subst e1; auto).
  assert (HF : forall x y, 0 <= x < V e -> 0 <= y < V e ->
            at2 (flow (saturated s e v)) x y
            = if decide (x = v /\ y = s) then - c
              else if decide (x = s /\ y = v) then c else F e x y).
  { intros x y Hx Hy.
    change (at2 (flow (saturated s e v)) x y)
      with (F (set_flow (upd2 (flow e1) v s (- c)) e1) x y).
    rewrite F_upd by done. case_decide; [done|].
    subst e1. rewrite F_upd by done. done. }
  rewrite !HF by done.
  pose proof (Hsk a b Ha Hb) as Hab. fold (F e b a) (F e a b) in Hab.
  repeat case_decide; destruct_and?; subst; try lia; try tauto.
  all: subst c; rewrite Hloop by done; lia.
Qed.

(** The loop of [initialize_preflow(s)]: it returns, or stops with
    [IndexError] at an entry outside [-V, V); either way the flow matrix
    is left skew-symmetric, provided no entry denotes [s] itself while
    [capacity[s][s]] is not zero. *)
Lemma saturate_entries_skew s e vs :
  wf e -> in_bounds e s -> skew (V e) (flow e) ->
  (forall v, v ∈ vs -> norm (V e) v = norm (V e) s ->
             C e (norm (V e) s) (norm (V e) s) = 0) ->
  exists e', wf e' /\ V e' = V e /\ skew (V e) (flow e')
    /\ (for_each vs (saturate_entry s) e = Ok tt e'
        \/ for_each vs (saturate_entry s) e = Raise IndexError e'
           /\ exists v, v ∈ vs /\ ~ in_bounds e v).
Proof.
  intros Hwf Hs Hsk. revert e Hwf Hs Hsk.
  induction vs as [|v vs IH]; intros e Hwf Hs Hsk Hloop.
  - exists e. repeat (split; [done|]). now left.
  - destruct (decide (in_bounds e v)) as [Hv|Hv].
    + set (e1 := saturated (norm (V e) s) e (norm (V e) v)).
      destruct (IH e1) as (e' & Hwf' & HV' & Hsk' & Hrun).
      { now apply wf_saturated. }
      { exact Hs. }
      { subst e1. rewrite V_saturated. apply skew_saturated; try done;
          [now apply norm_range|now apply norm_range|].
        intros Heq. apply (Hloop v); [left|done]. }
      { intros w Hw Heq. subst e1. apply (Hloop w); [now right|done]. }
      exists e'. split; [done|]. split; [done|]. split; [done|].
      cbn [for_each]. erewrite bind_ok by now apply saturate_entry_ok.
      destruct Hrun as [Hrun|(Hrun & w & Hw & Hout)]; [now left|].
      right. split; [done|]. exists w. split; [now right|done].
    + exists e. split; [done|]. split; [done|]. split; [done|].
      right. split.
      * cbn [for_each]. unfold mbind, M_bind.
        now rewrite saturate_entry_out.
      * exists v. split; [left|done].
Qed.

(** [initialize_preflow(s)] for any [s]: the same, with
    [IndexError] at [self.height[s] = self.V] when [s] itself is outside
    [-V, V). *)
Lemma initialize_preflow_skew s e :
  wf e -> skew (V e) (flow e) ->
  (forall v, v ∈ adj (graph e) s -> norm (V e) v = norm (V e) s ->
             at2 (capacity e) s s = 0) ->
  exists e', skew (V e) (flow e')
    /\ (initialize_preflow s e = Ok tt e'
        \/ initialize_preflow s e = Raise IndexError e')
    /\ (in_bounds e s -> (forall v, v ∈ adj (graph e) s -> in_bounds e v) ->
        initialize_preflow s e = Ok tt e').
Proof.
  intros Hwf Hsk Hloop. rewrite initialize_preflow_unfold.
  destruct (decide (in_bounds e s)) as [Hs|Hs].
  - set (e0 := set_height (upd1 (height e) (norm (V e) s) (V e)) e).
    assert (Hwf0 : wf e0) by (subst e0; auto).
    destruct (saturate_entries_skew s e0 (adj (graph e) s))
      as (e' & Hwf' & HV' & Hsk' & Hrun); try done.
    { intros v Hv Heq. rewrite <- (Hloop v Hv Heq).
      unfold C, at2. change (capacity e0) with (capacity e).
      change (V e0) with (V e).
      now rewrite <- (getitem2_norm (V e)) by (try done; apply Hwf). }
    exists e'. split; [done|].
    assert (Hstart : (e1 ← get; wr_height s (V e1);;
                      for_each (adj (graph e1) s) (saturate_entry s)) e
                     = for_each (adj (graph e) s) (saturate_entry s) e0).
    { erewrite bind_ok by reflexivity.
      erewrite bind_ok by now apply wr_height_any. done. }
    rewrite Hstart. split.
    + destruct Hrun as [Hrun|[Hrun _]]; [now left|now right].
    + intros _ Hall. destruct Hrun as [Hrun|(_ & w & Hw & Hout)]; [done|].
      exfalso. apply Hout, (Hall w Hw).
  - exists e. split; [done|]. split.
    + right. unfold mbind, M_bind, get, wr_height, setitem.
      rewrite index_none; [done|]. rewrite (wf_height _ Hwf).
      unfold in_bounds in Hs. lia.
    + intros Hs'. done.
Qed.

End PushRelabelFacts.

(** ** Binary64 arithmetic: facts *)

Module PyNumFacts.
Import Py PyNum.

(** ** Binary64 arithmetic on integers it represents exactly *)

Lemma digits2_size p : digits2_pos p = Pos.size p.
Proof. induction p; simpl; congruence. Qed.

Lemma digits_bounds p :
  2 ^ (Z.pos (digits2_pos p) - 1) <= Z.pos p < 2 ^ Z.pos (digits2_pos p).
Proof.
  rewrite digits2_size. split.
  - pose proof (Pos.size_le p) as H.
    assert (H' : 2 ^ Z.pos (Pos.size p) <= 2 * Z.pos p).
    { rewrite <- Pos2Z.inj_pow. lia. }
    replace (Z.pos (Pos.size p)) with (Z.succ (Z.pos (Pos.size p) - 1)) in H' by lia.
    rewrite Z.pow_succ_r in H' by lia. lia.
  - pose proof (Pos.size_gt p) as H. rewrite <- Pos2Z.inj_pow. lia.
Qed.

Lemma digits_unique p d :
  2 ^ (d - 1) <= Z.pos p < 2 ^ d -> Z.pos (digits2_pos p) = d.
Proof.
  intros [Hlo Hhi]. pose proof (digits_bounds p) as [Hlo' Hhi'].
  assert (0 < d).
  { destruct (Z.lt_trichotomy d 0) as [Hd|[Hd|Hd]]; [|subst; simpl in Hhi; lia|done].
    rewrite Z.pow_neg_r in Hhi by done. lia. }
  destruct (Z.lt_trichotomy (Z.pos (digits2_pos p)) d) as [Hlt|[Heq|Hgt]]; [|done|].
  - assert (2 ^ Z.pos (digits2_pos p) <= 2 ^ (d - 1))
      by (apply Z.pow_le_mono_r; lia). lia.
  - assert (2 ^ d <= 2 ^ (Z.pos (digits2_pos p) - 1))
      by (apply Z.pow_le_mono_r; lia). lia.
Qed.

Lemma digits_shift p q j :
  0 <= j -> Z.pos p = Z.pos q * 2 ^ j ->
  Z.pos (digits2_pos p) = Z.pos (digits2_pos q) + j.
Proof.
  intros Hj Hp. apply digits_unique. rewrite Hp.
  pose proof (digits_bounds q) as [Hlo Hhi].
  replace (Z.pos (digits2_pos q) + j - 1) with (Z.pos (digits2_pos q) - 1 + j) by lia.
  rewrite !Z.pow_add_r by lia.
  assert (0 < 2 ^ j) by (apply Z.pow_pos_nonneg; lia).
  split; nia.
Qed.

Lemma iter_xO p k : Z.pos (Pos.iter xO p k) = Z.pos p * 2 ^ Z.pos k.
Proof.
  induction k using Pos.peano_ind.
  - simpl. lia.
  - rewrite Pos.iter_succ. rewrite Pos2Z.inj_xO, IHk.
    rewrite Pos2Z.inj_succ, Z.pow_succ_r by lia. lia.
Qed.

Lemma shl_align_fst mx ex ez :
  ez <= ex -> Z.pos (fst (shl_align mx ex ez)) = Z.pos mx * 2 ^ (ex - ez).
Proof.
  intros Hle. unfold shl_align.
  destruct (ez - ex) as [|k|k] eqn:Hk.
  - replace (ex - ez) with 0 by lia. simpl. lia.
  - lia.
  - simpl. rewrite iter_xO. f_equal. f_equal. lia.
Qed.

Lemma iter_pos_nat {A} (f : A -> A) p x :
  SpecFloat.iter_pos f p x = Nat.iter (Pos.to_nat p) f x.
Proof.
  revert x. induction p as [p IH|p IH|]; intros x; cbn [SpecFloat.iter_pos].
  - rewrite !IH. rewrite Pos2Nat.inj_xI.
    replace (S (2 * Pos.to_nat p)) with (Pos.to_nat p + (Pos.to_nat p + 1))%nat by lia.
    rewrite !Nat.iter_add. reflexivity.
  - rewrite !IH. rewrite Pos2Nat.inj_xO.
    replace (2 * Pos.to_nat p)%nat with (Pos.to_nat p + Pos.to_nat p)%nat by lia.
    now rewrite Nat.iter_add.
  - reflexivity.
Qed.

Lemma shr_exact_nat n : forall m m',
  Z.pos m = Z.pos m' * 2 ^ Z.of_nat n ->
  Nat.iter n shr_1 (Build_shr_record (Z.pos m) false false)
  = Build_shr_record (Z.pos m') false false.
Proof.
  induction n as [|n IH]; intros m m' Hm.
  - simpl in *. f_equal. lia.
  - rewrite Nat2Z.inj_succ, Z.pow_succ_r in Hm by lia.
    rewrite Nat.iter_succ_r. destruct m as [m|m|]; [lia| |lia].
    cbn [shr_1 orb]. apply IH. lia.
Qed.

Lemma shr_fexp_canonical m E :
  Z.pos (digits2_pos m) = 53 -> -1074 <= E ->
  shr_fexp prec emax (Z.pos m) E loc_Exact
  = (Build_shr_record (Z.pos m) false false, E).
Proof.
  intros Hd HE. unfold shr_fexp, fexp, emin, prec, emax. cbn [Zdigits2].
  rewrite Hd. replace (Z.max (53 + E - 53) (3 - 1024 - 53) - E) with 0 by lia.
  reflexivity.
Qed.

Lemma round_aux_canonical s m E :
  Z.pos (digits2_pos m) = 53 -> -1074 <= E <= 971 ->
  binary_round_aux prec emax s (Z.pos m) E loc_Exact = S754_finite s m E.
Proof.
  intros Hd HE. unfold binary_round_aux.
  rewrite shr_fexp_canonical by (done || lia).
  cbn [shr_m loc_of_shr_record round_nearest_even].
  rewrite shr_fexp_canonical by (done || lia). cbn [shr_m].
  unfold emax, prec. rewrite (proj2 (Z.leb_le E (1024 - 53))) by lia. done.
Qed.

Lemma round_aux_shift s p m t e :
  0 < t -> Z.pos p = Z.pos m * 2 ^ t ->
  Z.pos (digits2_pos m) = 53 -> -1074 <= e + t <= 971 ->
  binary_round_aux prec emax s (Z.pos p) e loc_Exact = S754_finite s m (e + t).
Proof.
  intros Ht Hp Hd HE. unfold binary_round_aux.
  assert (HD : Z.pos (digits2_pos p) = 53 + t).
  { rewrite (digits_shift p m t) by (lia || done). lia. }
  assert (Hshr : shr_fexp prec emax (Z.pos p) e loc_Exact
                 = (Build_shr_record (Z.pos m) false false, e + t)).
  { unfold shr_fexp, fexp, emin, prec, emax. cbn [Zdigits2]. rewrite HD.
    replace (Z.max (53 + t + e - 53) (3 - 1024 - 53) - e) with t by lia.
    destruct t as [|t'|t']; [lia| |lia].
    unfold shr. cbn [shr_record_of_loc]. f_equal.
    rewrite iter_pos_nat. apply shr_exact_nat.
    now rewrite positive_nat_Z. }
  rewrite Hshr. cbn [shr_m loc_of_shr_record round_nearest_even].
  rewrite shr_fexp_canonical by (done || lia). cbn [shr_m].
  unfold emax, prec. rewrite (proj2 (Z.leb_le (e + t) (1024 - 53))) by lia. done.
Qed.

(** Rounding a significand that carries [j] trailing zeros gives the
    53-bit significand of the same value: nothing is rounded off. *)
Lemma binary_round_exact s p q j e :
  0 <= j -> Z.pos p = Z.pos q * 2 ^ j ->
  Z.pos (digits2_pos q) <= 53 ->
  -1074 <= Z.pos (digits2_pos q) + e - 53 <= 971 ->
  exists m, Z.pos m = Z.pos q * 2 ^ (53 - Z.pos (digits2_pos q))
    /\ binary_round prec emax s p (e - j)
       = S754_finite s m (Z.pos (digits2_pos q) + e - 53).
Proof.
  intros Hj Hp Hd HE. set (d := Z.pos (digits2_pos q)) in *.
  assert (HD : Z.pos (digits2_pos p) = d + j) by now apply digits_shift.
  unfold binary_round.
  assert (Hf : fexp prec emax (Z.pos (digits2_pos p) + (e - j)) = d + e - 53).
  { unfold fexp, emin, prec, emax. rewrite HD. lia. }
  rewrite Hf.
  destruct (Z.lt_trichotomy (d - 53 + j) 0) as [Hneg|[Hzero|Hpos]].
  - assert (Hle : d + e - 53 <= e - j) by lia.
    pose proof (shl_align_fst p (e - j) (d + e - 53) Hle) as Hm.
    unfold shl_align in *.
    destruct (d + e - 53 - (e - j)) as [|k|k] eqn:Hk; [lia|lia|].
    cbn [fst] in Hm. exists (Pos.iter xO p k). split.
    + rewrite Hm, Hp, <- Z.mul_assoc, <- Z.pow_add_r by lia. f_equal. f_equal. lia.
    + apply round_aux_canonical; [|done].
      apply digits_unique. rewrite Hm, Hp.
      pose proof (digits_bounds q) as [Hlo Hhi]. fold d in Hlo, Hhi.
      rewrite <- Z.mul_assoc, <- Z.pow_add_r by lia.
      replace (j + (e - j - (d + e - 53))) with (53 - d) by lia.
      replace (2 ^ (53 - 1)) with (2 ^ (d - 1) * 2 ^ (53 - d))
        by (rewrite <- Z.pow_add_r by lia; f_equal; lia).
      replace (2 ^ 53) with (2 ^ d * 2 ^ (53 - d))
        by (rewrite <- Z.pow_add_r by lia; f_equal; lia).
      assert (0 < 2 ^ (53 - d)) by (apply Z.pow_pos_nonneg; lia).
      split; nia.
  - unfold shl_align. replace (d + e - 53 - (e - j)) with 0 by lia.
    exists p. split.
    + rewrite Hp. f_equal. f_equal. lia.
    + replace (d + e - 53) with (e - j) by lia.
      apply round_aux_canonical; [|lia]. rewrite HD. lia.
  - unfold shl_align.
    destruct (d + e - 53 - (e - j)) as [|k|k] eqn:Hk; [lia| |lia].
    assert (Hq : exists m, Z.pos m = Z.pos q * 2 ^ (53 - d)).
    { assert (0 < Z.pos q * 2 ^ (53 - d)).
      { apply Z.mul_pos_pos; [lia|]. apply Z.pow_pos_nonneg; lia. }
      destruct (Z.pos q * 2 ^ (53 - d)) as [|m|m] eqn:Hm; [lia| |lia].
      now exists m. }
    destruct Hq as [m Hm]. exists m. split; [done|].
    replace (d + e - 53) with (e - j + Z.pos k) by lia.
    apply round_aux_shift; [lia| | |lia].
    + rewrite Hm, Hp, <- Z.mul_assoc, <- Z.pow_add_r by lia. f_equal. f_equal. lia.
    + apply digits_unique. rewrite Hm.
      pose proof (digits_bounds q) as [Hlo Hhi]. fold d in Hlo, Hhi.
      replace (2 ^ (53 - 1)) with (2 ^ (d - 1) * 2 ^ (53 - d))
        by (rewrite <- Z.pow_add_r by lia; f_equal; lia).
      replace (2 ^ 53) with (2 ^ d * 2 ^ (53 - d))
        by (rewrite <- Z.pow_add_r by lia; f_equal; lia).
      assert (0 < 2 ^ (53 - d)) by (apply Z.pow_pos_nonneg; lia).
      split; nia.
Qed.


(** *** Multiples of [2^-s] with a numerator below [2^53] *)

Section Scale.
Variable s : Z.
Hypothesis Hs : 0 <= s <= 1000.

(** The binary64 value [z / 2^s]. *)
Definition dyadic (z : Z) : spec_float := binary_normalize prec emax z (- s) false.

Definition signed (sx : bool) (p : positive) : Z := if sx then Z.neg p else Z.pos p.

Lemma small_digits p : Z.pos p < 2 ^ 53 -> Z.pos (digits2_pos p) <= 53.
Proof.
  intros Hp. pose proof (digits_bounds p) as [Hlo _].
  destruct (Z_le_gt_dec (Z.pos (digits2_pos p)) 53) as [|Hgt]; [done|].
  assert (2 ^ 53 <= 2 ^ (Z.pos (digits2_pos p) - 1))
    by (apply Z.pow_le_mono_r; lia). lia.
Qed.

Lemma dyadic_signed sx p :
  dyadic (signed sx p) = binary_round prec emax sx p (- s).
Proof. now destruct sx. Qed.

Lemma dyadic_form sx p :
  Z.pos p < 2 ^ 53 ->
  exists m, Z.pos m = Z.pos p * 2 ^ (53 - Z.pos (digits2_pos p))
    /\ dyadic (signed sx p)
       = S754_finite sx m (Z.pos (digits2_pos p) - s - 53).
Proof.
  intros Hp. pose proof (small_digits p Hp) as Hd.
  destruct (binary_round_exact sx p p 0 (- s)) as (m & Hm & Hr);
    [lia|simpl; lia|done|lia|].
  exists m. split; [done|]. rewrite dyadic_signed.
  replace (- s) with (- s - 0) at 1 by lia. rewrite Hr. f_equal; lia.
Qed.

(** Trailing zeros of the numerator do not matter. *)
Lemma normalize_shift sx p p' J :
  Z.pos p < 2 ^ 53 -> 0 <= J -> Z.pos p' = Z.pos p * 2 ^ J ->
  binary_round prec emax sx p' (- s - J) = dyadic (signed sx p).
Proof.
  intros Hp HJ Hp'. pose proof (small_digits p Hp) as Hd.
  destruct (dyadic_form sx p Hp) as (m & Hm & ->).
  destruct (binary_round_exact sx p' p J (- s)) as (m' & Hm' & ->);
    [done|done|done|lia|].
  assert (m' = m) by lia. subst m'. f_equal; lia.
Qed.

Lemma signed_cases z : z = 0 \/ exists sx p, z = signed sx p /\ Z.abs z = Z.pos p.
Proof.
  destruct z as [|p|p]; [now left|right; exists false, p|right; exists true, p];
    done.
Qed.

Lemma cond_Zopp_signed sx p : cond_Zopp sx (Z.pos p) = signed sx p.
Proof. now destruct sx. Qed.

Lemma normalize_shift_Z z J :
  Z.abs z < 2 ^ 53 -> 0 <= J ->
  binary_normalize prec emax (z * 2 ^ J) (- s - J) false = dyadic z.
Proof.
  intros Hz HJ. destruct (signed_cases z) as [->|(sx & p & -> & Habs)].
  - reflexivity.
  - rewrite Habs in Hz.
    assert (Hpos : 0 < Z.pos p * 2 ^ J).
    { apply Z.mul_pos_pos; [lia|]. apply Z.pow_pos_nonneg; lia. }
    destruct (Z.pos p * 2 ^ J) as [|p'|p'] eqn:Hp'; [lia| |lia].
    rewrite <- (normalize_shift sx p p' J) by done.
    destruct sx; unfold signed.
    + replace (Z.neg p * 2 ^ J) with (Z.neg p') by lia. reflexivity.
    + rewrite Hp'. reflexivity.
Qed.

(** The aligned significand of [z / 2^s] at an exponent [ez] below its
    own. *)
Lemma aligned_dyadic sx p m ez :
  Z.pos p < 2 ^ 53 ->
  Z.pos m = Z.pos p * 2 ^ (53 - Z.pos (digits2_pos p)) ->
  ez <= Z.pos (digits2_pos p) - s - 53 ->
  cond_Zopp sx (Z.pos (fst (shl_align m (Z.pos (digits2_pos p) - s - 53) ez)))
  = signed sx p * 2 ^ (- s - ez).
Proof.
  intros Hp Hm Hez. pose proof (small_digits p Hp) as Hd.
  rewrite shl_align_fst by done. rewrite Hm.
  rewrite <- Z.mul_assoc, <- Z.pow_add_r by lia.
  replace (53 - Z.pos (digits2_pos p) + (Z.pos (digits2_pos p) - s - 53 - ez))
    with (- s - ez) by lia.
  destruct sx; unfold signed, cond_Zopp; lia.
Qed.

Lemma signed_opp sx p : - signed sx p = signed (negb sx) p.
Proof. now destruct sx. Qed.

Lemma SFsub_dyadic a b :
  Z.abs a < 2 ^ 53 -> Z.abs b < 2 ^ 53 -> Z.abs (a - b) < 2 ^ 53 ->
  SFsub prec emax (dyadic a) (dyadic b) = dyadic (a - b).
Proof.
  intros Ha Hb Hab.
  destruct (signed_cases a) as [->|(sa & pa & -> & Habs)];
    destruct (signed_cases b) as [->|(sb & pb & -> & Hbbs)].
  - reflexivity.
  - rewrite Hbbs in Hb. destruct (dyadic_form sb pb Hb) as (m & Hm & Hf).
    rewrite Hf. change (dyadic 0) with (S754_zero false). cbn [SFsub].
    rewrite Z.sub_0_l, signed_opp.
    destruct (dyadic_form (negb sb) pb Hb) as (m' & Hm' & ->).
    assert (m' = m) by lia. now subst m'.
  - rewrite Z.sub_0_r. rewrite Habs in Ha.
    destruct (dyadic_form sa pa Ha) as (m & Hm & ->). reflexivity.
  - rewrite Habs in Ha. rewrite Hbbs in Hb.
    destruct (dyadic_form sa pa Ha) as (ma & Hma & Hfa).
    destruct (dyadic_form sb pb Hb) as (mb & Hmb & Hfb).
    rewrite Hfa, Hfb. cbn [SFsub].
    set (ea := Z.pos (digits2_pos pa) - s - 53).
    set (eb := Z.pos (digits2_pos pb) - s - 53).
    pose proof (small_digits pa Ha). pose proof (small_digits pb Hb).
    rewrite (aligned_dyadic sa pa ma) by (done || subst ea eb; lia).
    rewrite (aligned_dyadic sb pb mb) by (done || subst ea eb; lia).
    rewrite <- Z.mul_sub_distr_r.
    set (J := - s - Z.min ea eb).
    transitivity (binary_normalize prec emax
                    ((signed sa pa - signed sb pb) * 2 ^ J) (- s - J) false).
    { f_equal. subst J. lia. }
    apply normalize_shift_Z; [done|subst J ea eb; lia].
Qed.

Lemma SFadd_dyadic a b :
  Z.abs a < 2 ^ 53 -> Z.abs b < 2 ^ 53 -> Z.abs (a + b) < 2 ^ 53 ->
  SFadd prec emax (dyadic a) (dyadic b) = dyadic (a + b).
Proof.
  intros Ha Hb Hab.
  destruct (signed_cases a) as [->|(sa & pa & -> & Habs)];
    destruct (signed_cases b) as [->|(sb & pb & -> & Hbbs)].
  - reflexivity.
  - rewrite Z.add_0_l. rewrite Hbbs in Hb.
    destruct (dyadic_form sb pb Hb) as (m & Hm & ->). reflexivity.
  - rewrite Z.add_0_r. rewrite Habs in Ha.
    destruct (dyadic_form sa pa Ha) as (m & Hm & ->). reflexivity.
  - rewrite Habs in Ha. rewrite Hbbs in Hb.
    destruct (dyadic_form sa pa Ha) as (ma & Hma & Hfa).
    destruct (dyadic_form sb pb Hb) as (mb & Hmb & Hfb).
    rewrite Hfa, Hfb. cbn [SFadd].
    set (ea := Z.pos (digits2_pos pa) - s - 53).
    set (eb := Z.pos (digits2_pos pb) - s - 53).
    pose proof (small_digits pa Ha). pose proof (small_digits pb Hb).
    rewrite (aligned_dyadic sa pa ma) by (done || subst ea eb; lia).
    rewrite (aligned_dyadic sb pb mb) by (done || subst ea eb; lia).
    rewrite <- Z.mul_add_distr_r.
    set (J := - s - Z.min ea eb).
    transitivity (binary_normalize prec emax
                    ((signed sa pa + signed sb pb) * 2 ^ J) (- s - J) false).
    { f_equal. subst J. lia. }
    apply normalize_shift_Z; [done|subst J ea eb; lia].
Qed.

Lemma pow_compare a b k : 0 <= k -> (a * 2 ^ k ?= b * 2 ^ k) = (a ?= b).
Proof.
  intros Hk. assert (0 < 2 ^ k) by (apply Z.pow_pos_nonneg; lia).
  destruct (Z.compare_spec a b) as [->|Hlt|Hgt].
  - apply Z.compare_refl.
  - apply Z.compare_lt_iff. nia.
  - apply Z.compare_gt_iff. nia.
Qed.

Lemma compare_forms pa pb ma mb :
  Z.pos pa < 2 ^ 53 -> Z.pos pb < 2 ^ 53 ->
  Z.pos ma = Z.pos pa * 2 ^ (53 - Z.pos (digits2_pos pa)) ->
  Z.pos mb = Z.pos pb * 2 ^ (53 - Z.pos (digits2_pos pb)) ->
  match Z.pos (digits2_pos pa) - s - 53 ?= Z.pos (digits2_pos pb) - s - 53 with
  | Lt => Lt
  | Gt => Gt
  | Eq => Pos.compare_cont Eq ma mb
  end = (Z.pos pa ?= Z.pos pb).
Proof.
  intros Ha Hb Hma Hmb.
  pose proof (small_digits pa Ha). pose proof (small_digits pb Hb).
  pose proof (digits_bounds pa) as [Hloa Hhia].
  pose proof (digits_bounds pb) as [Hlob Hhib].
  destruct (Z.compare_spec (Z.pos (digits2_pos pa) - s - 53)
              (Z.pos (digits2_pos pb) - s - 53)) as [Heq|Hlt|Hgt].
  - change (Pos.compare_cont Eq ma mb) with (Z.pos ma ?= Z.pos mb).
    rewrite Hma, Hmb. replace (Z.pos (digits2_pos pb)) with (Z.pos (digits2_pos pa)) by lia.
    apply pow_compare. lia.
  - symmetry. apply Z.compare_lt_iff.
    assert (2 ^ Z.pos (digits2_pos pa) <= 2 ^ (Z.pos (digits2_pos pb) - 1))
      by (apply Z.pow_le_mono_r; lia). lia.
  - symmetry. apply Z.compare_gt_iff.
    assert (2 ^ Z.pos (digits2_pos pb) <= 2 ^ (Z.pos (digits2_pos pa) - 1))
      by (apply Z.pow_le_mono_r; lia). lia.
Qed.

Lemma SFcompare_dyadic a b :
  Z.abs a < 2 ^ 53 -> Z.abs b < 2 ^ 53 ->
  SFcompare (dyadic a) (dyadic b) = Some (a ?= b).
Proof.
  intros Ha Hb.
  destruct (signed_cases a) as [->|(sa & pa & -> & Habs)];
    destruct (signed_cases b) as [->|(sb & pb & -> & Hbbs)].
  - reflexivity.
  - rewrite Hbbs in Hb. destruct (dyadic_form sb pb Hb) as (m & Hm & ->).
    now destruct sb.
  - rewrite Habs in Ha. destruct (dyadic_form sa pa Ha) as (m & Hm & ->).
    now destruct sa.
  - rewrite Habs in Ha. rewrite Hbbs in Hb.
    destruct (dyadic_form sa pa Ha) as (ma & Hma & ->).
    destruct (dyadic_form sb pb Hb) as (mb & Hmb & ->).
    cbn [SFcompare]. f_equal.
    destruct sa, sb; unfold signed; try reflexivity.
    + change (Z.neg pa ?= Z.neg pb) with (CompOpp (Z.pos pa ?= Z.pos pb)).
      rewrite <- (compare_forms pa pb ma mb) by done.
      destruct (Z.pos (digits2_pos pa) - s - 53 ?= Z.pos (digits2_pos pb) - s - 53);
        reflexivity.
    + now apply compare_forms.
Qed.
Lemma compare_int_dyadic i b :
  Z.abs b < 2 ^ 53 ->
  compare_int_float i (dyadic b) = Some (i * 2 ^ s ?= b).
Proof.
  intros Hb. destruct (signed_cases b) as [->|(sb & pb & -> & Hbbs)].
  - change (dyadic 0) with (S754_zero false). cbn [compare_int_float].
    f_equal. rewrite <- (pow_compare i 0 s) by lia. now rewrite Z.mul_0_l.
  - rewrite Hbbs in Hb. destruct (dyadic_form sb pb Hb) as (m & Hm & ->).
    pose proof (small_digits pb Hb) as Hd.
    cbn [compare_int_float]. f_equal.
    change (if sb then Z.neg m else Z.pos m) with (signed sb m).
    assert (Hv : signed sb m = signed sb pb * 2 ^ (53 - Z.pos (digits2_pos pb))).
    { destruct sb; unfold signed; lia. }
    rewrite Hv. case_decide as He.
    + replace (Z.pos (digits2_pos pb) - s - 53) with 0 by lia.
      replace s with 0 by lia.
      replace (53 - Z.pos (digits2_pos pb)) with 0 by lia.
      now rewrite !Z.mul_1_r.
    + replace (- (Z.pos (digits2_pos pb) - s - 53))
        with (s + (53 - Z.pos (digits2_pos pb))) by lia.
      rewrite Z.pow_add_r, Z.mul_assoc by lia.
      apply pow_compare. lia.
Qed.

Lemma float_of_int_dyadic i :
  Z.abs (i * 2 ^ s) < 2 ^ 53 -> float_of_int i = inr (dyadic (i * 2 ^ s)).
Proof.
  intros Hi. unfold float_of_int.
  destruct (signed_cases i) as [->|(sx & p & -> & Habs)]; [reflexivity|].
  assert (H2 : 0 < 2 ^ s) by (apply Z.pow_pos_nonneg; lia).
  assert (Hp : Z.pos p < 2 ^ 53).
  { rewrite Z.abs_mul, Habs, (Z.abs_eq (2 ^ s)) in Hi by lia. nia. }
  pose proof (small_digits p Hp) as Hd.
  assert (Hpos : 0 < Z.pos p * 2 ^ s) by (apply Z.mul_pos_pos; lia).
  destruct (Z.pos p * 2 ^ s) as [|p'|p'] eqn:Hp'; [lia| |lia].
  assert (Hz : signed sx p * 2 ^ s = signed sx p').
  { destruct sx; unfold signed; lia. }
  rewrite Hz, dyadic_signed.
  replace (binary_normalize prec emax (signed sx p) 0 false)
    with (binary_round prec emax sx p (0 - 0)) by now destruct sx.
  destruct (binary_round_exact sx p p 0 0) as (m & Hm & ->);
    [lia|simpl; lia|done|lia|].
  replace (- s) with (0 - s) by lia.
  destruct (binary_round_exact sx p' p s 0) as (m' & Hm' & ->);
    [lia|lia|done|lia|].
  assert (m' = m) by lia. now subst m'.
Qed.

(** The Python number [x] is [z / 2^s], held without rounding: an int,
    or a float whose numerator at scale [s] is below [2^53]. *)
Definition holds (x : num) (z : Z) : Prop :=
  match x with
  | Int i => z = i * 2 ^ s
  | Float f => f = dyadic z /\ Z.abs z < 2 ^ 53
  end.

Lemma to_float_holds x z :
  holds x z -> Z.abs z < 2 ^ 53 -> to_float x = inr (dyadic z).
Proof.
  destruct x as [i|f]; simpl.
  - intros -> Hz. now apply float_of_int_dyadic.
  - now intros [-> _] _.
Qed.

Lemma sub_holds x y a b :
  holds x a -> holds y b ->
  Z.abs a < 2 ^ 53 -> Z.abs b < 2 ^ 53 -> Z.abs (a - b) < 2 ^ 53 ->
  exists r, sub x y = inr r /\ holds r (a - b).
Proof.
  intros Hx Hy Ha Hb Hab.
  assert (Hf : float_op (SFsub prec emax) x y = inr (Float (dyadic (a - b)))).
  { unfold float_op. rewrite (to_float_holds x a), (to_float_holds y b) by done.
    now rewrite SFsub_dyadic. }
  destruct x as [i|f], y as [j|g]; cbn [sub]; try (rewrite Hf; eexists; split;
    [reflexivity|split; done]).
  simpl in Hx, Hy. subst. eexists. split; [reflexivity|]. simpl. lia.
Qed.

Lemma add_holds x y a b :
  holds x a -> holds y b ->
  Z.abs a < 2 ^ 53 -> Z.abs b < 2 ^ 53 -> Z.abs (a + b) < 2 ^ 53 ->
  exists r, add x y = inr r /\ holds r (a + b).
Proof.
  intros Hx Hy Ha Hb Hab.
  assert (Hf : float_op (SFadd prec emax) x y = inr (Float (dyadic (a + b)))).
  { unfold float_op. rewrite (to_float_holds x a), (to_float_holds y b) by done.
    now rewrite SFadd_dyadic. }
  destruct x as [i|f], y as [j|g]; cbn [add]; try (rewrite Hf; eexists; split;
    [reflexivity|split; done]).
  simpl in Hx, Hy. subst. eexists. split; [reflexivity|]. simpl. lia.
Qed.

Lemma compare_holds x y a b :
  holds x a -> holds y b -> Z.abs a < 2 ^ 53 -> Z.abs b < 2 ^ 53 ->
  compare x y = Some (a ?= b).
Proof.
  intros Hx Hy Ha Hb. destruct x as [i|f], y as [j|g]; simpl in *.
  - subst. f_equal. symmetry. apply pow_compare. lia.
  - destruct Hy as [-> _]. subst. now apply compare_int_dyadic.
  - destruct Hx as [-> _]. subst. rewrite compare_int_dyadic by done.
    simpl. f_equal. symmetry. apply Z.compare_antisym.
  - destruct Hx as [-> _], Hy as [-> _]. now apply SFcompare_dyadic.
Qed.

Lemma lt_holds x y a b :
  holds x a -> holds y b -> Z.abs a < 2 ^ 53 -> Z.abs b < 2 ^ 53 ->
  lt x y = bool_decide (a < b).
Proof.
  intros Hx Hy Ha Hb. unfold lt. rewrite (compare_holds x y a b) by done.
  destruct (Z.compare_spec a b);
    [rewrite bool_decide_eq_false_2|rewrite bool_decide_eq_true_2
    |rewrite bool_decide_eq_false_2]; done || lia.
Qed.

Lemma compare_inf x a : holds x a -> compare x inf = Some Lt.
Proof.
  destruct x as [i|f]; simpl; [done|]. intros [-> Ha].
  destruct (signed_cases a) as [->|(sx & p & -> & Habs)]; [reflexivity|].
  rewrite Habs in Ha. now destruct (dyadic_form sx p Ha) as (m & _ & ->).
Qed.

Lemma min_from_inf x a : holds x a -> min inf x = x.
Proof. intros Hx. unfold min, lt. now rewrite (compare_inf x a). Qed.

Lemma ne_inf x a : holds x a -> ne x inf = true.
Proof. intros Hx. unfold ne. now rewrite (compare_inf x a). Qed.

Lemma min_holds x y a b :
  holds x a -> holds y b -> Z.abs a < 2 ^ 53 -> Z.abs b < 2 ^ 53 ->
  holds (min x y) (Z.min a b).
Proof.
  intros Hx Hy Ha Hb. unfold min. rewrite (lt_holds y x b a) by done.
  case_bool_decide.
  - now rewrite Z.min_r by lia.
  - now rewrite Z.min_l by lia.
Qed.

End Scale.

End PyNumFacts.

(** ** The minimum-cost-flow engine: facts *)

Module MinCostFacts.
Import Py PyNum PyFacts PyNumFacts MinCostPushRelabel.

Definition X (e : engine) (u : Z) : Z := at1 (excess e) u.
Definition P (e : engine) (u : Z) : num := atn (potential e) u.
Definition F (e : engine) (u v : Z) : Z := at2 (flow e) u v.
Definition C (e : engine) (u v : Z) : Z := at2 (capacity e) u v.
Definition K (e : engine) (u v : Z) : Z := at2 (cost e) u v.

Definition vertex (e : engine) (a : Z) : Prop := 0 <= a < V e.

Record wf (e : engine) : Prop := {
  wf_excess : length (excess e) = Z.to_nat (V e);
  wf_potential : length (potential e) = Z.to_nat (V e);
  wf_flow : shape (V e) (flow e);
  wf_capacity : shape (V e) (capacity e);
  wf_cost : shape (V e) (cost e)
}.

Lemma mc_wf_init n : wf (init n).
Proof. split; simpl; auto using length_zeros, shape_zeros2. Qed.

Lemma mc_wf_set_excess e u x : wf e -> wf (set_excess (upd1 (excess e) u x) e).
Proof. intros [? ? ? ? ?]. split; simpl; rewrite ?length_upd1; done. Qed.

Lemma wf_set_potential e u x :
  wf e -> wf (set_potential (upd1 (potential e) u x) e).
Proof. intros [? ? ? ? ?]. split; simpl; rewrite ?length_upd1; done. Qed.

Lemma mc_wf_set_flow e u v x : wf e -> wf (set_flow (upd2 (flow e) u v x) e).
Proof. intros [? ? ? ? ?]. split; simpl; auto using shape_upd2. Qed.

Lemma mc_wf_set_capacity e u v x :
  wf e -> wf (set_capacity (upd2 (capacity e) u v x) e).
Proof. intros [? ? ? ? ?]. split; simpl; auto using shape_upd2. Qed.

Lemma wf_set_cost e u v x : wf e -> wf (set_cost (upd2 (cost e) u v x) e).
Proof. intros [? ? ? ? ?]. split; simpl; auto using shape_upd2. Qed.

Lemma mc_wf_set_graph e g : wf e -> wf (set_graph g e).
Proof. intros [? ? ? ? ?]. split; simpl; done. Qed.

Lemma wf_set_supply_list e l : wf e -> wf (set_supply_list l e).
Proof. intros [? ? ? ? ?]. split; simpl; done. Qed.

Lemma wf_set_demand e l : wf e -> wf (set_demand l e).
Proof. intros [? ? ? ? ?]. split; simpl; done. Qed.

#[local] Hint Resolve mc_wf_set_excess wf_set_potential mc_wf_set_flow
  mc_wf_set_capacity wf_set_cost mc_wf_set_graph wf_set_supply_list
  wf_set_demand : core.

Lemma mc_rd_excess_ok e u :
  wf e -> 0 <= u < V e -> rd_excess u e = Ok (X e u) e.
Proof.
  intros [Hx _ _ _ _] Hu. unfold rd_excess, X.
  rewrite getitem_at1 by lia. done.
Qed.

Lemma mc_wr_excess_ok e u x :
  wf e -> 0 <= u < V e ->
  wr_excess u x e = Ok tt (set_excess (upd1 (excess e) u x) e).
Proof.
  intros [Hx _ _ _ _] Hu. unfold wr_excess.
  rewrite setitem_in by lia. done.
Qed.

Lemma rd_potential_ok e u :
  wf e -> 0 <= u < V e -> rd_potential u e = Ok (P e u) e.
Proof.
  intros [_ Hp _ _ _] Hu. unfold rd_potential, P.
  rewrite getitem_atn by lia. done.
Qed.

Lemma wr_potential_ok e u x :
  wf e -> 0 <= u < V e ->
  wr_potential u x e = Ok tt (set_potential (upd1 (potential e) u x) e).
Proof.
  intros [_ Hp _ _ _] Hu. unfold wr_potential.
  rewrite setitem_in by lia. done.
Qed.

Lemma mc_rd_flow_ok e u v :
  wf e -> 0 <= u < V e -> 0 <= v < V e -> rd_flow u v e = Ok (F e u v) e.
Proof.
  intros [_ _ Hf _ _] Hu Hv. unfold rd_flow, F.
  erewrite getitem2_at2 by eauto. done.
Qed.

Lemma mc_wr_flow_ok e u v x :
  wf e -> 0 <= u < V e -> 0 <= v < V e ->
  wr_flow u v x e = Ok tt (set_flow (upd2 (flow e) u v x) e).
Proof.
  intros [_ _ Hf _ _] Hu Hv. unfold wr_flow.
  erewrite setitem2_in by eauto. done.
Qed.

Lemma mc_rd_capacity_ok e u v :
  wf e -> 0 <= u < V e -> 0 <= v < V e -> rd_capacity u v e = Ok (C e u v) e.
Proof.
  intros [_ _ _ Hc _] Hu Hv. unfold rd_capacity, C.
  erewrite getitem2_at2 by eauto. done.
Qed.

Lemma mc_wr_capacity_ok e u v x :
  wf e -> 0 <= u < V e -> 0 <= v < V e ->
  wr_capacity u v x e = Ok tt (set_capacity (upd2 (capacity e) u v x) e).
Proof.
  intros [_ _ _ Hc _] Hu Hv. unfold wr_capacity.
  erewrite setitem2_in by eauto. done.
Qed.

Lemma rd_cost_ok e u v :
  wf e -> 0 <= u < V e -> 0 <= v < V e -> rd_cost u v e = Ok (K e u v) e.
Proof.
  intros [_ _ _ _ Hk] Hu Hv. unfold rd_cost, K.
  erewrite getitem2_at2 by eauto. done.
Qed.

Lemma wr_cost_ok e u v x :
  wf e -> 0 <= u < V e -> 0 <= v < V e ->
  wr_cost u v x e = Ok tt (set_cost (upd2 (cost e) u v x) e).
Proof.
  intros [_ _ _ _ Hk] Hu Hv. unfold wr_cost.
  erewrite setitem2_in by eauto. done.
Qed.

Lemma mc_X_upd e u x a :
  wf e -> 0 <= u < V e -> 0 <= a < V e ->
  X (set_excess (upd1 (excess e) u x) e) a = if decide (a = u) then x else X e a.
Proof.
  intros [Hx _ _ _ _] Hu Ha. unfold X. simpl. apply at1_upd1; lia.
Qed.

Lemma P_upd e u x a :
  wf e -> 0 <= u < V e -> 0 <= a < V e ->
  P (set_potential (upd1 (potential e) u x) e) a
  = if decide (a = u) then x else P e a.
Proof.
  intros [_ Hp _ _ _] Hu Ha. unfold P. simpl. apply atn_upd1; lia.
Qed.

Lemma mc_F_upd e u v x a b :
  wf e -> 0 <= u < V e -> 0 <= v < V e -> 0 <= a < V e -> 0 <= b < V e ->
  F (set_flow (upd2 (flow e) u v x) e) a b
  = if decide (a = u /\ b = v) then x else F e a b.
Proof.
  intros [_ _ Hf _ _] Hu Hv Ha Hb. unfold F. simpl. eapply at2_upd2; eauto.
Qed.

Lemma K_upd e u v x a b :
  wf e -> 0 <= u < V e -> 0 <= v < V e -> 0 <= a < V e -> 0 <= b < V e ->
  K (set_cost (upd2 (cost e) u v x) e) a b
  = if decide (a = u /\ b = v) then x else K e a b.
Proof.
  intros [_ _ _ _ Hk] Hu Hv Ha Hb. unfold K. simpl. eapply at2_upd2; eauto.
Qed.

Lemma mc_C_upd e u v x a b :
  wf e -> 0 <= u < V e -> 0 <= v < V e -> 0 <= a < V e -> 0 <= b < V e ->
  C (set_capacity (upd2 (capacity e) u v x) e) a b
  = if decide (a = u /\ b = v) then x else C e a b.
Proof.
  intros [_ _ _ Hc _] Hu Hv Ha Hb. unfold C. simpl. eapply at2_upd2; eauto.
Qed.

(** The value of [_reduced_cost(u, v)], or the exception its
    arithmetic raises. *)
Definition rc (e : engine) (u v : Z) : exn + num :=
  match add (Int (K e u v)) (P e u) with
  | inl err => inl err
  | inr s => sub s (P e v)
  end.

(** The outcome of a step that either raises, leaving the engine as it
    is, or moves to a new engine. *)
Definition outcome (r : exn + engine) (e : engine) : res engine unit :=
  match r with
  | inl err => Raise err e
  | inr e' => Ok tt e'
  end.

Ltac side := solve [ done | simpl; lia | eauto 10 ].
Ltac step :=
  lazymatch goal with
  | |- (?m ≫= ?k) ?e = _ =>
      erewrite (bind_ok m k e);
      [ | first [ apply mc_rd_excess_ok | apply mc_wr_excess_ok
                | apply rd_potential_ok | apply wr_potential_ok
                | apply mc_rd_flow_ok | apply mc_wr_flow_ok
                | apply mc_rd_capacity_ok | apply mc_wr_capacity_ok
                | apply rd_cost_ok | apply wr_cost_ok
                | reflexivity ]; side ];
      cbv beta
  end.

Ltac xstep :=
  lazymatch goal with
  | |- exists _, (?m ≫= ?k) ?e = _ =>
      eapply (bind_ok_ex m k e);
      [ first [ apply mc_rd_excess_ok | apply mc_wr_excess_ok
              | apply rd_potential_ok | apply wr_potential_ok
              | apply mc_rd_flow_ok | apply mc_wr_flow_ok
              | apply mc_rd_capacity_ok | apply mc_wr_capacity_ok
              | apply rd_cost_ok | apply wr_cost_ok
              | reflexivity ]; side
      | cbv beta ]
  end.

Lemma reduced_cost_ok e u v :
  wf e -> 0 <= u < V e -> 0 <= v < V e ->
  _reduced_cost u v e = lift_sum (rc e u v) e.
Proof.
  intros Hwf Hu Hv. unfold _reduced_cost, rc. do 2 step.
  destruct (add (Int (K e u v)) (P e u)) as [err|s]; [done|].
  do 2 step. done.
Qed.

(** The state left by [push(u, v)]. *)
Definition push_delta (e : engine) (u v : Z) : Z :=
  Z.min (X e u) (C e u v - F e u v).

(** Moving [d] units along [(u, v)]: the four updates shared by
    [push] and by the saturation step of [refine]. *)
Definition moved (e : engine) (u v d : Z) : engine :=
  let e1 := set_flow (upd2 (flow e) u v (F e u v + d)) e in
  let e2 := set_flow (upd2 (flow e1) v u (F e1 v u - d)) e1 in
  let e3 := set_excess (upd1 (excess e2) u (X e2 u - d)) e2 in
  set_excess (upd1 (excess e3) v (X e3 v + d)) e3.

Definition pushed (e : engine) (u v : Z) : engine :=
  moved e u v (push_delta e u v).

Lemma wf_moved e u v d : wf e -> wf (moved e u v d).
Proof. intros Hwf. unfold moved. cbv zeta. auto 10. Qed.

Lemma mc_push_ok e u v :
  wf e -> 0 <= u < V e -> 0 <= v < V e -> push u v e = Ok tt (pushed e u v).
Proof.
  intros Hwf Hu Hv. unfold push.
  repeat step. rewrite mc_wr_excess_ok by side. reflexivity.
Qed.

Lemma F_moved e u v d a b :
  wf e -> 0 <= u < V e -> 0 <= v < V e -> 0 <= a < V e -> 0 <= b < V e ->
  F (moved e u v d) a b =
    if decide (u = v) then F e a b
    else if decide (a = u /\ b = v) then F e u v + d
    else if decide (a = v /\ b = u) then F e v u - d
    else F e a b.
Proof.
  intros Hwf Hu Hv Ha Hb.
  set (e1 := set_flow (upd2 (flow e) u v (F e u v + d)) e).
  assert (Hwf1 : wf e1) by (subst e1; auto).
  change (F (moved e u v d) a b)
    with (F (set_flow (upd2 (flow e1) v u (F e1 v u - d)) e1) a b).
  rewrite mc_F_upd by side.
  subst e1. rewrite !mc_F_upd by side.
  repeat case_decide; try lia; try done.
  all: destruct_and?; subst; try lia; try tauto.
Qed.

Lemma X_moved e u v d a :
  wf e -> 0 <= u < V e -> 0 <= v < V e -> 0 <= a < V e ->
  X (moved e u v d) a =
    if decide (u = v) then X e a
    else if decide (a = u) then X e u - d
    else if decide (a = v) then X e v + d
    else X e a.
Proof.
  intros Hwf Hu Hv Ha.
  set (e1 := set_flow (upd2 (flow e) u v (F e u v + d)) e).
  set (e2 := set_flow (upd2 (flow e1) v u (F e1 v u - d)) e1).
  assert (Hwf2 : wf e2) by (subst e2 e1; auto).
  set (e3 := set_excess (upd1 (excess e2) u (X e2 u - d)) e2).
  assert (Hwf3 : wf e3) by (subst e3; auto).
  change (X (moved e u v d) a)
    with (X (set_excess (upd1 (excess e3) v (X e3 v + d)) e3) a).
  rewrite mc_X_upd by side.
  subst e3. rewrite !mc_X_upd by side.
  change (X e2) with (X e).
  repeat case_decide; subst; try lia; try done.
Qed.

(** *** The saturation step of [refine] *)

(** The only exception of the arithmetic of a reduced cost is
    [OverflowError]. *)
Lemma to_float_error x err : to_float x = inl err -> err = OverflowError.
Proof.
  destruct x as [z|f]; [|done]. unfold to_float, float_of_int.
  destruct (binary_normalize _ _ _ _ _); congruence.
Qed.

Lemma float_op_error op x y err :
  float_op op x y = inl err -> err = OverflowError.
Proof.
  unfold float_op.
  destruct (to_float x) as [e1|fx] eqn:Hx.
  - intros [= <-]. now apply to_float_error in Hx.
  - destruct (to_float y) as [e2|fy] eqn:Hy; [|done].
    intros [= <-]. now apply to_float_error in Hy.
Qed.

Lemma add_error x y err : add x y = inl err -> err = OverflowError.
Proof.
  destruct x, y; try done; apply float_op_error.
Qed.

Lemma sub_error x y err : sub x y = inl err -> err = OverflowError.
Proof.
  destruct x, y; try done; apply float_op_error.
Qed.

Lemma rc_error e u v err : rc e u v = inl err -> err = OverflowError.
Proof.
  unfold rc. destruct (add _ _) as [err'|s] eqn:Hadd.
  - intros [= <-]. now apply add_error in Hadd.
  - apply sub_error.
Qed.

(** What [saturate_arc(u, v)] does once the reduced cost [r] is
    known. *)
Definition arc_saturated (r : num) (e : engine) (u v : Z) : engine :=
  if lt r (Int 0) then
    if decide (C e u v - F e u v > 0) then moved e u v (C e u v - F e u v)
    else e
  else e.

Lemma saturate_arc_ok e u v :
  wf e -> 0 <= u < V e -> 0 <= v < V e ->
  saturate_arc u v e
  = match rc e u v with
    | inl err => Raise err e
    | inr r => Ok tt (arc_saturated r e u v)
    end.
Proof.
  intros Hwf Hu Hv. unfold saturate_arc, arc_saturated.
  unfold mbind at 1, M_bind at 1. rewrite reduced_cost_ok by done.
  destruct (rc e u v) as [err|r]; [done|]. cbn [lift_sum mret M_ret].
  destruct (lt r (Int 0)); [|done].
  do 2 step. cbv zeta. case_decide; [|done].
  repeat step. rewrite mc_wr_excess_ok by side. reflexivity.
Qed.

Lemma wf_arc_saturated r e u v : wf e -> wf (arc_saturated r e u v).
Proof.
  intros Hwf. unfold arc_saturated.
  destruct (lt r (Int 0)); [|done]. case_decide; auto using wf_moved.
Qed.

Lemma frame_arc_saturated r e u v :
  V (arc_saturated r e u v) = V e /\ graph (arc_saturated r e u v) = graph e.
Proof.
  unfold arc_saturated.
  destruct (lt r (Int 0)); [|done]. now case_decide.
Qed.

Lemma skew_moved e u v d :
  wf e -> 0 <= u < V e -> 0 <= v < V e ->
  skew (V e) (flow e) -> skew (V e) (flow (moved e u v d)).
Proof.
  intros Hwf Hu Hv Hsk a b Ha Hb.
  fold (F (moved e u v d) b a) (F (moved e u v d) a b).
  rewrite !F_moved by done.
  pose proof (Hsk a b Ha Hb) as Hab. pose proof (Hsk u v Hu Hv) as Huv.
  fold (F e b a) (F e a b) in Hab. fold (F e v u) (F e u v) in Huv.
  repeat case_decide; destruct_and?; subst; try lia; tauto.
Qed.

Lemma skew_arc_saturated r e u v :
  wf e -> 0 <= u < V e -> 0 <= v < V e ->
  skew (V e) (flow e) -> skew (V e) (flow (arc_saturated r e u v)).
Proof.
  intros Hwf Hu Hv Hsk. unfold arc_saturated.
  destruct (lt r (Int 0)); [|done]. case_decide; [|done].
  now apply skew_moved.
Qed.

(** Every entry of the adjacency lists of the vertices is a vertex. *)
Definition adj_ok (e : engine) : Prop :=
  forall u v, vertex e u -> v ∈ adj (graph e) u -> vertex e v.

(** A run that ended, normally or with [OverflowError], in a state
    that satisfies [I]. *)
Definition ended {S A} (I : S -> Prop) (r : res S A) : Prop :=
  match r with
  | Ok _ s => I s
  | Raise err s => err = OverflowError /\ I s
  | Timeout => False
  end.

Lemma for_each_ended {S A} (I : S -> Prop) (l : list A) (body : A -> M S unit) :
  (forall x s, x ∈ l -> I s -> ended I (body x s)) ->
  forall s, I s -> ended I (for_each l body s).
Proof.
  induction l as [|x l IH]; intros Hbody s Hs; [done|].
  cbn [for_each]. unfold mbind, M_bind.
  pose proof (Hbody x s (list_elem_of_here _ _) Hs) as Hx.
  destruct (body x s) as [[] s1|err s1|]; [|done|done].
  apply IH; [|done]. intros y s0 Hy. apply Hbody. now right.
Qed.

(** The saturation step ends, normally or with [OverflowError] from a
    reduced cost, and leaves the flow matrix skew-symmetric. *)
Lemma saturate_skew e :
  wf e -> adj_ok e -> skew (V e) (flow e) ->
  ended (fun e' => wf e' /\ V e' = V e /\ graph e' = graph e
                   /\ skew (V e') (flow e')) (saturate e).
Proof.
  intros Hwf Hadj Hsk. unfold saturate.
  set (I := fun e' : engine =>
              wf e' /\ V e' = V e /\ graph e' = graph e
              /\ skew (V e') (flow e')).
  unfold mbind, M_bind, get.
  apply (for_each_ended I); [|done].
  intros u e1 Hu%elem_of_range (Hwf1 & HV1 & Hg1 & Hsk1).
  unfold mbind, M_bind, get. rewrite Hg1.
  apply (for_each_ended I); [|done].
  intros v e2 Hv (Hwf2 & HV2 & Hg2 & Hsk2).
  assert (Hv' : vertex e v) by (now apply (Hadj u v)).
  unfold vertex in Hv'.
  rewrite saturate_arc_ok by (try done; lia).
  destruct (rc e2 u v) as [err|r] eqn:Hrc.
  - split; [now apply rc_error in Hrc|done].
  - destruct (frame_arc_saturated r e2 u v) as [HV3 Hg3].
    split; [now apply wf_arc_saturated|].
    split; [congruence|]. split; [congruence|].
    rewrite HV3. apply skew_arc_saturated; [done|lia..|done].
Qed.

(** *** [relabel] and the discharge sweep *)

Definition residual (e : engine) (u v : Z) : Z := C e u v - F e u v.

(** The arc [(u, v)] may carry a push: residual capacity and a reduced
    cost that Python finds negative. *)
Definition admissible (e : engine) (u v : Z) : Prop :=
  residual e u v > 0 /\ exists r, rc e u v = inr r /\ lt r (Int 0) = true.

(** The test of the discharge sweep on [(u, v)] ends without an
    exception and fails. *)
Definition passed_over (e : engine) (u v : Z) : Prop :=
  residual e u v > 0 -> exists r, rc e u v = inr r /\ lt r (Int 0) = false.

(** The value of [min_potential_diff] after the loop of [relabel] over
    [vs], or the exception a subtraction raised. *)
Fixpoint min_diff (e : engine) (u : Z) (vs : list Z) (acc : num)
  : exn + num :=
  match vs with
  | [] => inr acc
  | v :: vs' =>
      if decide (residual e u v > 0) then
        match sub (P e v) (Int (K e u v)) with
        | inl err => inl err
        | inr d => min_diff e u vs' (min acc d)
        end
      else min_diff e u vs' acc
  end.

Definition relabeled (e : engine) (u : Z) (epsilon : num) : exn + engine :=
  match min_diff e u (adj (graph e) u) inf with
  | inl err => inl err
  | inr m =>
      if ne m inf then
        match sub m epsilon with
        | inl err => inl err
        | inr p => inr (set_potential (upd1 (potential e) u p) e)
        end
      else inr e
  end.

Lemma mc_relabel_scan_ok e u vs acc :
  wf e -> 0 <= u < V e -> (forall v, v ∈ vs -> 0 <= v < V e) ->
  relabel_scan u vs acc e = lift_sum (min_diff e u vs acc) e.
Proof.
  intros Hwf Hu. revert acc.
  induction vs as [|v vs IH]; intros acc Hvs; [done|].
  assert (Hv : 0 <= v < V e) by (apply Hvs; left).
  assert (Hvs' : forall w, w ∈ vs -> 0 <= w < V e)
    by (intros w Hw; apply Hvs; now right).
  cbn [relabel_scan min_diff]. do 2 step.
  unfold residual. case_decide; [|now apply IH].
  do 2 step.
  destruct (sub (P e v) (Int (K e u v))) as [err|d]; [done|].
  step. now apply IH.
Qed.

Lemma mc_relabel_ok e u epsilon :
  wf e -> 0 <= u < V e -> (forall v, v ∈ adj (graph e) u -> 0 <= v < V e) ->
  relabel u epsilon e = outcome (relabeled e u epsilon) e.
Proof.
  intros Hwf Hu Hadj. unfold relabel, relabeled. step.
  unfold mbind at 1, M_bind at 1. rewrite mc_relabel_scan_ok by done.
  destruct (min_diff e u (adj (graph e) u) inf) as [err|m]; [done|].
  cbn [lift_sum mret M_ret].
  destruct (ne m inf); [|done].
  destruct (sub m epsilon) as [err|p]; [done|].
  step. now apply wr_potential_ok.
Qed.

(** Without an arc of residual capacity the scan leaves its
    accumulator alone. *)
Lemma min_diff_spent e u vs acc :
  (forall v, v ∈ vs -> residual e u v <= 0) -> min_diff e u vs acc = inr acc.
Proof.
  induction vs as [|v vs IH]; intros Hvs; [done|].
  cbn [min_diff].
  rewrite decide_False by (specialize (Hvs v (list_elem_of_here _ _)); lia).
  apply IH. intros w Hw. apply Hvs. now right.
Qed.

(** **** Integer potentials

    Until [relabel] stores a float, every potential is the integer 0
    it was created as; called with an integer [epsilon], [relabel] keeps
    it so, and all the arithmetic of the engine is exact. *)

Definition integral (e : engine) : Prop :=
  forall a, vertex e a -> exists z, P e a = Int z.

Definition Pz (e : engine) (a : Z) : Z :=
  match P e a with
  | Int z => z
  | Float _ => 0
  end.

Lemma P_integral e a : integral e -> vertex e a -> P e a = Int (Pz e a).
Proof. intros Hint Ha. unfold Pz. now destruct (Hint a Ha) as [z ->]. Qed.

(** The reduced cost over the integers. *)
Definition rcz (e : engine) (u v : Z) : Z := K e u v + Pz e u - Pz e v.

Lemma rc_integral e u v :
  integral e -> vertex e u -> vertex e v -> rc e u v = inr (Int (rcz e u v)).
Proof.
  intros Hint Hu Hv. unfold rc, rcz.
  now rewrite (P_integral e u), (P_integral e v).
Qed.

Lemma lt_Int a b : lt (Int a) (Int b) = bool_decide (a < b).
Proof.
  unfold lt, compare. destruct (Z.compare_spec a b);
    [rewrite bool_decide_eq_false_2|rewrite bool_decide_eq_true_2
    |rewrite bool_decide_eq_false_2]; done || lia.
Qed.

(** [None] stands for [float('inf')]. *)
Definition of_bound (m : option Z) : num :=
  match m with
  | Some z => Int z
  | None => inf
  end.

Definition zmin (m : option Z) (d : Z) : option Z :=
  match m with
  | None => Some d
  | Some a => Some (Z.min a d)
  end.

Lemma min_of_bound m d : min (of_bound m) (Int d) = of_bound (zmin m d).
Proof.
  destruct m as [a|]; [|done]. unfold min. cbn [of_bound zmin].
  rewrite lt_Int. case_bool_decide; f_equal; lia.
Qed.

Definition zmin_diff (e : engine) (u : Z) (vs : list Z) (acc : option Z)
  : option Z :=
  foldl (fun acc v => if decide (residual e u v > 0)
                      then zmin acc (Pz e v - K e u v) else acc) acc vs.

Lemma min_diff_integral e u vs acc :
  integral e -> (forall v, v ∈ vs -> vertex e v) ->
  min_diff e u vs (of_bound acc) = inr (of_bound (zmin_diff e u vs acc)).
Proof.
  intros Hint. revert acc. induction vs as [|v vs IH]; intros acc Hvs; [done|].
  assert (Hv : vertex e v) by (apply Hvs; left).
  cbn [min_diff zmin_diff foldl]. fold (zmin_diff e u vs).
  case_decide.
  - rewrite (P_integral e v) by done. cbn [sub].
    rewrite min_of_bound. apply IH. intros w Hw. apply Hvs. now right.
  - apply IH. intros w Hw. apply Hvs. now right.
Qed.

Lemma zmin_diff_None e u vs acc :
  zmin_diff e u vs acc = None ->
  acc = None /\ forall v, v ∈ vs -> ~ residual e u v > 0.
Proof.
  revert acc. induction vs as [|v vs IH]; intros acc Hm.
  - split; [done|]. intros v Hv. now apply elem_of_nil in Hv.
  - cbn [zmin_diff foldl] in Hm. fold (zmin_diff e u vs) in Hm.
    apply IH in Hm as [Hacc Hvs].
    destruct (decide (residual e u v > 0)) as [Hr|Hr].
    + destruct acc; discriminate.
    + split; [done|]. intros w Hw.
      apply elem_of_cons in Hw as [->|Hw]; auto.
Qed.

Lemma zmin_diff_Some e u vs acc m :
  zmin_diff e u vs acc = Some m ->
  (acc = Some m
   \/ exists v, v ∈ vs /\ residual e u v > 0 /\ m = Pz e v - K e u v)
  /\ (forall a, acc = Some a -> m <= a)
  /\ (forall v, v ∈ vs -> residual e u v > 0 -> m <= Pz e v - K e u v).
Proof.
  revert acc. induction vs as [|v vs IH]; intros acc Hm.
  - cbn in Hm. subst acc. split; [now left|]. split.
    + intros a [= ->]. lia.
    + intros v Hv. now apply elem_of_nil in Hv.
  - cbn [zmin_diff foldl] in Hm. fold (zmin_diff e u vs) in Hm.
    apply IH in Hm as (Hatt & Hacc & Hvs).
    destruct (decide (residual e u v > 0)) as [Hr|Hr].
    + split; [|split].
      * destruct Hatt as [Hatt|(w & Hw & Hrw & Hmw)].
        -- destruct acc as [a|]; simpl in Hatt; injection Hatt as <-.
           ++ destruct (Z.min_spec a (Pz e v - K e u v)) as [[_ ->]|[_ ->]].
              ** now left.
              ** right. exists v. split; [left|done].
           ++ right. exists v. split; [left|done].
        -- right. exists w. split; [now right|done].
      * intros a ->. specialize (Hacc _ eq_refl). lia.
      * intros w Hw Hrw. apply elem_of_cons in Hw as [->|Hw]; [|auto].
        destruct acc as [a|]; specialize (Hacc _ eq_refl); lia.
    + split; [|split].
      * destruct Hatt as [Hatt|(w & Hw & Hrw & Hmw)]; [now left|].
        right. exists w. split; [now right|done].
      * done.
      * intros w Hw Hrw. apply elem_of_cons in Hw as [->|Hw]; [done|auto].
Qed.

(** **** The sweep *)

(** One iteration of the sweep of the discharge step. *)
Lemma push_all_cons e u v vs pushed q :
  wf e -> 0 <= u < V e -> 0 <= v < V e ->
  push_all u (v :: vs) pushed q e =
    if decide (residual e u v > 0) then
      match rc e u v with
      | inl err => Raise err e
      | inr r =>
          if lt r (Int 0) then
            push_all u vs true
              (if bool_decide (X (MinCostFacts.pushed e u v) v > 0)
                  && bool_decide (X e v <= 0)
               then q ++ [v] else q)
              (MinCostFacts.pushed e u v)
          else push_all u vs pushed q e
      end
    else push_all u vs pushed q e.
Proof.
  intros Hwf Hu Hv. cbn [push_all]. do 2 step.
  unfold residual. case_decide; [|done].
  unfold mbind at 1, M_bind at 1. rewrite reduced_cost_ok by done.
  destruct (rc e u v) as [err|r]; [done|]. cbn [lift_sum mret M_ret].
  destruct (lt r (Int 0)); [|done].
  step. erewrite bind_ok by now apply mc_push_ok.
  erewrite bind_ok
    by (apply mc_rd_excess_ok; [now apply wf_moved|exact Hv]).
  done.
Qed.

(** A sweep over arcs none of which passes the test pushes nothing. *)
Lemma push_all_none e u vs pushed active_nodes :
  wf e -> 0 <= u < V e -> (forall v, v ∈ vs -> 0 <= v < V e) ->
  (forall v, v ∈ vs -> passed_over e u v) ->
  push_all u vs pushed active_nodes e = Ok (pushed, active_nodes) e.
Proof.
  intros Hwf Hu. induction vs as [|v vs IH]; intros Hvs Hna; [done|].
  assert (Hv : 0 <= v < V e) by (apply Hvs; left).
  rewrite push_all_cons by done.
  assert (IH' : push_all u vs pushed active_nodes e
                = Ok (pushed, active_nodes) e).
  { apply IH; intros w Hw; [apply Hvs|apply Hna]; now right. }
  case_decide as Hr; [|done].
  destruct (Hna v (list_elem_of_here _ _) Hr) as (r & -> & ->). done.
Qed.

(** Once the flag is up it stays up. *)
Lemma push_all_true e u vs active_nodes b q e' :
  wf e -> 0 <= u < V e -> (forall v, v ∈ vs -> 0 <= v < V e) ->
  push_all u vs true active_nodes e = Ok (b, q) e' -> b = true.
Proof.
  intros Hwf Hu. revert active_nodes e Hwf Hu.
  induction vs as [|v vs IH]; intros an e Hwf Hu Hvs Hrun.
  - cbn in Hrun. now injection Hrun as <- _ _.
  - assert (Hv : 0 <= v < V e) by (apply Hvs; left).
    assert (Hvs' : forall w, w ∈ vs -> 0 <= w < V e)
      by (intros w Hw; apply Hvs; now right).
    rewrite push_all_cons in Hrun by done.
    case_decide; [|eauto].
    destruct (rc e u v) as [err|r]; [done|].
    destruct (lt r (Int 0)); [|eauto].
    eapply (IH _ (MinCostFacts.pushed e u v)); [now apply wf_moved|done..|exact Hrun].
Qed.

(** A sweep that reports no push passed over every arc and left the
    engine and the work list as they were. *)
Lemma push_all_false e u vs active_nodes q e' :
  wf e -> 0 <= u < V e -> (forall v, v ∈ vs -> 0 <= v < V e) ->
  push_all u vs false active_nodes e = Ok (false, q) e' ->
  e' = e /\ q = active_nodes /\ forall v, v ∈ vs -> passed_over e u v.
Proof.
  intros Hwf Hu. induction vs as [|v vs IH]; intros Hvs Hrun.
  - cbn in Hrun. injection Hrun as <- <-.
    split; [done|]. split; [done|]. intros v Hv. now apply elem_of_nil in Hv.
  - assert (Hv : 0 <= v < V e) by (apply Hvs; left).
    assert (Hvs' : forall w, w ∈ vs -> 0 <= w < V e)
      by (intros w Hw; apply Hvs; now right).
    rewrite push_all_cons in Hrun by done.
    destruct (decide (residual e u v > 0)) as [Hr|Hr].
    + destruct (rc e u v) as [err|r] eqn:Hrc; [done|].
      destruct (lt r (Int 0)) eqn:Hlt.
      * apply push_all_true in Hrun; [discriminate|now apply wf_moved|done..].
      * destruct (IH Hvs' Hrun) as (-> & -> & Hna).
        split; [done|]. split; [done|].
        intros w Hw. apply elem_of_cons in Hw as [->|Hw]; [|auto].
        intros _. eauto.
    + destruct (IH Hvs' Hrun) as (-> & -> & Hna).
      split; [done|]. split; [done|].
      intros w Hw. apply elem_of_cons in Hw as [->|Hw]; [|auto].
      intros Hr'. done.
Qed.

(** One round of the discharge loop. *)
Lemma discharge_S fuel e w epsilon q :
  wf e -> 0 <= w < V e ->
  discharge (S fuel) w epsilon q e =
    if decide (X e w > 0) then
      (r ← push_all w (adj (graph e) w) false q;
       (if fst r : bool then mret tt else relabel w epsilon);;
       discharge fuel w epsilon (snd r)) e
    else Ok q e.
Proof.
  intros Hwf Hw. cbn [discharge]. step.
  case_decide; [|done]. now step.
Qed.

(** *** Checkable well-formedness, for concrete engines *)

Definition shapeb (n : Z) (m : list (list Z)) : bool :=
  Nat.eqb (length m) (Z.to_nat n)
  && forallb (fun r => Nat.eqb (length r) (Z.to_nat n)) m.

Lemma shapeb_shape n m : shapeb n m = true -> shape n m.
Proof.
  unfold shapeb. intros [Hl Hr]%andb_true_iff.
  apply Nat.eqb_eq in Hl. split; [done|].
  intros r Hin. rewrite forallb_forall in Hr.
  apply Nat.eqb_eq, Hr. now apply list_elem_of_In.
Qed.

Definition wfb (e : engine) : bool :=
  Nat.eqb (length (excess e)) (Z.to_nat (V e))
  && Nat.eqb (length (potential e)) (Z.to_nat (V e))
  && shapeb (V e) (flow e) && shapeb (V e) (capacity e)
  && shapeb (V e) (cost e).

Lemma wfb_wf e : wfb e = true -> wf e.
Proof.
  unfold wfb. rewrite !andb_true_iff.
  intros ((((Hx & Hp) & Hf) & Hc) & Hk).
  split; auto using shapeb_shape; now apply Nat.eqb_eq.
Qed.

Definition in_range (n : Z) (v : Z) : bool := (0 <=? v) && (v <? n).

Definition adj_okb (e : engine) : bool :=
  forallb (fun u => forallb (in_range (V e)) (adj (graph e) u)) (range (V e)).

Lemma in_range_spec n v : in_range n v = true <-> 0 <= v < n.
Proof. unfold in_range. rewrite andb_true_iff. lia. Qed.

Lemma adj_okb_ok e : adj_okb e = true -> adj_ok e.
Proof.
  unfold adj_okb. intros Hb u v Hu Hv. rewrite forallb_forall in Hb.
  specialize (Hb u). rewrite forallb_forall in Hb.
  apply in_range_spec. apply Hb.
  - apply list_elem_of_In. now apply elem_of_range.
  - now apply list_elem_of_In.
Qed.

(** A two-vertex engine with one arc of capacity 5 and cost 3 and a
    supply of 2 at its tail. *)
Definition small_engine : engine :=
  match (add_edge 0 1 5 3;; set_supply 0 2) (init 2) with
  | Ok _ e => e
  | _ => init 2
  end.

(** A state that one round of the discharge loop maps to itself is
    never left: the loop uses up every budget. *)
Lemma discharge_repeats e u epsilon q :
  wf e -> 0 <= u < V e -> X e u > 0 ->
  push_all u (adj (graph e) u) false q e = Ok (false, q) e ->
  relabel u epsilon e = Ok tt e ->
  forall fuel, discharge fuel u epsilon q e = Timeout.
Proof.
  intros Hwf Hu Hx Hsweep Hrel fuel.
  induction fuel as [|fuel IH]; [done|].
  rewrite discharge_S by done. rewrite decide_True by done.
  erewrite bind_ok by exact Hsweep. cbn [fst snd].
  erewrite bind_ok by exact Hrel. exact IH.
Qed.

(** Integer potentials stay integers under [relabel] with an integer
    [epsilon]. *)
Lemma integral_set_potential e u z :
  wf e -> vertex e u -> integral e ->
  integral (set_potential (upd1 (potential e) u (Int z)) e).
Proof.
  intros Hwf Hu Hint a Ha. unfold vertex in *.
  change (V (set_potential _ e)) with (V e) in Ha.
  rewrite P_upd by done. case_decide; [eauto|]. now apply Hint.
Qed.

(** What the spec calls the minimum over the residual-capacity
    neighbours [v] of [potential[v] - cost[u][v]], for integer
    potentials. *)
Definition is_min_diff (e : engine) (u : Z) (m : Z) : Prop :=
  (exists v pv, v ∈ adj (graph e) u /\ residual e u v > 0
                /\ atn (potential e) v = Int pv /\ m = pv - K e u v)
  /\ (forall v, v ∈ adj (graph e) u -> residual e u v > 0 ->
        exists pv, atn (potential e) v = Int pv /\ m <= pv - K e u v).

(** The number 1.0. *)
Definition one : num := Float (S754_finite false 4503599627370496 (-52)).

(** One arc of capacity 1 and cost 2^53 from a supply node to a
    demand node. *)
Definition heavy_engine : engine :=
  match (add_edge 0 1 1 (2 ^ 53);; set_supply 0 1;; set_supply 1 (-1))
          (init 2) with
  | Ok _ e => e
  | _ => init 2
  end.

(** The same engine after [relabel(0, 1.0)]. *)
Definition heavy_relabeled : engine :=
  match relabel 0 one heavy_engine with
  | Ok _ e => e
  | _ => heavy_engine
  end.


(** On that engine the discharge loop of vertex 0 never ends. *)
Lemma heavy_discharge_stalls fuel :
  discharge fuel 0 one [] heavy_relabeled = Timeout.
Proof.
  apply discharge_repeats.
  - apply wfb_wf. vm_compute. reflexivity.
  - vm_compute. split; discriminate || reflexivity.
  - vm_compute. reflexivity.
  - vm_compute. reflexivity.
  - vm_compute. reflexivity.
Qed.

Lemma heavy_refine_stalls fuel : refine fuel one heavy_engine = Timeout.
Proof.
  unfold refine.
  assert (Hsat : saturate heavy_engine = Ok tt heavy_engine)
    by (vm_compute; reflexivity).
  erewrite bind_ok by exact Hsat. erewrite bind_ok by reflexivity.
  assert (Hact : active_of (excess heavy_engine) = [0])
    by (vm_compute; reflexivity).
  rewrite Hact. destruct fuel as [|fuel]; [done|].
  cbn [drain]. unfold mbind at 1, M_bind at 1.
  assert (Hwf : wf heavy_engine) by (apply wfb_wf; vm_compute; reflexivity).
  rewrite discharge_S by (try done; vm_compute; split; discriminate || reflexivity).
  rewrite decide_True by (vm_compute; reflexivity).
  assert (Hsweep : push_all 0 (adj (graph heavy_engine) 0) false [] heavy_engine
                   = Ok (false, []) heavy_engine) by (vm_compute; reflexivity).
  erewrite bind_ok by exact Hsweep. cbn [fst snd].
  assert (Hrel : relabel 0 one heavy_engine = Ok tt heavy_relabeled)
    by (vm_compute; reflexivity).
  erewrite bind_ok by exact Hrel.
  now rewrite heavy_discharge_stalls.
Qed.

(** **** Potentials that binary64 holds exactly

    When [relabel] has stored floats, the arithmetic of the engine is
    still exact as long as every number involved is a multiple of
    [2^-s] whose numerator stays below [2^53].  [pz a] is the numerator
    of [potential[a]], and [B] bounds the numerators of the potentials,
    of the costs and of [epsilon]. *)

Definition zmin_over (val : Z -> Z) (e : engine) (u : Z) (vs : list Z)
  (acc : option Z) : option Z :=
  foldl (fun acc v => if decide (residual e u v > 0)
                      then zmin acc (val v) else acc) acc vs.

Lemma zmin_over_None val e u vs acc :
  zmin_over val e u vs acc = None ->
  acc = None /\ forall v, v ∈ vs -> ~ residual e u v > 0.
Proof.
  revert acc. induction vs as [|v vs IH]; intros acc Hm.
  - split; [done|]. intros v Hv. now apply elem_of_nil in Hv.
  - cbn [zmin_over foldl] in Hm. fold (zmin_over val e u vs) in Hm.
    apply IH in Hm as [Hacc Hvs].
    destruct (decide (residual e u v > 0)) as [Hr|Hr].
    + destruct acc; discriminate.
    + split; [done|]. intros w Hw.
      apply elem_of_cons in Hw as [->|Hw]; auto.
Qed.

Lemma zmin_over_Some val e u vs acc m :
  zmin_over val e u vs acc = Some m ->
  (acc = Some m \/ exists v, v ∈ vs /\ residual e u v > 0 /\ m = val v)
  /\ (forall a, acc = Some a -> m <= a)
  /\ (forall v, v ∈ vs -> residual e u v > 0 -> m <= val v).
Proof.
  revert acc. induction vs as [|v vs IH]; intros acc Hm.
  - cbn in Hm. subst acc. split; [now left|]. split.
    + intros a [= ->]. lia.
    + intros v Hv. now apply elem_of_nil in Hv.
  - cbn [zmin_over foldl] in Hm. fold (zmin_over val e u vs) in Hm.
    apply IH in Hm as (Hatt & Hacc & Hvs).
    destruct (decide (residual e u v > 0)) as [Hr|Hr].
    + split; [|split].
      * destruct Hatt as [Hatt|(w & Hw & Hrw & Hmw)].
        -- destruct acc as [a|]; simpl in Hatt; injection Hatt as <-.
           ++ destruct (Z.min_spec a (val v)) as [[_ ->]|[_ ->]].
              ** now left.
              ** right. exists v. split; [left|done].
           ++ right. exists v. split; [left|done].
        -- right. exists w. split; [now right|done].
      * intros a ->. specialize (Hacc _ eq_refl). lia.
      * intros w Hw Hrw. apply elem_of_cons in Hw as [->|Hw]; [|auto].
        destruct acc as [a|]; specialize (Hacc _ eq_refl); simpl in Hacc; lia.
    + split; [|split; [done|]].
      * destruct Hatt as [Hatt|(w & Hw & Hrw & Hmw)]; [now left|].
        right. exists w. split; [now right|done].
      * intros w Hw Hrw. apply elem_of_cons in Hw as [->|Hw]; [done|auto].
Qed.

(** [m] is the least of the values [val v] over the neighbours [v] of
    [u] whose arc has residual capacity. *)
Definition is_min_of (val : Z -> Z) (e : engine) (u : Z) (m : Z) : Prop :=
  (exists v, v ∈ adj (graph e) u /\ residual e u v > 0 /\ m = val v)
  /\ (forall v, v ∈ adj (graph e) u -> residual e u v > 0 -> m <= val v).

Section Exact.
Variables (s B : Z) (e : engine) (pz : Z -> Z).
Hypothesis Hs : 0 <= s <= 1000.
Hypothesis HB : 3 * B < 2 ^ 53.
Hypothesis Hpot :
  forall a, vertex e a -> holds s (P e a) (pz a) /\ Z.abs (pz a) <= B.

(** The numerators of [cost[u][v]] and of the reduced cost. *)
Definition kz (u v : Z) : Z := K e u v * 2 ^ s.
Definition rcs (u v : Z) : Z := kz u v + pz u - pz v.

Lemma rc_exact u v :
  vertex e u -> vertex e v -> Z.abs (kz u v) <= B ->
  exists r, rc e u v = inr r /\ holds s r (rcs u v)
            /\ Z.abs (rcs u v) < 2 ^ 53.
Proof.
  intros Hu Hv Hk. destruct (Hpot u Hu) as [Hpu Hbu].
  destruct (Hpot v Hv) as [Hpv Hbv]. unfold rc.
  destruct (add_holds s Hs (Int (K e u v)) (P e u) (kz u v) (pz u))
    as (r1 & -> & Hr1); [done|done|lia|lia|lia|].
  destruct (sub_holds s Hs r1 (P e v) (kz u v + pz u) (pz v))
    as (r & -> & Hr); [done|done|lia|lia|lia|].
  exists r. split; [done|]. split; [done|]. unfold rcs. lia.
Qed.

(** [None] stands for [float('inf')]. *)
Definition bound_held (x : num) (o : option Z) : Prop :=
  match o with
  | None => x = inf
  | Some z => holds s x z /\ Z.abs z <= 2 * B
  end.

Lemma min_diff_exact u vs acc o :
  (forall v, v ∈ vs -> vertex e v /\ Z.abs (kz u v) <= B) ->
  bound_held acc o ->
  exists m, min_diff e u vs acc = inr m
            /\ bound_held m (zmin_over (fun v => pz v - kz u v) e u vs o).
Proof.
  revert acc o. induction vs as [|v vs IH]; intros acc o Hvs Hacc.
  - now exists acc.
  - destruct (Hvs v) as [Hv Hk]; [left|].
    assert (Hvs' : forall w, w ∈ vs -> vertex e w /\ Z.abs (kz u w) <= B)
      by (intros w Hw; apply Hvs; now right).
    cbn [min_diff zmin_over foldl].
    fold (zmin_over (fun v => pz v - kz u v) e u vs).
    case_decide; [|now apply IH].
    destruct (Hpot v Hv) as [Hpv Hbv].
    destruct (sub_holds s Hs (P e v) (Int (K e u v)) (pz v) (kz u v))
      as (d & -> & Hd); [done|done|lia|lia|lia|].
    apply IH; [done|].
    destruct o as [a|]; simpl in Hacc; cbn [zmin bound_held].
    + destruct Hacc as [Ha Hba]. split; [|lia].
      apply min_holds; [done|done|done|lia|lia].
    + subst acc. rewrite (min_from_inf s Hs d (pz v - kz u v)) by done.
      split; [done|lia].
Qed.

Lemma relabel_exact u epsilon k fuel active_nodes q e1 :
  wf e -> vertex e u ->
  (forall v, v ∈ adj (graph e) u -> vertex e v /\ Z.abs (kz u v) <= B) ->
  holds s epsilon k -> 2 ^ s <= k <= B ->
  X e u > 0 ->
  (exists v, v ∈ adj (graph e) u /\ residual e u v > 0) ->
  push_all u (adj (graph e) u) false active_nodes e = Ok (false, q) e1 ->
  exists e2 m pn,
    discharge (S fuel) u epsilon active_nodes e
    = discharge fuel u epsilon active_nodes e2
    /\ relabel u epsilon e = Ok tt e2
    /\ is_min_of (fun v => pz v - kz u v) e u m
    /\ atn (potential e2) u = pn
    /\ holds s pn (m - k)
    /\ m - k < pz u
    /\ lt pn (atn (potential e) u) = true.
Proof.
  intros Hwf Hu Hadj Heps Hk Hx (w & Hw & Hrw) Hsweep.
  assert (Hadj' : forall v, v ∈ adj (graph e) u -> vertex e v)
    by (intros v Hv; now apply Hadj).
  assert (H2 : 0 < 2 ^ s) by (apply Z.pow_pos_nonneg; lia).
  destruct (push_all_false e u _ _ _ _ Hwf Hu Hadj' Hsweep) as (-> & -> & Hna).
  destruct (min_diff_exact u (adj (graph e) u) inf None Hadj eq_refl)
    as (mn & Hmd & Hmn).
  destruct (zmin_over (fun v => pz v - kz u v) e u (adj (graph e) u) None)
    as [m|] eqn:Hm.
  2:{ apply zmin_over_None in Hm as [_ Hm]. now destruct (Hm w Hw). }
  destruct Hmn as [Hmn Hbm].
  destruct (Hpot u Hu) as [Hpu Hbu].
  destruct (sub_holds s Hs mn epsilon m k) as (pn & Hsub & Hpn);
    [done|done|lia|lia|lia|].
  pose proof (mc_relabel_ok e u epsilon Hwf Hu Hadj') as Hrel.
  unfold relabeled in Hrel. rewrite Hmd in Hrel.
  rewrite (ne_inf s Hs mn m Hmn), Hsub in Hrel. cbn [outcome] in Hrel.
  set (e2 := set_potential (upd1 (potential e) u pn) e) in *.
  exists e2, m, pn.
  apply zmin_over_Some in Hm as (Hatt & _ & Hle).
  destruct Hatt as [|(v0 & Hv0 & Hr0 & Hm0)]; [discriminate|].
  assert (Hlow : m - k < pz u).
  { destruct (Hna v0 Hv0 Hr0) as (r & Hrc & Hlt).
    destruct (Hadj v0 Hv0) as [Hv0' Hk0].
    destruct (rc_exact u v0 Hu Hv0' Hk0) as (r' & Hrc' & Hr' & Hbr).
    rewrite Hrc in Hrc'. injection Hrc' as <-.
    rewrite (lt_holds s Hs r (Int 0) (rcs u v0) 0) in Hlt;
      [|done|simpl; lia|done|lia].
    apply bool_decide_eq_false in Hlt. unfold rcs in Hlt. lia. }
  split; [|split; [done|split; [|split; [|split; [done|split; [done|]]]]]].
  - rewrite discharge_S by done. rewrite decide_True by done.
    erewrite bind_ok by exact Hsweep. cbn [fst snd].
    erewrite bind_ok by exact Hrel. done.
  - split; [|done]. now exists v0.
  - change (P e2 u = pn). subst e2. rewrite P_upd by done.
    now rewrite decide_True.
  - change (lt pn (P e u) = true).
    rewrite (lt_holds s Hs pn (P e u) (m - k) (pz u)) by (done || lia).
    now apply bool_decide_eq_true.
Qed.

End Exact.

(** With integer potentials and an integer [epsilon], [relabel] in the
    discharge loop stores the minimum minus [epsilon], exactly, and that
    is below the previous potential. *)
Lemma relabel_integral e u k fuel active_nodes q e1 :
  wf e -> vertex e u -> (forall v, v ∈ adj (graph e) u -> vertex e v) ->
  integral e ->
  X e u > 0 -> 1 <= k ->
  (exists v, v ∈ adj (graph e) u /\ residual e u v > 0) ->
  push_all u (adj (graph e) u) false active_nodes e = Ok (false, q) e1 ->
  exists e2 m p0,
    discharge (S fuel) u (Int k) active_nodes e
    = discharge fuel u (Int k) active_nodes e2
    /\ relabel u (Int k) e = Ok tt e2
    /\ is_min_diff e u m
    /\ atn (potential e2) u = Int (m - k)
    /\ atn (potential e) u = Int p0
    /\ m - k < p0
    /\ integral e2.
Proof.
  intros Hwf Hu Hadj Hint Hx Heps (w & Hw & Hrw) Hsweep.
  destruct (push_all_false e u _ _ _ _ Hwf Hu Hadj Hsweep) as (-> & -> & Hna).
  pose proof (min_diff_integral e u (adj (graph e) u) None Hint Hadj) as Hmd.
  cbn [of_bound] in Hmd.
  destruct (zmin_diff e u (adj (graph e) u) None) as [m|] eqn:Hm.
  2:{ apply zmin_diff_None in Hm as [_ Hm]. now destruct (Hm w Hw). }
  cbn [of_bound] in Hmd.
  pose proof (mc_relabel_ok e u (Int k) Hwf Hu Hadj) as Hrel.
  unfold relabeled in Hrel. rewrite Hmd in Hrel.
  change (ne (Int m) inf) with true in Hrel. cbn [sub outcome] in Hrel.
  set (e2 := set_potential (upd1 (potential e) u (Int (m - k))) e) in *.
  exists e2, m, (Pz e u).
  apply zmin_diff_Some in Hm as (Hatt & _ & Hle).
  destruct Hatt as [|(v0 & Hv0 & Hr0 & Hm0)]; [discriminate|].
  assert (HP : P e2 u = Int (m - k)).
  { subst e2. rewrite P_upd by done. now rewrite decide_True. }
  split; [|split; [done|split; [|split; [|split; [|split]]]]].
  - rewrite discharge_S by done. rewrite decide_True by done.
    erewrite bind_ok by exact Hsweep. cbn [fst snd].
    erewrite bind_ok by exact Hrel. done.
  - split.
    + exists v0, (Pz e v0). split; [done|]. split; [done|]. split; [|done].
      apply (P_integral e v0); auto.
    + intros v Hv Hr. exists (Pz e v). split; [apply (P_integral e v); auto|].
      now apply Hle.
  - exact HP.
  - now apply (P_integral e u).
  - destruct (Hna v0 Hv0 Hr0) as (r & Hrc & Hlt).
    rewrite rc_integral in Hrc by auto. injection Hrc as <-.
    rewrite lt_Int in Hlt. apply bool_decide_eq_false in Hlt.
    unfold rcz in Hlt. lia.
  - now apply integral_set_potential.
Qed.


(** The number 2.5. *)
Definition two_and_a_half : num :=
  Float (S754_finite false 5629499534213120 (-51)).


(** *** Registration *)

Definition edge_added (e : engine) (u v cap k : Z) : engine :=
  let e1 := set_graph (adj_append (graph e) u v) e in
  let e2 := set_graph (adj_append (graph e1) v u) e1 in
  let e3 := set_capacity (upd2 (capacity e2) u v cap) e2 in
  let e4 := set_cost (upd2 (cost e3) u v k) e3 in
  set_cost (upd2 (cost e4) v u (- k)) e4.

Lemma mc_add_edge_ok e u v cap k :
  wf e -> vertex e u -> vertex e v ->
  add_edge u v cap k e = Ok tt (edge_added e u v cap k).
Proof.
  intros Hwf Hu Hv. unfold vertex in *. unfold add_edge, graph_append.
  do 2 (erewrite bind_ok by reflexivity).
  repeat step. rewrite wr_cost_ok by side. reflexivity.
Qed.

Lemma wf_edge_added e u v cap k : wf e -> wf (edge_added e u v cap k).
Proof. intros Hwf. unfold edge_added. cbv zeta. auto 10. Qed.

Lemma set_supply_zero e u : set_supply u 0 e = Ok [zero_supply_message] e.
Proof. reflexivity. Qed.

Lemma mc_add_edge_out_of_range e u v cap k :
  wf e -> ~ (- V e <= u < V e) \/ ~ (- V e <= v < V e) ->
  add_edge u v cap k e
  = Raise IndexError
      (set_graph (adj_append (adj_append (graph e) u v) v u) e).
Proof.
  intros Hwf Hout. unfold add_edge, graph_append.
  do 2 (erewrite bind_ok by reflexivity).
  unfold mbind at 1, M_bind at 1.
  unfold wr_capacity. simpl.
  rewrite (setitem2_out (V e)); [done|apply Hwf|done].
Qed.

(** *** [min_cost_flow]: cost scaling *)

(** Number of times [b] is listed in [vs]. *)
Definition occ (b : Z) (vs : list Z) : nat := length (filter (fun x => x = b) vs).

Definition row_scaled (c : list (list Z)) (u : Z) (vs : list Z) (sf : Z)
  : list (list Z) :=
  foldl (fun c v => upd2 c u v (at2 c u v * sf)) c vs.

Definition scaled (c : list (list Z)) (g : gmap Z (list Z)) (us : list Z)
  (sf : Z) : list (list Z) :=
  foldl (fun c u => row_scaled c u (adj g u) sf) c us.

(** The value of [max_abs_cost] as the scaling loops leave it. *)
Fixpoint row_max (c : list (list Z)) (u : Z) (vs : list Z) (sf m : Z) : Z :=
  match vs with
  | [] => m
  | v :: vs' =>
      let c' := upd2 c u v (at2 c u v * sf) in
      row_max c' u vs' sf
              (if decide (Z.abs (at2 c' u v) > m) then Z.abs (at2 c' u v)
               else m)
  end.

Fixpoint costs_max (c : list (list Z)) (g : gmap Z (list Z)) (us : list Z)
  (sf m : Z) : Z :=
  match us with
  | [] => m
  | u :: us' =>
      costs_max (row_scaled c u (adj g u) sf) g us' sf
                (row_max c u (adj g u) sf m)
  end.

Lemma shape_row_scaled n c u vs sf : shape n c -> shape n (row_scaled c u vs sf).
Proof.
  revert c. induction vs as [|v vs IH]; intros c Hs; [done|].
  cbn [row_scaled foldl]. apply IH. now apply shape_upd2.
Qed.

Lemma shape_scaled n c g us sf : shape n c -> shape n (scaled c g us sf).
Proof.
  revert c. induction us as [|u us IH]; intros c Hs; [done|].
  cbn [scaled foldl]. apply IH. now apply shape_row_scaled.
Qed.

Lemma occ_cons b v vs :
  occ b (v :: vs) = ((if decide (v = b) then 1 else 0) + occ b vs)%nat.
Proof.
  unfold occ. rewrite filter_cons. case_decide; done.
Qed.

Lemma at2_row_scaled n c u vs sf a b :
  shape n c -> 0 <= u < n -> (forall v, v ∈ vs -> 0 <= v < n) ->
  0 <= a < n -> 0 <= b < n ->
  at2 (row_scaled c u vs sf) a b
  = if decide (a = u) then at2 c u b * sf ^ Z.of_nat (occ b vs) else at2 c a b.
Proof.
  intros Hs Hu Hvs Ha Hb. revert c Hs.
  induction vs as [|v vs IH]; intros c Hs.
  - cbn. case_decide; subst; lia.
  - cbn [row_scaled foldl]. fold (row_scaled (upd2 c u v (at2 c u v * sf)) u vs sf).
    assert (Hv : 0 <= v < n) by (apply Hvs; left).
    rewrite IH; [|intros w Hw; apply Hvs; now right|now apply shape_upd2].
    rewrite occ_cons.
    destruct (decide (a = u)) as [->|Hau].
    + rewrite (at2_upd2 n) by done.
      destruct (decide (v = b)) as [->|Hvb].
      * rewrite decide_True by done.
        replace (Z.of_nat (1 + occ b vs)) with (Z.succ (Z.of_nat (occ b vs))) by lia.
        rewrite Z.pow_succ_r by lia. lia.
      * rewrite decide_False by (intros [_ ?]; congruence). done.
    + rewrite (at2_upd2 n) by done. rewrite decide_False by tauto. done.
Qed.

Lemma at2_scaled n c g us sf a b :
  shape n c -> NoDup us -> (forall u, u ∈ us -> 0 <= u < n) ->
  (forall u v, u ∈ us -> v ∈ adj g u -> 0 <= v < n) ->
  0 <= a < n -> 0 <= b < n ->
  at2 (scaled c g us sf) a b
  = if decide (a ∈ us) then at2 c a b * sf ^ Z.of_nat (occ b (adj g a))
    else at2 c a b.
Proof.
  intros Hs Hnd Hus Hadj Ha Hb. revert c Hs.
  induction us as [|u us IH]; intros c Hs.
  - cbn. rewrite decide_False; [done|]. apply not_elem_of_nil.
  - apply NoDup_cons in Hnd as [Hu Hnd].
    cbn [scaled foldl]. fold (scaled (row_scaled c u (adj g u) sf) g us sf).
    rewrite IH; [|done|intros w Hw; apply Hus; now right
                 |intros w v Hw; apply Hadj; now right
                 |now apply shape_row_scaled].
    rewrite (at2_row_scaled n); try done;
      [|apply Hus; left|intros v Hv; apply (Hadj u); [left|done]].
    destruct (decide (a = u)) as [->|Hau].
    + rewrite decide_False by done. rewrite decide_True by left. done.
    + destruct (decide (a ∈ us)) as [Hin|Hin].
      * rewrite decide_True by now right. done.
      * rewrite decide_False; [done|].
        intros [?|?]%elem_of_cons; done.
Qed.

Lemma scale_row_ok e u vs sf m :
  wf e -> 0 <= u < V e -> (forall v, v ∈ vs -> 0 <= v < V e) ->
  scale_row u vs sf m e
  = Ok (row_max (cost e) u vs sf m)
       (set_cost (row_scaled (cost e) u vs sf) e).
Proof.
  intros Hwf Hu. revert e m Hwf Hu.
  induction vs as [|v vs IH]; intros e m Hwf Hu Hvs.
  - now destruct e.
  - assert (Hv : 0 <= v < V e) by (apply Hvs; left).
    set (e1 := set_cost (upd2 (cost e) u v (K e u v * sf)) e).
    assert (Hwf1 : wf e1) by (subst e1; auto).
    assert (Hvs1 : forall w, w ∈ vs -> 0 <= w < V e1)
      by (intros w Hw; apply Hvs; now right).
    cbn [scale_row row_max row_scaled foldl]. do 3 step. fold e1.
    change (at2 (upd2 (cost e) u v (at2 (cost e) u v * sf)) u v)
      with (K e1 u v).
    case_decide.
    + step. apply (IH e1 _ Hwf1 Hu Hvs1).
    + apply (IH e1 _ Hwf1 Hu Hvs1).
Qed.

Lemma scale_costs_ok e us sf m :
  wf e -> (forall u, u ∈ us -> 0 <= u < V e) ->
  (forall u v, u ∈ us -> v ∈ adj (graph e) u -> 0 <= v < V e) ->
  scale_costs us sf m e
  = Ok (costs_max (cost e) (graph e) us sf m)
       (set_cost (scaled (cost e) (graph e) us sf) e).
Proof.
  revert e m. induction us as [|u us IH]; intros e m Hwf Hus Hadj.
  - now destruct e.
  - cbn [scale_costs costs_max].
    pose proof (scale_row_ok e u (adj (graph e) u) sf m Hwf) as Hrow.
    set (e1 := set_cost (row_scaled (cost e) u (adj (graph e) u) sf) e) in *.
    assert (Hwf1 : wf e1).
    { destruct Hwf. split; try done. simpl. now apply shape_row_scaled. }
    erewrite bind_ok by reflexivity.
    erewrite bind_ok
      by (apply Hrow; [apply Hus; left|intros v Hv; apply (Hadj u); [left|done]]).
    apply (IH e1 _ Hwf1).
    { intros w Hw. apply Hus. now right. }
    { intros w v Hw. apply Hadj. now right. }
Qed.

(** *** [min_cost_flow]: the auxiliary graph and the call of [max_flow] *)

Lemma on_ok {A} (g g' : PushRelabel.engine) (m : M PushRelabel.engine A) a e :
  m g = Ok a g' -> on g m e = Ok (a, g') e.
Proof. intros H. unfold on. now rewrite H. Qed.

Lemma elem_of_product us vs u v :
  (u, v) ∈ product us vs <-> u ∈ us /\ v ∈ vs.
Proof.
  unfold product. rewrite list_elem_of_bind. split.
  - intros (a & Hin & Ha). apply list_elem_of_bind in Hin as (b & Hin & Hb).
    apply list_elem_of_singleton in Hin. injection Hin as -> ->. done.
  - intros [Hu Hv]. exists u. split; [|done].
    apply list_elem_of_bind. exists v. split; [|done].
    now apply list_elem_of_singleton.
Qed.

Lemma export_arcs_ok e g ps :
  wf e -> PushRelabelFacts.wf g -> V e <= PushRelabel.V g ->
  (forall u v, (u, v) ∈ ps -> 0 <= u < V e /\ 0 <= v < V e) ->
  exists g', export_arcs g ps e = Ok g' e
             /\ PushRelabelFacts.wf g' /\ PushRelabel.V g' = PushRelabel.V g.
Proof.
  intros Hwf. revert g. induction ps as [|[u v] ps IH]; intros g Hg HV Hps.
  - exists g. done.
  - destruct (Hps u v) as [Hu Hv]; [left|].
    assert (Hps' : forall a b, (a, b) ∈ ps -> 0 <= a < V e /\ 0 <= b < V e)
      by (intros a b Hab; apply Hps; now right).
    cbn [export_arcs]. 
    erewrite bind_ok by now apply mc_rd_capacity_ok.
    case_decide.
    + erewrite bind_ok by now apply mc_rd_capacity_ok.
      erewrite bind_ok
        by (apply on_ok, PushRelabelFacts.add_edge_ok;
            [done|unfold PushRelabelFacts.vertex; lia..]).
      cbn [snd].
      destruct (IH (PushRelabelFacts.edge_added g u v (C e u v)))
        as (g' & Hrun & Hg' & HV'); [|done|done|].
      { unfold PushRelabelFacts.edge_added. cbv zeta.
        auto using PushRelabelFacts.wf_set_capacity, PushRelabelFacts.wf_set_graph. }
      exists g'. split; [done|]. split; done.
    + now apply IH.
Qed.

Lemma connect_supply_ok e g source vs :
  wf e -> PushRelabelFacts.wf g -> V e <= PushRelabel.V g ->
  0 <= source < PushRelabel.V g -> (forall v, v ∈ vs -> 0 <= v < V e) ->
  exists g', connect_supply g source vs e = Ok g' e
             /\ PushRelabelFacts.wf g' /\ PushRelabel.V g' = PushRelabel.V g.
Proof.
  intros Hwf. revert g. induction vs as [|v vs IH]; intros g Hg HV Hs Hvs.
  - exists g. done.
  - assert (Hv : 0 <= v < V e) by (apply Hvs; left).
    cbn [connect_supply].
    erewrite bind_ok by now apply mc_rd_excess_ok.
    erewrite bind_ok
      by (apply on_ok, PushRelabelFacts.add_edge_ok;
          [done|unfold PushRelabelFacts.vertex; lia..]).
    cbn [snd].
    destruct (IH (PushRelabelFacts.edge_added g source v (Z.abs (X e v))))
      as (g' & Hrun & Hg' & HV'); [|done|done| |].
    { unfold PushRelabelFacts.edge_added. cbv zeta.
      auto using PushRelabelFacts.wf_set_capacity, PushRelabelFacts.wf_set_graph. }
    { intros w Hw. apply Hvs. now right. }
    exists g'. split; [done|]. split; done.
Qed.

Lemma connect_demand_ok e g sink us :
  wf e -> PushRelabelFacts.wf g -> V e <= PushRelabel.V g ->
  0 <= sink < PushRelabel.V g -> (forall u, u ∈ us -> 0 <= u < V e) ->
  exists g', connect_demand g sink us e = Ok g' e
             /\ PushRelabelFacts.wf g' /\ PushRelabel.V g' = PushRelabel.V g.
Proof.
  intros Hwf. revert g. induction us as [|u us IH]; intros g Hg HV Hs Hus.
  - exists g. done.
  - assert (Hu : 0 <= u < V e) by (apply Hus; left).
    cbn [connect_demand].
    erewrite bind_ok by now apply mc_rd_excess_ok.
    erewrite bind_ok
      by (apply on_ok, PushRelabelFacts.add_edge_ok;
          [done|unfold PushRelabelFacts.vertex; lia..]).
    cbn [snd].
    destruct (IH (PushRelabelFacts.edge_added g u sink (Z.abs (X e u))))
      as (g' & Hrun & Hg' & HV'); [|done|done| |].
    { unfold PushRelabelFacts.edge_added. cbv zeta.
      auto using PushRelabelFacts.wf_set_capacity, PushRelabelFacts.wf_set_graph. }
    { intros w Hw. apply Hus. now right. }
    exists g'. split; [done|]. split; done.
Qed.

(** An engine as the registration interface leaves it when all its
    arguments were vertices. *)
Record ready (e : engine) : Prop := {
  ready_V : 0 <= V e;
  ready_wf : wf e;
  ready_adj : adj_ok e;
  ready_supply : forall v, v ∈ supply e -> vertex e v;
  ready_demand : forall u, u ∈ demand e -> vertex e u
}.

(** The engine in which [min_cost_flow] stops. *)
Definition cost_scaled (e : engine) : engine :=
  set_cost (scaled (cost e) (graph e) (range (V e)) (V e)) e.

Lemma ready_cost_scaled e : ready e -> ready (cost_scaled e).
Proof.
  intros [HV Hwf Hadj Hs Hd]. split; try done.
  destruct Hwf. split; try done. simpl. now apply shape_scaled.
Qed.

(** The largest absolute value among the scaled costs, as
    [min_cost_flow] computes it. *)
Definition max_abs_cost (e : engine) : Z :=
  costs_max (cost e) (graph e) (range (V e)) (V e) 0.

(** The exception in which [min_cost_flow] ends: [OverflowError] at
    [float(max_abs_cost)] when that value does not fit a float, else
    [TypeError] at the call [g.max_flow()]. *)
Definition stops_with (e : engine) : exn :=
  match float (max_abs_cost e) with
  | inl _ => OverflowError
  | inr _ => TypeError
  end.

(** On every ready engine [min_cost_flow] ends in that exception,
    whatever the loop budget, after the costs have been scaled. *)
Lemma min_cost_flow_raises fuel alpha e :
  ready e -> min_cost_flow fuel alpha e = Raise (stops_with e) (cost_scaled e).
Proof.
  intros [HV Hwf Hadj Hs Hd]. unfold min_cost_flow, stops_with.
  erewrite bind_ok by reflexivity.
  erewrite bind_ok.
  2:{ apply scale_costs_ok; [done| |].
      - intros u Hu. now apply elem_of_range.
      - intros u v Hu%elem_of_range Hv. now apply (Hadj u v). }
  fold (cost_scaled e). fold (max_abs_cost e).
  set (e1 := cost_scaled e).
  assert (Hwf1 : wf e1).
  { destruct Hwf. split; try done. simpl. now apply shape_scaled. }
  cbv zeta.
  assert (Herr : forall err, float (max_abs_cost e) = inl err ->
                             err = OverflowError).
  { intros err. unfold float, float_of_int.
    destruct (binary_normalize _ _ _ _ _); congruence. }
  destruct (float (max_abs_cost e)) as [err|epsilon].
  { rewrite (Herr err eq_refl). reflexivity. }
  erewrite bind_ok by reflexivity.
  destruct (export_arcs_ok e1 (PushRelabel.init (V e + 2))
              (product (range (V e)) (range (V e))) Hwf1)
    as (g1 & Hexp & Hg1 & HV1).
  { apply PushRelabelFacts.wf_init. }
  { simpl. lia. }
  { intros u v [Hu Hv]%elem_of_product. split; now apply elem_of_range. }
  erewrite bind_ok by exact Hexp. erewrite bind_ok by reflexivity.
  simpl in HV1.
  destruct (connect_supply_ok e1 g1 (V e + 2 - 2) (supply e1) Hwf1 Hg1)
    as (g2 & Hsup & Hg2 & HV2).
  { rewrite HV1. simpl. lia. }
  { rewrite HV1. lia. }
  { intros v Hv. now apply Hs. }
  erewrite bind_ok by exact Hsup. erewrite bind_ok by reflexivity.
  destruct (connect_demand_ok e1 g2 (V e + 2 - 1) (demand e1) Hwf1 Hg2)
    as (g3 & Hdem & Hg3 & HV3).
  { rewrite HV2, HV1. simpl. lia. }
  { rewrite HV2, HV1. lia. }
  { intros v Hv. now apply Hd. }
  erewrite bind_ok by exact Hdem.
  reflexivity.
Qed.

(** Whatever the engine, [min_cost_flow] never returns: every path
    through it ends at the call [g.max_flow()] or at an earlier
    exception. *)
Lemma min_cost_flow_never_returns fuel alpha e r e' :
  min_cost_flow fuel alpha e <> Ok r e'.
Proof.
  unfold min_cost_flow. intros Hrun.
  apply bind_inv in Hrun as (e0 & e1 & _ & Hrun).
  apply bind_inv in Hrun as (m & e2 & _ & Hrun). cbv zeta in Hrun.
  apply bind_inv in Hrun as (epsilon & e2' & _ & Hrun).
  apply bind_inv in Hrun as (g1 & e3 & _ & Hrun).
  apply bind_inv in Hrun as (e4 & e5 & _ & Hrun).
  apply bind_inv in Hrun as (g2 & e6 & _ & Hrun).
  apply bind_inv in Hrun as (e7 & e8 & _ & Hrun).
  apply bind_inv in Hrun as (g3 & e9 & _ & Hrun).
  apply bind_inv in Hrun as (r0 & e10 & Hcall & _).
  unfold on, call_max_flow, raise in Hcall. discriminate.
Qed.

(** *** Checkable readiness, and the example engines *)

Definition readyb (e : engine) : bool :=
  (0 <=? V e) && wfb e && adj_okb e
  && forallb (in_range (V e)) (supply e)
  && forallb (in_range (V e)) (demand e).

Lemma readyb_ready e : readyb e = true -> ready e.
Proof.
  unfold readyb. rewrite !andb_true_iff.
  intros ((((HV & Hwf) & Hadj) & Hs) & Hd).
  split.
  - lia.
  - now apply wfb_wf.
  - now apply adj_okb_ok.
  - intros v Hv. rewrite forallb_forall in Hs.
    apply in_range_spec, Hs. now apply list_elem_of_In.
  - intros v Hv. rewrite forallb_forall in Hd.
    apply in_range_spec, Hd. now apply list_elem_of_In.
Qed.

(** The example of the [__main__] block with the demand of node 5
    raised to 1000, far beyond the 35 units on offer. *)
Definition infeasible_supplies : list (Z * Z) :=
  [(0, 20); (1, 15); (4, -10); (5, -1000)].

Definition infeasible_engine : engine :=
  match (add_edges example_edges;; set_supplies infeasible_supplies) (init 6) with
  | Ok _ e => e
  | _ => init 6
  end.

Lemma infeasible_engine_ready : ready infeasible_engine.
Proof. apply readyb_ready. vm_compute. reflexivity. Defined.

(** C1, on the code.  The claim wants [min_cost_flow] to return either
    [(totalCost, flowMatrix)] or [(None, None)], the latter on the
    example whose demand at node 5 exceeds the supply.  The code calls
    [g.max_flow()] without the two arguments the method requires, so on
    that input the call ends in [TypeError], and on no input at all does
    it return. *)
Theorem min_cost_flow_infeasible_scenario :
  (add_edges example_edges;; set_supplies infeasible_supplies) (init 6)
  = Ok tt infeasible_engine
  /\ (forall fuel alpha,
        min_cost_flow fuel alpha infeasible_engine
        = Raise TypeError (cost_scaled infeasible_engine))
  /\ (forall fuel alpha e r e', min_cost_flow fuel alpha e <> Ok r e').
Proof.
  split; [vm_compute; reflexivity|]. split.
  - intros fuel alpha.
    rewrite (min_cost_flow_raises fuel alpha _ infeasible_engine_ready).
    f_equal.
  - apply min_cost_flow_never_returns.
Qed.

(** Two vertices joined by an arc in each direction. *)
Definition antiparallel_engine : engine :=
  match (add_edge 0 1 5 3;; add_edge 1 0 5 2) (init 2) with
  | Ok _ e => e
  | _ => init 2
  end.


Lemma K_cost_scaled e u v :
  ready e -> vertex e u -> vertex e v ->
  K (cost_scaled e) u v = K e u v * V e ^ Z.of_nat (occ v (adj (graph e) u)).
Proof.
  intros [HV Hwf Hadj Hs Hd] Hu Hv. unfold K, cost_scaled. simpl.
  rewrite (at2_scaled (V e)); try done.
  - rewrite decide_True by (now apply elem_of_range). done.
  - apply Hwf.
  - apply NoDup_range.
  - intros a Ha. now apply elem_of_range.
  - intros a b Ha%elem_of_range Hb. now apply (Hadj a b).
Qed.



Lemma mc_add_edge_stores e u v cap k :
  wf e -> vertex e u -> vertex e v ->
  exists e', add_edge u v cap k e = Ok tt e'
             /\ at2 (capacity e') u v = cap
             /\ at2 (cost e') v u = - k
             /\ (u <> v -> at2 (cost e') u v = k)
             /\ v ∈ adj (graph e') u /\ u ∈ adj (graph e') v.
Proof.
  intros Hwf Hu Hv. exists (edge_added e u v cap k).
  split; [now apply mc_add_edge_ok|].
  set (e1 := set_graph (adj_append (graph e) u v) e).
  set (e2 := set_graph (adj_append (graph e1) v u) e1).
  set (e3 := set_capacity (upd2 (capacity e2) u v cap) e2).
  set (e4 := set_cost (upd2 (cost e3) u v k) e3).
  assert (Hwf2 : wf e2) by (subst e2 e1; auto).
  assert (Hwf3 : wf e3) by (subst e3; auto).
  assert (Hwf4 : wf e4) by (subst e4; auto).
  unfold vertex in *.
  split; [|split; [|split; [|split]]].
  - change (at2 (capacity (edge_added e u v cap k)) u v) with (C e3 u v).
    subst e3. rewrite mc_C_upd by done. now rewrite decide_True.
  - change (at2 (cost (edge_added e u v cap k)) v u)
      with (K (set_cost (upd2 (cost e4) v u (- k)) e4) v u).
    rewrite K_upd by done. now rewrite decide_True.
  - intros Huv.
    change (at2 (cost (edge_added e u v cap k)) u v)
      with (K (set_cost (upd2 (cost e4) v u (- k)) e4) u v).
    rewrite K_upd by done. rewrite decide_False by (intros [? _]; congruence).
    subst e4. rewrite K_upd by done. now rewrite decide_True.
  - change (graph (edge_added e u v cap k))
      with (adj_append (adj_append (graph e) u v) v u).
    rewrite !PushRelabelFacts.adj_adj_append.
    clear Hu Hv Hwf2 Hwf3 Hwf4.
    repeat case_decide; set_solver.
  - change (graph (edge_added e u v cap k))
      with (adj_append (adj_append (graph e) u v) v u).
    rewrite !PushRelabelFacts.adj_adj_append.
    clear Hu Hv Hwf2 Hwf3 Hwf4.
    repeat case_decide; set_solver.
Qed.

End MinCostFacts.

(** ** Claims that span both engines *)

Import Py PyFacts.

(** The engine on which C5 fails: one self-loop at vertex 0. *)
Definition self_loop_engine : PushRelabel.engine :=
  PushRelabelFacts.edge_added (PushRelabel.init 2) 0 0 5.


(** Engines built by the public methods, on which the parts of C5
    are exercised: a source whose adjacency list holds the negative
    entry [-1], a vertex with excess and a residual arc, and an arc of
    negative cost. *)
Definition wrapped_engine : PushRelabel.engine :=
  match (PushRelabel.add_edge 0 1 5;; PushRelabel.add_edge 0 (-1) 7)
          (PushRelabel.init 3) with
  | Ok _ e => e
  | _ => PushRelabel.init 3
  end.

Definition primed_engine : PushRelabel.engine :=
  match (PushRelabel.add_edge 0 1 5;; PushRelabel.add_edge 1 2 3;;
         PushRelabel.initialize_preflow 0) (PushRelabel.init 3) with
  | Ok _ e => e
  | _ => PushRelabel.init 3
  end.

Definition bargain_engine : MinCostPushRelabel.engine :=
  match MinCostPushRelabel.add_edge 0 1 5 (-3) (MinCostPushRelabel.init 2) with
  | Ok _ e => e
  | _ => MinCostPushRelabel.init 2
  end.

Definition pr_wfb (e : PushRelabel.engine) : bool :=
  (length (PushRelabel.excess e) =? Z.to_nat (PushRelabel.V e))%nat
  && (length (PushRelabel.height e) =? Z.to_nat (PushRelabel.V e))%nat
  && MinCostFacts.shapeb (PushRelabel.V e) (PushRelabel.flow e)
  && MinCostFacts.shapeb (PushRelabel.V e) (PushRelabel.capacity e).

Lemma pr_wfb_wf e : pr_wfb e = true -> PushRelabelFacts.wf e.
Proof.
  unfold pr_wfb. rewrite !andb_true_iff. intros (((Hx & Hh) & Hf) & Hc).
  split; auto using MinCostFacts.shapeb_shape; now apply Nat.eqb_eq.
Qed.



(** C6 as stated fails for [add_edge]: a self-loop with a negative
    capacity is registered like any other arc. *)
Lemma add_edge_accepts_self_loop :
  PushRelabel.add_edge 0 0 (-5) (PushRelabel.init 2)
  = Ok tt (PushRelabelFacts.edge_added (PushRelabel.init 2) 0 0 (-5))
  /\ at2 (PushRelabel.capacity (PushRelabel.init 2)) 0 0 = 0
  /\ at2 (PushRelabel.capacity
           (PushRelabelFacts.edge_added (PushRelabel.init 2) 0 0 (-5))) 0 0 = -5
  /\ adj (PushRelabel.graph
           (PushRelabelFacts.edge_added (PushRelabel.init 2) 0 0 (-5))) 0 = [0].
Proof.
  split; [vm_compute; reflexivity|].
  split; [vm_compute; reflexivity|].
  split; vm_compute; reflexivity.
Qed.

(** C6, as the code has it.  [set_supply(u, 0)] is rejected at
    registration time: it prints its message and leaves every field of
    the engine as it was.  [add_edge] of either engine checks nothing:
    with both end points in range it returns normally and stores the
    arc, whatever the capacity and also when [u = v]; with a subscript
    outside [-V, V) it raises [IndexError] after the adjacency lists
    have been extended. *)
Theorem registration_checks :
  (forall e u,
      MinCostPushRelabel.set_supply u 0 e
      = Ok [MinCostPushRelabel.zero_supply_message] e)
  /\ (forall e u v cap,
        PushRelabelFacts.wf e -> PushRelabelFacts.vertex e u ->
        PushRelabelFacts.vertex e v ->
        exists e', PushRelabel.add_edge u v cap e = Ok tt e'
                   /\ at2 (PushRelabel.capacity e') u v = cap
                   /\ adj (PushRelabel.graph e') u
                      = adj (PushRelabel.graph e) u ++ [v])
  /\ (forall e u v cap k,
        MinCostFacts.wf e -> MinCostFacts.vertex e u -> MinCostFacts.vertex e v ->
        exists e', MinCostPushRelabel.add_edge u v cap k e = Ok tt e'
                   /\ at2 (MinCostPushRelabel.capacity e') u v = cap
                   /\ at2 (MinCostPushRelabel.cost e') v u = - k
                   /\ (u <> v -> at2 (MinCostPushRelabel.cost e') u v = k)
                   /\ v ∈ adj (MinCostPushRelabel.graph e') u
                   /\ u ∈ adj (MinCostPushRelabel.graph e') v)
  /\ (forall e u v cap,
        PushRelabelFacts.wf e ->
        ~ (- PushRelabel.V e <= u < PushRelabel.V e)
        \/ ~ (- PushRelabel.V e <= v < PushRelabel.V e) ->
        exists e', PushRelabel.add_edge u v cap e = Raise IndexError e'
                   /\ adj (PushRelabel.graph e') u
                      = adj (PushRelabel.graph e) u ++ [v])
  /\ (forall e u v cap k,
        MinCostFacts.wf e ->
        ~ (- MinCostPushRelabel.V e <= u < MinCostPushRelabel.V e)
        \/ ~ (- MinCostPushRelabel.V e <= v < MinCostPushRelabel.V e) ->
        exists e', MinCostPushRelabel.add_edge u v cap k e = Raise IndexError e'
                   /\ v ∈ adj (MinCostPushRelabel.graph e') u).
Proof.
  split; [|split; [|split; [|split]]].
  - intros e u. apply MinCostFacts.set_supply_zero.
  - intros e u v cap. apply PushRelabelFacts.add_edge_stores.
  - intros e u v cap k. apply MinCostFacts.mc_add_edge_stores.
  - intros e u v cap Hwf Hout. eexists. split.
    + now apply PushRelabelFacts.add_edge_out_of_range.
    + simpl. rewrite PushRelabelFacts.adj_adj_append.
      now rewrite decide_True.
  - intros e u v cap k Hwf Hout. eexists. split.
    + now apply MinCostFacts.mc_add_edge_out_of_range.
    + simpl. rewrite !PushRelabelFacts.adj_adj_append. clear Hout.
      repeat case_decide; set_solver.
Qed.

Lemma registration_checks_witness :
  (exists e', PushRelabel.add_edge 0 0 (-5) (PushRelabel.init 2) = Ok tt e'
              /\ at2 (PushRelabel.capacity e') 0 0 = -5
              /\ adj (PushRelabel.graph e') 0
                 = adj (PushRelabel.graph (PushRelabel.init 2)) 0 ++ [0])
  /\ (exists e', MinCostPushRelabel.add_edge 1 1 (-5) 3 (MinCostPushRelabel.init 2)
                 = Ok tt e'
                 /\ at2 (MinCostPushRelabel.capacity e') 1 1 = -5
                 /\ at2 (MinCostPushRelabel.cost e') 1 1 = - 3
                 /\ (1 <> 1 -> at2 (MinCostPushRelabel.cost e') 1 1 = 3)
                 /\ 1 ∈ adj (MinCostPushRelabel.graph e') 1
                 /\ 1 ∈ adj (MinCostPushRelabel.graph e') 1)
  /\ (exists e', PushRelabel.add_edge 7 0 1 (PushRelabel.init 2)
                 = Raise IndexError e'
                 /\ adj (PushRelabel.graph e') 7
                    = adj (PushRelabel.graph (PushRelabel.init 2)) 7 ++ [0])
  /\ (exists e', MinCostPushRelabel.add_edge 0 7 1 1 (MinCostPushRelabel.init 2)
                 = Raise IndexError e'
                 /\ 7 ∈ adj (MinCostPushRelabel.graph e') 0).
Proof.
  destruct registration_checks as (_ & Hpr & Hmc & Hpr' & Hmc').
  split; [|split; [|split]].
  - apply (Hpr (PushRelabel.init 2) 0 0 (-5)).
    + apply PushRelabelFacts.wf_init.
    + unfold PushRelabelFacts.vertex. simpl. lia.
    + unfold PushRelabelFacts.vertex. simpl. lia.
  - apply (Hmc (MinCostPushRelabel.init 2) 1 1 (-5) 3).
    + apply MinCostFacts.mc_wf_init.
    + unfold MinCostFacts.vertex. simpl. lia.
    + unfold MinCostFacts.vertex. simpl. lia.
  - apply (Hpr' (PushRelabel.init 2) 7 0 1).
    + apply PushRelabelFacts.wf_init.
    + left. simpl. lia.
  - apply (Hmc' (MinCostPushRelabel.init 2) 0 7 1 1).
    + apply MinCostFacts.mc_wf_init.
    + right. simpl. lia.
Defined.




(** * Further properties of the maximum-flow engine *)

Module MaxFlowMore.
Import Py PyFacts PushRelabel PushRelabelFacts.

(** ** The value returned is the maximum *)

(** A flow in the sense of the skew-symmetric representation: [f] is
    skew-symmetric, within the capacities of [e], and conserved at every
    vertex other than [s] and [t]. *)
Record feasible (e : engine) (s t : Z) (f : Z -> Z -> Z) : Prop := {
  feas_skew : forall a b, vertex e a -> vertex e b -> f a b = - f b a;
  feas_cap : forall a b, vertex e a -> vertex e b -> f a b <= C e a b;
  feas_cons : forall a, vertex e a -> a <> s -> a <> t ->
                        sumf (range (V e)) (fun b => f b a) = 0
}.

(** The amount [f] delivers to [t]. *)
Definition value (e : engine) (t : Z) (f : Z -> Z -> Z) : Z :=
  sumf (range (V e)) (fun b => f b t).

(** The flow matrix read as a function, with the diagonal cell of the
    source (which only a self-loop at the source ever writes) read as 0. *)
Definition final_flow (e : engine) (s : Z) (a b : Z) : Z :=
  if decide (a = s /\ b = s) then 0 else F e a b.

(** What enters a set of vertices that excludes the members of [S]
    comes across the cut. *)
Lemma cut_sum (l : list Z) (S : Z -> bool) (f : Z -> Z -> Z) :
  (forall a b, a ∈ l -> b ∈ l -> f a b = - f b a) ->
  sumf l (fun a => if S a then 0 else sumf l (fun b => f b a))
  = sumf l (fun a => sumf l (fun b => if negb (S a) && S b then f b a else 0)).
Proof.
  intros Hsk.
  set (G1 := fun a b : Z => if negb (S a) && negb (S b) then f b a else 0).
  set (G2 := fun a b : Z => if negb (S a) && S b then f b a else 0).
  assert (H1 : sumf l (fun a => sumf l (fun b => G1 a b)) = 0).
  { apply sumf2_skew. intros a b Ha Hb. subst G1. cbv beta.
    destruct (S a), (S b); simpl; try lia. now apply Hsk. }
  assert (H2 : sumf l (fun a => if S a then 0 else sumf l (fun b => f b a))
               = sumf l (fun a => sumf l (fun b => G1 a b))
                 + sumf l (fun a => sumf l (fun b => G2 a b))).
  { rewrite <- sumf_add. apply sumf_ext. intros a Ha.
    rewrite <- sumf_add. subst G1 G2. cbv beta.
    destruct (S a); simpl.
    - symmetry. now apply sumf_zero.
    - apply sumf_ext. intros b Hb. destruct (S b); simpl; lia. }
  rewrite H2, H1. done.
Qed.

(** Some level strictly between 0 and [V] is empty: the sink sits at
    0, the source at [V], and the other [V - 2] vertices cannot fill the
    [V - 1] levels in between. *)
Lemma empty_low_level s t e :
  Inv s t e -> exists g, 0 < g < V e /\ forall a, vertex e a -> H e a <> g.
Proof.
  intros HI.
  pose proof (inv_s _ _ _ HI) as Hs. pose proof (inv_t _ _ _ HI) as Ht.
  pose proof (inv_Hs _ _ _ HI) as Hhs. pose proof (inv_Ht _ _ _ HI) as Hht.
  unfold vertex in Hs, Ht.
  set (n := V e) in *.
  set (levels := map (fun k => 1 + k) (range (n - 1))).
  assert (Hlev : forall g, g ∈ levels <-> 0 < g < n).
  { intros g. subst levels. rewrite list_elem_of_fmap. split.
    - intros (k & -> & Hk). apply elem_of_range in Hk. lia.
    - intros Hg. exists (g - 1). split; [lia|]. apply elem_of_range. lia. }
  assert (Hnd : NoDup levels).
  { subst levels. apply NoDup_fmap_2; [|apply NoDup_range].
    intros a b Hab. simpl in Hab. lia. }
  destruct (decide (Forall (fun g => Exists (fun a => H e a = g) (range n)) levels))
    as [Hall|Hsome].
  - exfalso.
    assert (Hlen : (length (0%Z :: n :: levels) <= length (range n))%nat).
    { apply (occupied_levels (H e)).
      - apply NoDup_cons. split.
        + rewrite elem_of_cons, Hlev. lia.
        + apply NoDup_cons. split; [rewrite Hlev; lia|done].
      - intros g Hg.
        apply elem_of_cons in Hg as [->|Hg].
        { exists t. split; [now apply elem_of_range|done]. }
        apply elem_of_cons in Hg as [->|Hg].
        { exists s. split; [now apply elem_of_range|done]. }
        rewrite Forall_forall in Hall. apply Hall in Hg.
        apply Exists_exists in Hg as (a & Ha & Hha). eauto. }
    simpl in Hlen. subst levels.
    rewrite length_map, !length_range in Hlen. lia.
  - apply not_Forall_Exists in Hsome; [|apply _].
    apply Exists_exists in Hsome as (g & Hg & Hng). simpl in Hng.
    exists g. split; [now apply Hlev|].
    intros a Ha Hha. apply Hng. apply Exists_exists.
    exists a. split; [now apply elem_of_range|done].
Qed.

(** At the end of the main loop the excess of the sink is the capacity
    of a saturated cut, which bounds the value of every flow. *)
Lemma settled_is_maximum s t e :
  Inv s t e -> settled s t e ->
  feasible e s t (final_flow e s)
  /\ value e t (final_flow e s) = X e t
  /\ forall f, feasible e s t f -> value e t f <= X e t.
Proof.
  intros HI Hset.
  pose proof (inv_s _ _ _ HI) as Hs. pose proof (inv_t _ _ _ HI) as Ht.
  pose proof (inv_st _ _ _ HI) as Hst.
  destruct (empty_low_level s t e HI) as (g & Hg & Hgap).
  set (l := range (V e)).
  assert (Hl : forall a, a ∈ l <-> vertex e a) by (intros a; apply elem_of_range).
  set (S := fun a : Z => bool_decide (g < H e a)).
  assert (HSs : S s = true).
  { subst S. cbv beta. apply bool_decide_eq_true. rewrite (inv_Hs _ _ _ HI). lia. }
  assert (HSt : S t = false).
  { subst S. cbv beta. apply bool_decide_eq_false. rewrite (inv_Ht _ _ _ HI). lia. }
  assert (Hfin : feasible e s t (final_flow e s)).
  { split.
    - intros a b Ha Hb. unfold final_flow.
      destruct (decide (a = s /\ b = s)) as [[-> ->]|Hn].
      + rewrite decide_True by done. lia.
      + rewrite decide_False by tauto.
        apply (inv_skew _ _ _ HI); [done..|].
        destruct (decide (a = s)); [right|left]; tauto.
    - intros a b Ha Hb. unfold final_flow. case_decide as Hab.
      + destruct Hab as [-> ->]. now apply (inv_cap _ _ _ HI).
      + now apply (inv_le _ _ _ HI).
    - intros a Ha Has Hat.
      rewrite (sumf_ext _ _ (fun b => F e b a)).
      + rewrite <- (inv_X _ _ _ HI) by done.
        pose proof (inv_Xpos _ _ _ HI a Ha Has). pose proof (Hset a Ha Has Hat). lia.
      + intros b Hb. unfold final_flow. rewrite decide_False; [done|].
        intros [_ ?]. done. }
  assert (Hval : value e t (final_flow e s) = X e t).
  { unfold value. rewrite (inv_X _ _ _ HI) by (try done; congruence).
    apply sumf_ext. intros b Hb. unfold final_flow.
    rewrite decide_False; [done|]. intros [_ ?]. congruence. }
  assert (Hacross : forall f, feasible e s t f ->
            value e t f
            = sumf l (fun a => sumf l (fun b =>
                if negb (S a) && S b then f b a else 0))).
  { intros f [Hsk Hcap Hcons].
    rewrite <- (cut_sum l S f) by (intros a b Ha%Hl Hb%Hl; now apply Hsk).
    unfold value. fold l.
    rewrite <- (sumf_single l t (sumf l (fun b => f b t)))
      by (try apply NoDup_range; now apply Hl).
    apply sumf_ext. intros a Ha%Hl.
    destruct (decide (a = t)) as [->|Hat].
    - now rewrite HSt.
    - destruct (S a) eqn:HSa; [done|].
      symmetry. apply Hcons; [done| |done]. intros ->. congruence. }
  split; [done|]. split; [done|].
  intros f Hf. rewrite <- Hval, (Hacross f Hf), (Hacross _ Hfin).
  apply sumf_le. intros a Ha%Hl. apply sumf_le. intros b Hb%Hl.
  destruct (S a) eqn:HSa; simpl; [lia|].
  destruct (S b) eqn:HSb; simpl; [|lia].
  subst S. cbv beta in HSa, HSb.
  apply bool_decide_eq_false in HSa. apply bool_decide_eq_true in HSb.
  assert (Hbs : ~ (b = s /\ a = s)).
  { intros [_ ->]. rewrite (inv_Hs _ _ _ HI) in HSa. lia. }
  unfold final_flow. rewrite decide_False by done.
  assert (Hres : ~ residual e b a > 0).
  { intros Hr. pose proof (inv_valid _ _ _ HI b a Hb Ha Hr).
    pose proof (Hgap a Ha). lia. }
  pose proof (feas_cap _ _ _ _ Hf b a Hb Ha).
  unfold residual in Hres. lia.
Qed.

(** X1. On every graph with non-negative capacities and every in-range
    source different from the sink, the value returned by
    [max_flow(s, t)] is the maximum flow value: the flow matrix it leaves
    is a flow within the registered capacities that delivers that value
    to [t], and no flow within those capacities delivers more. *)
Theorem max_flow_is_maximum n edges s t fuel r e' :
  Forall (valid_edge n) edges -> 0 <= s < n -> 0 <= t < n -> s <> t ->
  solve n edges s t fuel = Ok r e' ->
  feasible e' s t (final_flow e' s)
  /\ value e' t (final_flow e' s) = r
  /\ forall f, feasible e' s t f -> value e' t f <= r.
Proof.
  intros Hval Hs Ht Hst Hrun.
  destruct (solve_inv n edges s t fuel r e' Hval Hs Ht Hst Hrun)
    as (e0 & _ & _ & _ & HI & Hset & -> & _ & _).
  now apply settled_is_maximum.
Qed.

Lemma max_flow_is_maximum_witness :
  feasible example_final 0 5 (final_flow example_final 0)
  /\ value example_final 5 (final_flow example_final 0) = 23
  /\ forall f, feasible example_final 0 5 f -> value example_final 5 f <= 23.
Proof.
  apply (max_flow_is_maximum 6 example_edges 0 5 100 23 example_final);
    [apply example_valid|lia|lia|lia|apply example_run].
Defined.

(** ** The labelling at the end of a run *)

Lemma main_loop_bounded fuel s t e e' :
  Inv s t e -> Bounded e -> main_loop fuel s t e = Ok tt e' -> Bounded e'.
Proof.
  revert e. induction fuel as [|fuel IH]; intros e HI Hb Hrun; [done|].
  rewrite main_loop_step in Hrun by apply HI.
  assert (Hus : forall u, u ∈ range (V e) -> vertex e u)
    by (intros u Hu; now apply elem_of_range).
  pose proof (inv_swept s t (range (V e)) false e HI Hus) as HI'.
  destruct (swept_mle s t (range (V e)) false e HI Hb Hus) as (Hb' & _ & _).
  destruct (swept s t (range (V e)) false e).1.
  - now apply IH in Hrun.
  - now injection Hrun as <-.
Qed.

(** X2. When [max_flow(s, t)] returns, the source sits at height
    [V], the sink at height 0, every height lies in [0, 2V - 1], and no
    arc with residual capacity descends by more than one level. *)
Theorem max_flow_final_heights n edges s t fuel r e' :
  Forall (valid_edge n) edges -> 0 <= s < n -> 0 <= t < n -> s <> t ->
  solve n edges s t fuel = Ok r e' ->
  at1 (height e') s = n /\ at1 (height e') t = 0
  /\ (forall a, 0 <= a < n -> 0 <= at1 (height e') a <= 2 * n - 1)
  /\ (forall a b, 0 <= a < n -> 0 <= b < n ->
        at2 (capacity e') a b - at2 (flow e') a b > 0 ->
        at1 (height e') a <= at1 (height e') b + 1).
Proof.
  intros Hval Hs Ht Hst Hrun.
  destruct (add_edges_fresh edges (init n) (fresh_init n) Hval)
    as (e0 & Hadd & Hfr & HV).
  simpl in HV. unfold solve in Hrun. erewrite bind_ok in Hrun by exact Hadd.
  assert (Hs0 : vertex e0 s) by (unfold vertex; lia).
  assert (Ht0 : vertex e0 t) by (unfold vertex; lia).
  assert (Hadj : forall v, v ∈ adj (graph e0) s -> vertex e0 v)
    by (intros v Hv; apply (fresh_adj _ Hfr s v Hs0 Hv)).
  unfold max_flow in Hrun.
  erewrite bind_ok in Hrun
    by (apply initialize_preflow_ok; [apply Hfr|done..]).
  apply bind_inv in Hrun as ([] & e1 & Hloop & Hrd).
  pose proof (inv_preflow s t e0 Hfr Hs0 Ht0 Hst) as HI.
  pose proof (bounded_preflow s t e0 Hfr Hs0 Ht0 Hst) as Hb.
  pose proof (sat_V _ _ _ _ (saturated_preflow s e0 (fresh_wf _ Hfr) Hs0 Hadj)) as HV0.
  destruct (main_loop_inv _ _ _ _ _ HI Hloop) as [HI1 _].
  pose proof (main_loop_bounded _ _ _ _ _ HI Hb Hloop) as Hb1.
  apply main_loop_frame in Hloop as [HV1 _]; [|apply HI].
  rewrite rd_excess_ok in Hrd by (try apply HI1; apply (inv_t _ _ _ HI1)).
  injection Hrd as _ <-.
  assert (HVn : V e1 = n) by congruence.
  fold (H e1 s) (H e1 t).
  rewrite (inv_Hs _ _ _ HI1), (inv_Ht _ _ _ HI1).
  split; [done|]. split; [done|]. split.
  - intros a Ha. fold (H e1 a).
    assert (Ha1 : vertex e1 a) by (unfold vertex; lia).
    pose proof (inv_Hpos _ _ _ HI1 a Ha1). pose proof (Hb1 a Ha1). lia.
  - intros a b Ha Hb' Hres. fold (H e1 a) (H e1 b).
    apply (inv_valid _ _ _ HI1); unfold vertex; try lia. exact Hres.
Qed.

Lemma max_flow_final_heights_witness :
  at1 (height example_final) 0 = 6 /\ at1 (height example_final) 5 = 0
  /\ (forall a, 0 <= a < 6 -> 0 <= at1 (height example_final) a <= 2 * 6 - 1)
  /\ (forall a b, 0 <= a < 6 -> 0 <= b < 6 ->
        at2 (capacity example_final) a b - at2 (flow example_final) a b > 0 ->
        at1 (height example_final) a <= at1 (height example_final) b + 1).
Proof.
  apply (max_flow_final_heights 6 example_edges 0 5 100 23 example_final);
    [apply example_valid|lia|lia|lia|apply example_run].
Defined.

(** ** The value of the flow at the source *)

Lemma column_at2 n (rows : list (list Z)) j :
  (forall r, r ∈ rows -> length r = Z.to_nat n) -> 0 <= j < n ->
  MinCostPushRelabel.column rows j = Some (map (fun r => at1 r j) rows).
Proof.
  intros Hr Hj. induction rows as [|r rows IH]; [done|].
  cbn [MinCostPushRelabel.column map].
  rewrite getitem_at1 by (rewrite (Hr r) by left; lia). simpl.
  rewrite IH by (intros r' Hr'; apply Hr; now right). done.
Qed.

Lemma sum_column n (m : list (list Z)) j :
  shape n m -> 0 <= j < n ->
  sum (map (fun r => at1 r j) m) = sumf (range n) (fun a => at2 m a j).
Proof.
  intros [Hl Hr] Hj. unfold sumf. f_equal.
  apply list_eq. intros k. unfold range.
  rewrite !list_lookup_fmap.
  destruct (decide (k < length m)%nat) as [Hk|Hk].
  - rewrite lookup_seq_lt by lia. simpl.
    destruct (lookup_lt_is_Some_2 m k Hk) as [r Hx]. rewrite Hx. simpl.
    f_equal. unfold at2, getitem2. rewrite getitem_in by lia.
    rewrite Nat2Z.id, Hx. done.
  - rewrite lookup_seq_ge by lia. simpl.
    rewrite (proj2 (lookup_ge_None m k)) by lia. done.
Qed.

Lemma sum_row n (m : list (list Z)) i :
  shape n m -> 0 <= i < n ->
  exists row, getitem m i = Some row
              /\ sum row = sumf (range n) (fun b => at2 m i b).
Proof.
  intros [Hl Hr] Hi.
  destruct (lookup_lt_is_Some_2 m (Z.to_nat i)) as [row Hrow]; [lia|].
  exists row. rewrite getitem_in by lia. split; [done|].
  assert (Hlen : length row = Z.to_nat n)
    by (apply Hr; eapply list_elem_of_lookup_2; eauto).
  rewrite (sum_sumf row n Hlen). apply sumf_ext. intros b Hb.
  unfold at2, getitem2, at1. rewrite (getitem_in m) by lia. now rewrite Hrow.
Qed.

(** In a settled preflow whose source carries no self-loop, column
    [t] and row [s] of the flow matrix both sum to the excess of [t]. *)
Lemma settled_row_column s t e :
  Inv s t e -> settled s t e -> at2 (capacity e) s s = 0 ->
  exists into_sink out_of_source,
    MinCostPushRelabel.column (flow e) t = Some into_sink
    /\ getitem (flow e) s = Some out_of_source
    /\ sum into_sink = X e t /\ sum out_of_source = X e t.
Proof.
  intros HI Hset Hss.
  pose proof (inv_wf _ _ _ HI) as Hwf.
  pose proof (wf_flow _ Hwf) as Hsh.
  destruct (settled_is_maximum s t e HI Hset) as (Hfeas & Hval' & _).
  assert (Hs : vertex e s) by apply HI.
  assert (Ht : vertex e t) by apply HI.
  assert (Hzero : F e s s = 0).
  { pose proof (inv_diag _ _ _ HI). pose proof (inv_le _ _ _ HI s s Hs Hs).
    fold (C e s s) in Hss. lia. }
  assert (Hff : forall a b, final_flow e s a b = F e a b).
  { intros a b. unfold final_flow. case_decide as Hab; [|done].
    destruct Hab as [-> ->]. done. }
  exists (map (fun row => at1 row t) (flow e)).
  destruct (sum_row (V e) (flow e) s Hsh Hs) as (row & Hrow & Hsum).
  exists row. split.
  { apply (column_at2 (V e)); [apply Hsh|done]. }
  split; [done|].
  rewrite (sum_column (V e)) by done. rewrite Hsum.
  assert (Hin : sumf (range (V e)) (fun a => at2 (flow e) a t) = X e t).
  { rewrite <- Hval'. unfold value.
    apply sumf_ext. intros a _. now rewrite Hff. }
  split; [done|].
  set (l := range (V e)).
  assert (Hl : forall a, a ∈ l <-> vertex e a)
    by (intros a; apply elem_of_range).
  assert (Hall : sumf l (fun a => sumf l (fun b => F e b a)) = 0).
  { apply sumf2_skew. intros a b Ha%Hl Hb%Hl.
    rewrite <- !Hff. now apply (feas_skew _ _ _ _ Hfeas). }
  assert (Hsplit : sumf l (fun a => sumf l (fun b => F e b a))
                   = sumf l (fun a => if decide (a = s)
                                      then sumf l (fun b => F e b s) else 0)
                     + sumf l (fun a => if decide (a = t)
                                        then sumf l (fun b => F e b t) else 0)).
  { rewrite <- sumf_add. apply sumf_ext. intros a Ha%Hl.
    destruct (decide (a = s)) as [->|Has].
    - rewrite decide_False by apply HI. lia.
    - destruct (decide (a = t)) as [->|Hat]; [lia|].
      pose proof (feas_cons _ _ _ _ Hfeas a Ha Has Hat) as Hc.
      fold l in Hc.
      rewrite (sumf_ext l _ (fun b => final_flow e s b a))
        by (intros b _; now rewrite Hff).
      lia. }
  rewrite !sumf_single in Hsplit by (try apply NoDup_range; now apply Hl).
  fold l in Hin.
  change (sumf l (fun b => F e b t))
    with (sumf l (fun a => at2 (flow e) a t)) in Hsplit.
  assert (Hrowcol : sumf l (fun b => at2 (flow e) s b)
                    = - sumf l (fun b => F e b s)).
  { rewrite <- sumf_opp. apply sumf_ext. intros b Hb%Hl.
    fold (F e s b). rewrite <- !Hff.
    now apply (feas_skew _ _ _ _ Hfeas). }
  lia.
Qed.

(** X3. After [max_flow(s, t)] on a graph whose source carries no
    self-loop, the sum of column [t] of the flow matrix and the sum of row
    [s] are both the returned value: what reaches the sink is what left
    the source. *)
Theorem max_flow_source_row_equals_sink_column n edges s t fuel r e' :
  Forall (valid_edge n) edges -> 0 <= s < n -> 0 <= t < n -> s <> t ->
  solve n edges s t fuel = Ok r e' ->
  at2 (capacity e') s s = 0 ->
  exists into_sink out_of_source,
    MinCostPushRelabel.column (flow e') t = Some into_sink
    /\ getitem (flow e') s = Some out_of_source
    /\ sum into_sink = r /\ sum out_of_source = r.
Proof.
  intros Hval Hs Ht Hst Hrun Hss.
  destruct (solve_inv n edges s t fuel r e' Hval Hs Ht Hst Hrun)
    as (e0 & _ & _ & _ & HI & Hset & -> & HV & _).
  now apply settled_row_column.
Qed.

Lemma max_flow_source_row_equals_sink_column_witness :
  exists into_sink out_of_source,
    MinCostPushRelabel.column (flow example_final) 5 = Some into_sink
    /\ getitem (flow example_final) 0 = Some out_of_source
    /\ sum into_sink = 23 /\ sum out_of_source = 23.
Proof.
  apply (max_flow_source_row_equals_sink_column 6 example_edges 0 5 100 23
           example_final);
    [apply example_valid|lia|lia|lia|apply example_run|].
  vm_compute. reflexivity.
Defined.

(** ** Bad arguments and single steps *)

(** X4. [max_flow(s, t)] with a source outside [-V, V) raises
    [IndexError] at the first statement of [initialize_preflow] and leaves
    the engine as it was. *)
Theorem max_flow_source_out_of_range fuel s t e :
  wf e -> ~ (- V e <= s < V e) ->
  max_flow fuel s t e = Raise IndexError e.
Proof.
  intros Hwf Hout. unfold max_flow, initialize_preflow.
  unfold mbind, M_bind, get, wr_height, setitem. simpl.
  rewrite index_none; [done|].
  rewrite (wf_height _ Hwf). lia.
Qed.

Lemma max_flow_source_out_of_range_witness :
  max_flow 10 7 0 (init 3) = Raise IndexError (init 3).
Proof.
  apply (max_flow_source_out_of_range 10 7 0 (init 3));
    [apply (fresh_wf _ (fresh_init 3))|simpl; lia].
Defined.

(** X5. [push(u, v)] between two distinct vertices, called with
    non-negative excess at [u] and non-negative residual capacity, never
    overshoots: afterwards either [u] has no excess left or the arc is
    saturated, the excess of [u] is still non-negative, the flow is within
    the capacity, what [u] lost is what [v] gained, and the reverse cell
    moved by the opposite amount. *)
Theorem push_saturates_or_empties e u v :
  wf e -> vertex e u -> vertex e v -> u <> v ->
  0 <= X e u -> 0 <= C e u v - F e u v ->
  exists e', push u v e = Ok tt e'
    /\ (X e' u = 0 \/ F e' u v = C e' u v)
    /\ 0 <= X e' u /\ F e' u v <= C e' u v
    /\ X e' u + X e' v = X e u + X e v
    /\ F e' u v + F e' v u = F e u v + F e v u.
Proof.
  intros Hwf Hu Hv Huv Hx Hr. exists (pushed e u v).
  split; [now apply push_ok|].
  rewrite !X_pushed, !F_pushed by done.
  rewrite C_pushed.
  rewrite !(decide_False (P := u = v)) by done.
  rewrite !(decide_True (P := u = u)) by done.
  rewrite (decide_False (P := v = u)) by congruence.
  rewrite (decide_True (P := v = v)) by done.
  rewrite (decide_True (P := u = u /\ v = v)) by done.
  rewrite (decide_False (P := v = u /\ u = v)) by tauto.
  rewrite (decide_True (P := v = v /\ u = u)) by done.
  unfold push_delta. lia.
Qed.

(** A three-vertex engine with the arc (1, 2) of capacity 3 and four
    units of excess at vertex 1. *)
Definition loaded_engine : engine :=
  let e := edge_added (init 3) 1 2 3 in
  set_excess (upd1 (excess e) 1 4) e.

Lemma wf_loaded_engine : wf loaded_engine.
Proof.
  unfold loaded_engine, edge_added. cbv zeta.
  apply wf_set_excess, wf_set_capacity, wf_set_graph.
  apply (fresh_wf _ (fresh_init 3)).
Qed.

Lemma push_saturates_or_empties_witness :
  exists e', push 1 2 loaded_engine = Ok tt e'
    /\ (X e' 1 = 0 \/ F e' 1 2 = C e' 1 2)
    /\ 0 <= X e' 1 /\ F e' 1 2 <= C e' 1 2
    /\ X e' 1 + X e' 2 = X loaded_engine 1 + X loaded_engine 2
    /\ F e' 1 2 + F e' 2 1 = F loaded_engine 1 2 + F loaded_engine 2 1.
Proof.
  apply (push_saturates_or_empties loaded_engine 1 2).
  - apply wf_loaded_engine.
  - unfold vertex. simpl. lia.
  - unfold vertex. simpl. lia.
  - lia.
  - vm_compute. discriminate.
  - vm_compute. discriminate.
Defined.

(** X6. [relabel(u)] leaves the engine untouched when no arc out of
    [u] has residual capacity; otherwise it only rewrites [height[u]], to
    one more than the lowest height among the residual neighbours, so that
    an arc to such a neighbour becomes admissible and no residual arc out
    of [u] descends by more than one level. *)
Theorem relabel_sets_one_above_lowest e u :
  wf e -> vertex e u ->
  exists e', relabel u e = Ok tt e'
    /\ ((forall v, vertex e v -> residual e u v <= 0) /\ e' = e
        \/ (exists v, vertex e v /\ residual e u v > 0
                      /\ H e' u = H e v + 1)
           /\ (forall w, vertex e w -> residual e u w > 0 ->
                         H e' u <= H e w + 1)
           /\ (forall a, vertex e a -> a <> u -> H e' a = H e a)
           /\ excess e' = excess e /\ flow e' = flow e
           /\ capacity e' = capacity e /\ graph e' = graph e).
Proof.
  intros Hwf Hu. exists (relabeled e u).
  split; [now apply relabel_ok|]. unfold relabeled.
  destruct (min_height e u (range (V e)) None) as [m|] eqn:Hm.
  - right. apply min_height_Some in Hm as (Hex & _ & Hmin).
    destruct Hex as [|(v & Hv%elem_of_range & Hr & Hh)]; [done|].
    split; [|split; [|split]].
    + exists v. split; [done|]. split; [done|].
      rewrite H_upd by done. rewrite decide_True by done. lia.
    + intros w Hw Hr'. rewrite H_upd by done. rewrite decide_True by done.
      pose proof (Hmin w (proj2 (elem_of_range _ _) Hw) Hr'). lia.
    + intros a Ha Hau. rewrite H_upd by done. now rewrite decide_False.
    + done.
  - left. apply min_height_None in Hm as [_ Hno]. split; [|done].
    intros v Hv. specialize (Hno v (proj2 (elem_of_range _ _) Hv)). lia.
Qed.

Lemma relabel_sets_one_above_lowest_witness :
  exists e', relabel 1 loaded_engine = Ok tt e'
    /\ (exists v, vertex loaded_engine v /\ residual loaded_engine 1 v > 0
                  /\ H e' 1 = H loaded_engine v + 1)
    /\ (forall w, vertex loaded_engine w -> residual loaded_engine 1 w > 0 ->
                  H e' 1 <= H loaded_engine w + 1)
    /\ (forall a, vertex loaded_engine a -> a <> 1 -> H e' a = H loaded_engine a)
    /\ excess e' = excess loaded_engine /\ flow e' = flow loaded_engine
    /\ capacity e' = capacity loaded_engine /\ graph e' = graph loaded_engine.
Proof.
  destruct (relabel_sets_one_above_lowest loaded_engine 1)
    as (e' & Hrun & [[Hno _]|Hyes]).
  - apply wf_loaded_engine.
  - unfold vertex. simpl. lia.
  - exfalso.
    assert (Hr : residual loaded_engine 1 2 = 3) by (vm_compute; reflexivity).
    assert (Hv : vertex loaded_engine 2) by (unfold vertex; simpl; lia).
    specialize (Hno 2 Hv). lia.
  - exists e'. split; [exact Hrun|exact Hyes].
Defined.

(** X7. In the situation in which the main loop calls it (a vertex
    other than the source that holds excess and has no admissible arc, in
    a preflow with a valid labelling), [relabel(u)] strictly raises
    [height[u]], changes nothing else and keeps the labelling valid. *)
Theorem relabel_raises_height s t e u :
  Inv s t e -> vertex e u -> u <> s -> u <> t -> X e u > 0 ->
  (forall v, vertex e v -> ~ admissible e u v) ->
  exists e', relabel u e = Ok tt e'
    /\ H e u < H e' u
    /\ (forall a, vertex e a -> a <> u -> H e' a = H e a)
    /\ (forall a b, vertex e a -> vertex e b -> residual e' a b > 0 ->
                    H e' a <= H e' b + 1)
    /\ (forall a, X e' a = X e a)
    /\ (forall a b, F e' a b = F e a b).
Proof.
  intros HI Hu Hus Hut Hx Hna. exists (relabeled e u).
  split; [apply relabel_ok; [apply HI|done]|].
  destruct (inv_relabeled s t e u HI Hu Hus Hut Hx Hna)
    as (HI' & Hlt & Hoth & HX & HF & HC).
  split; [done|]. split; [done|]. split; [|done].
  intros a b Ha Hb. apply (inv_valid _ _ _ HI'); unfold vertex;
    now rewrite V_relabeled.
Qed.

(** The example graph right after [initialize_preflow(0)]. *)
Definition example_graph : engine :=
  match add_edges example_edges (init 6) with
  | Ok _ e => e
  | _ => init 6
  end.

Lemma fresh_example_graph : Fresh example_graph.
Proof.
  destruct (add_edges_fresh example_edges (init 6) (fresh_init 6) example_valid)
    as (e0 & Hadd & Hfr & _).
  unfold example_graph. now rewrite Hadd.
Qed.

Lemma relabel_raises_height_witness :
  exists e', relabel 1 (preflow 0 example_graph) = Ok tt e'
    /\ H (preflow 0 example_graph) 1 < H e' 1
    /\ (forall a, vertex (preflow 0 example_graph) a -> a <> 1 ->
                  H e' a = H (preflow 0 example_graph) a)
    /\ (forall a b, vertex (preflow 0 example_graph) a ->
                    vertex (preflow 0 example_graph) b ->
                    residual e' a b > 0 -> H e' a <= H e' b + 1)
    /\ (forall a, X e' a = X (preflow 0 example_graph) a)
    /\ (forall a b, F e' a b = F (preflow 0 example_graph) a b).
Proof.
  assert (HV : V (preflow 0 example_graph) = 6) by (vm_compute; reflexivity).
  apply (relabel_raises_height 0 5 (preflow 0 example_graph) 1).
  - apply inv_preflow; [apply fresh_example_graph|..]; unfold vertex;
      rewrite ?HV; try lia; vm_compute; split; discriminate || reflexivity.
  - unfold vertex. rewrite HV. lia.
  - lia.
  - lia.
  - vm_compute. reflexivity.
  - intros v Hv [_ Hh]. unfold vertex in Hv. rewrite HV in Hv.
    assert (Hcases : v = 0 \/ v = 1 \/ v = 2 \/ v = 3 \/ v = 4 \/ v = 5) by lia.
    destruct Hcases as [->|[->|[->|[->|[->| ->]]]]];
      vm_compute in Hh; discriminate.
Defined.

(** ** [initialize_preflow] and negative subscripts *)

(** X8. On a newly built graph with non-negative capacities,
    [initialize_preflow(s)] saturates every arc out of the source: for
    every other vertex [v], [flow[s][v]] and [excess[v]] are
    [capacity[s][v]] and [flow[v][s]] is its opposite; the source is
    raised to height [V] and every other vertex stays at height 0. *)
Theorem initialize_preflow_saturates_source e s :
  Fresh e -> vertex e s ->
  exists e', initialize_preflow s e = Ok tt e'
    /\ (forall v, vertex e v -> v <> s ->
          F e' s v = C e s v /\ F e' v s = - C e s v /\ X e' v = C e s v)
    /\ H e' s = V e
    /\ (forall a, vertex e a -> a <> s -> H e' a = 0)
    /\ capacity e' = capacity e.
Proof.
  intros Hfr Hs.
  assert (Hadj : forall v, v ∈ adj (graph e) s -> vertex e v)
    by (intros v Hv; apply (fresh_adj _ Hfr s v Hs Hv)).
  pose proof (fresh_wf _ Hfr) as Hwf.
  exists (preflow s e). split; [now apply initialize_preflow_ok|].
  destruct (saturated_preflow s e Hwf Hs Hadj) as [Hwf' HV Hc Hh Hg HF HX _].
  assert (HF0 : forall a b, F e a b = 0)
    by (intros a b; unfold F; rewrite (fresh_flow _ Hfr); apply at2_zeros2).
  assert (HX0 : forall a, X e a = 0)
    by (intros a; unfold X; rewrite (fresh_excess _ Hfr); apply at1_zeros).
  assert (Hzero : forall v, vertex e v -> v ∉ adj (graph e) s -> C e s v = 0).
  { intros v Hv Hnin. destruct (decide (C e s v = 0)) as [|Hne]; [done|].
    exfalso. apply Hnin. now apply (fresh_graph _ Hfr). }
  split; [|split; [|split]].
  - intros v Hv Hvs.
    rewrite (HF s v Hs Hv), (HF v s Hv Hs), (HX v Hv Hvs), !HF0, !HX0.
    destruct (decide (v ∈ adj (graph e) s)) as [Hin|Hnin].
    + repeat case_decide; try tauto; done.
    + rewrite (Hzero v Hv Hnin). repeat case_decide; try tauto; done.
  - unfold H. rewrite Hh.
    rewrite at1_upd1 by (rewrite (wf_height _ Hwf); unfold vertex in Hs; lia).
    now rewrite decide_True.
  - intros a Ha Has. unfold H. rewrite Hh.
    rewrite at1_upd1
      by (rewrite (wf_height _ Hwf); unfold vertex in Hs, Ha; lia).
    rewrite decide_False by done.
    rewrite (fresh_height _ Hfr). apply at1_zeros.
  - done.
Qed.

Lemma initialize_preflow_saturates_source_witness :
  exists e', initialize_preflow 0 example_graph = Ok tt e'
    /\ (forall v, vertex example_graph v -> v <> 0 ->
          F e' 0 v = C example_graph 0 v /\ F e' v 0 = - C example_graph 0 v
          /\ X e' v = C example_graph 0 v)
    /\ H e' 0 = V example_graph
    /\ (forall a, vertex example_graph a -> a <> 0 -> H e' a = 0)
    /\ capacity e' = capacity example_graph.
Proof.
  apply (initialize_preflow_saturates_source example_graph 0);
    [apply fresh_example_graph|vm_compute; split; discriminate || reflexivity].
Defined.

Lemma setitem2_negative_row n (m : list (list Z)) i j x :
  shape n m -> - n <= i < 0 -> 0 <= j < n ->
  setitem2 m i j x = Some (upd2 m (n + i) j x).
Proof.
  intros Hs Hi Hj.
  destruct (shape_row n m (n + i) Hs) as (r & Hr & Hlen); [lia|].
  destruct Hs as [Hl _].
  assert (Hidx : index (length m) i = Some (Z.to_nat (n + i))).
  { unfold index. rewrite decide_False by lia. rewrite decide_True by lia.
    do 2 f_equal. lia. }
  unfold setitem2, upd2, getitem, setitem. rewrite Hidx, Hr. simpl.
  rewrite index_in by lia. done.
Qed.

(** X9. A negative first subscript in [-V, 0) is accepted by [add_edge]
    and splits the arc in two places: the capacity is stored in the row
    of vertex [V + u], as Python's list indexing has it, while the
    adjacency entry goes under the dictionary key [u] itself, so
    [graph[V + u]] does not list the arc. *)
Theorem add_edge_negative_subscript e u v cap :
  wf e -> - V e <= u < 0 -> vertex e v ->
  exists e', add_edge u v cap e = Ok tt e'
    /\ C e' (V e + u) v = cap
    /\ adj (graph e') u = adj (graph e) u ++ [v]
    /\ adj (graph e') (V e + u) = adj (graph e) (V e + u).
Proof.
  intros Hwf Hu Hv. unfold vertex in Hv.
  set (e1 := set_graph (adj_append (graph e) u v) e).
  exists (set_capacity (upd2 (capacity e1) (V e + u) v cap) e1).
  split; [|split; [|split]].
  - unfold add_edge, graph_append. erewrite bind_ok by reflexivity.
    fold e1. unfold wr_capacity.
    rewrite (setitem2_negative_row (V e)); [done|apply Hwf|done..].
  - rewrite C_upd by (first [apply wf_set_graph, Hwf|simpl; lia]).
    now rewrite decide_True.
  - simpl. rewrite adj_adj_append. now rewrite decide_True.
  - simpl. rewrite adj_adj_append. rewrite decide_False by lia. done.
Qed.

Lemma add_edge_negative_subscript_witness :
  exists e', add_edge (-1) 0 7 (init 3) = Ok tt e'
    /\ C e' (V (init 3) + -1) 0 = 7
    /\ adj (graph e') (-1) = adj (graph (init 3)) (-1) ++ [0]
    /\ adj (graph e') (V (init 3) + -1) = adj (graph (init 3)) (V (init 3) + -1).
Proof.
  apply (add_edge_negative_subscript (init 3) (-1) 0 7);
    [apply (fresh_wf _ (fresh_init 3))|simpl; lia|unfold vertex; simpl; lia].
Defined.

End MaxFlowMore.

(** * Further properties of the cost-scaling engine *)

Module MinCostMore.
Import Py PyNum PyFacts MinCostPushRelabel MinCostFacts.

#[local] Hint Resolve mc_wf_set_excess wf_set_potential mc_wf_set_flow
  mc_wf_set_capacity wf_set_cost mc_wf_set_graph wf_set_supply_list
  wf_set_demand : core.

(** ** Registration *)

(** X10. [set_supply(u, x)] with a non-zero [x] and [u] outside
    [-V, V) raises [IndexError] at the write to [excess[u]]; the engine,
    and in particular the supply and demand lists, stay as they were. *)
Theorem set_supply_out_of_range e u x :
  wf e -> ~ (- V e <= u < V e) -> x <> 0 ->
  set_supply u x e = Raise IndexError e.
Proof.
  intros Hwf Hout Hx. unfold set_supply.
  assert (Hw : wr_excess u x e = Raise IndexError e).
  { unfold wr_excess, setitem. rewrite index_none; [done|].
    rewrite (wf_excess _ Hwf). lia. }
  destruct (decide (x > 0)); [|rewrite decide_True by lia];
    unfold mbind, M_bind; now rewrite Hw.
Qed.

Lemma set_supply_out_of_range_witness :
  set_supply 6 20 (init 6) = Raise IndexError (init 6).
Proof.
  apply (set_supply_out_of_range (init 6) 6 20);
    [apply mc_wf_init|simpl; lia|lia].
Defined.

(** X11. [set_supply] only ever appends: a vertex first declared a
    supply node and then a demand node keeps the last excess but is
    listed both in [supply] and in [demand]. *)
Theorem set_supply_redeclared e u a b :
  wf e -> vertex e u -> a > 0 -> b < 0 ->
  exists e', (set_supply u a;; set_supply u b) e = Ok [] e'
    /\ X e' u = b
    /\ supply e' = supply e ++ [u]
    /\ demand e' = demand e ++ [u].
Proof.
  intros Hwf Hu Ha Hb. unfold vertex in Hu. unfold set_supply.
  rewrite (decide_True (P := a > 0)) by done.
  rewrite (decide_False (P := b > 0)) by lia.
  rewrite (decide_True (P := b < 0)) by done.
  set (e1 := set_excess (upd1 (excess e) u a) e).
  set (e2 := set_supply_list (supply e1 ++ [u]) e1).
  set (e3 := set_excess (upd1 (excess e2) u b) e2).
  set (e4 := set_demand (demand e3 ++ [u]) e3).
  assert (Hwf2 : wf e2) by (subst e2 e1; auto).
  exists e4. split.
  - unfold mbind, M_bind, modify, mret, M_ret.
    rewrite (mc_wr_excess_ok e u a Hwf Hu). fold e1. fold e2.
    rewrite (mc_wr_excess_ok e2 u b Hwf2) by done. done.
  - split; [|done]. change (X e4 u) with (X e3 u). subst e3.
    rewrite mc_X_upd by done. now rewrite decide_True.
Qed.

Lemma set_supply_redeclared_witness :
  exists e', (set_supply 1 5;; set_supply 1 (-3)) (init 3) = Ok [] e'
    /\ X e' 1 = -3
    /\ supply e' = supply (init 3) ++ [1]
    /\ demand e' = demand (init 3) ++ [1].
Proof.
  apply (set_supply_redeclared (init 3) 1 5 (-3));
    [apply mc_wf_init|unfold vertex; simpl; lia|lia|lia].
Defined.

Lemma K_edge_added e u v cap k a b :
  wf e -> vertex e u -> vertex e v -> vertex e a -> vertex e b ->
  K (edge_added e u v cap k) a b
  = if decide (a = v /\ b = u) then - k
    else if decide (a = u /\ b = v) then k else K e a b.
Proof.
  intros Hwf Hu Hv Ha Hb. unfold vertex in *. unfold edge_added. cbv zeta.
  rewrite K_upd by auto 10. case_decide; [done|].
  rewrite K_upd by auto 10. done.
Qed.

Lemma C_edge_added e u v cap k a b :
  wf e -> vertex e u -> vertex e v -> vertex e a -> vertex e b ->
  C (edge_added e u v cap k) a b
  = if decide (a = u /\ b = v) then cap else C e a b.
Proof.
  intros Hwf Hu Hv Ha Hb. unfold vertex in *. unfold edge_added. cbv zeta.
  change (C (set_cost ?m ?e0) a b) with (C e0 a b).
  change (C (set_cost ?m ?e0) a b) with (C e0 a b).
  rewrite mc_C_upd by auto 10. done.
Qed.

Lemma adj_edge_added e u v cap k a :
  adj (graph (edge_added e u v cap k)) a
  = adj (adj_append (adj_append (graph e) u v) v u) a.
Proof. reflexivity. Qed.

(** X12. Two arcs in opposite directions share one cost cell pair:
    after [add_edge(u, v, cap, k)] and [add_edge(v, u, cap', k')] both
    capacities are kept, but the cost of [(u, v)] is [-k'], whatever [k]
    was. *)
Theorem antiparallel_arcs_share_cost e u v cap k cap' k' :
  wf e -> vertex e u -> vertex e v -> u <> v ->
  exists e', (add_edge u v cap k;; add_edge v u cap' k') e = Ok tt e'
    /\ K e' u v = - k' /\ K e' v u = k'
    /\ C e' u v = cap /\ C e' v u = cap'.
Proof.
  intros Hwf Hu Hv Huv.
  set (e1 := edge_added e u v cap k).
  assert (Hwf1 : wf e1) by now apply wf_edge_added.
  exists (edge_added e1 v u cap' k'). split.
  - erewrite bind_ok by now apply mc_add_edge_ok.
    now apply mc_add_edge_ok.
  - rewrite !K_edge_added, !C_edge_added by done.
    subst e1. rewrite !C_edge_added by done.
    repeat case_decide; try tauto; lia.
Qed.

Lemma antiparallel_arcs_share_cost_witness :
  exists e', (add_edge 0 1 4 7;; add_edge 1 0 2 1) (init 2) = Ok tt e'
    /\ K e' 0 1 = - 1 /\ K e' 1 0 = 1
    /\ C e' 0 1 = 4 /\ C e' 1 0 = 2.
Proof.
  apply (antiparallel_arcs_share_cost (init 2) 0 1 4 7 2 1);
    [apply mc_wf_init|unfold vertex; simpl; lia..|lia].
Defined.

(** An edge list without self-loops on the vertices [0 .. n-1]. *)
Definition simple_edge (n : Z) (edge : Z * Z * Z * Z) : Prop :=
  let '(u, v, _, _) := edge in 0 <= u < n /\ 0 <= v < n /\ u <> v.

(** What registration of loop-free arcs maintains. *)
Record Registered (e : engine) : Prop := {
  reg_wf : wf e;
  reg_adj : adj_ok e;
  reg_cost : skew (V e) (cost e);
  reg_sym : forall a b, vertex e a -> vertex e b ->
                        (b ∈ adj (graph e) a <-> a ∈ adj (graph e) b);
  reg_cap : forall a b, vertex e a -> vertex e b -> C e a b <> 0 ->
                        b ∈ adj (graph e) a
}.

Lemma registered_init n : Registered (init n).
Proof.
  split.
  - apply mc_wf_init.
  - intros u v _ Hv. unfold adj in Hv. simpl in Hv.
    rewrite lookup_empty in Hv. now apply elem_of_nil in Hv.
  - simpl. apply skew_zeros2.
  - intros a b _ _. unfold adj. simpl. rewrite !lookup_empty. simpl.
    split; intros Hin; now apply elem_of_nil in Hin.
  - intros a b _ _ Hc. exfalso. apply Hc. unfold C. simpl. apply at2_zeros2.
Qed.

Lemma registered_edge_added e u v cap k :
  Registered e -> simple_edge (V e) (u, v, cap, k) ->
  Registered (edge_added e u v cap k).
Proof.
  intros [Hwf Hadj Hsk Hsym Hcap] (Hu & Hv & Huv).
  assert (HA : forall a, adj (graph (edge_added e u v cap k)) a
                 = if decide (a = u) then adj (graph e) u ++ [v]
                   else if decide (a = v) then adj (graph e) v ++ [u]
                   else adj (graph e) a).
  { intros a. rewrite adj_edge_added.
    rewrite !PushRelabelFacts.adj_adj_append.
    repeat case_decide; subst; done. }
  split.
  - now apply wf_edge_added.
  - intros a b Ha Hb. change (V (edge_added e u v cap k)) with (V e) in *.
    unfold vertex. change (V (edge_added e u v cap k)) with (V e).
    rewrite HA in Hb. repeat case_decide; subst;
      rewrite ?elem_of_app, ?list_elem_of_singleton in Hb;
      try (destruct Hb as [Hb| ->]; [|done]); now apply (Hadj _ b Ha).
  - change (V (edge_added e u v cap k)) with (V e).
    intros a b Ha Hb.
    fold (K (edge_added e u v cap k) b a) (K (edge_added e u v cap k) a b).
    rewrite !K_edge_added by done.
    pose proof (Hsk a b Ha Hb) as Hab. fold (K e b a) (K e a b) in Hab.
    repeat case_decide; try lia.
  - intros a b Ha Hb. rewrite !HA.
    pose proof (Hsym a b Ha Hb). 
    repeat case_decide; subst;
      rewrite ?elem_of_app, ?list_elem_of_singleton; try tauto;
      intuition (subst; try tauto; try congruence).
  - intros a b Ha Hb. rewrite C_edge_added by done. rewrite HA.
    intros Hc. repeat case_decide; subst;
      rewrite ?elem_of_app, ?list_elem_of_singleton;
      try (left; now apply Hcap); try tauto; try (now apply Hcap).
Qed.

(** X13. After any list of loop-free arcs on the vertices
    [0 .. n-1] has been registered on a new engine, the cost matrix is
    antisymmetric, the adjacency lists are symmetric and hold only
    vertices, and every arc of non-zero capacity is listed. *)
Theorem add_edges_registered n edges :
  Forall (simple_edge n) edges ->
  exists e', add_edges edges (init n) = Ok tt e'
    /\ V e' = n
    /\ (forall a b, 0 <= a < n -> 0 <= b < n -> K e' b a = - K e' a b)
    /\ (forall a b, 0 <= a < n -> 0 <= b < n ->
          (b ∈ adj (graph e') a <-> a ∈ adj (graph e') b))
    /\ (forall a b, 0 <= a < n -> b ∈ adj (graph e') a -> 0 <= b < n)
    /\ (forall a b, 0 <= a < n -> 0 <= b < n -> C e' a b <> 0 ->
          b ∈ adj (graph e') a).
Proof.
  intros Hval.
  assert (Hgen : forall e, Registered e -> Forall (simple_edge (V e)) edges ->
            exists e', add_edges edges e = Ok tt e' /\ V e' = V e
                       /\ Registered e').
  { clear Hval. induction edges as [|[[[u v] cap] k] edges IH]; intros e Hr Hval.
    - exists e. done.
    - apply Forall_cons in Hval as [Hed Hval].
      destruct (IH (edge_added e u v cap k)) as (e' & Hrun & HV & Hr').
      { now apply registered_edge_added. }
      { exact Hval. }
      exists e'. split; [|done]. unfold add_edges. cbn [for_each].
      destruct Hed as (Hu & Hv & _).
      erewrite bind_ok by (apply mc_add_edge_ok; [apply Hr|done..]).
      exact Hrun. }
  destruct (Hgen (init n) (registered_init n) Hval) as (e' & Hrun & HV & Hr).
  simpl in HV. destruct Hr as [Hwf Hadj Hsk Hsym Hcap].
  unfold adj_ok, skew in *. unfold vertex in *. rewrite HV in *.
  exists e'. split; [done|]. split; [done|].
  split; [intros a b Ha Hb; now apply Hsk|].
  split; [exact Hsym|]. split; [exact Hadj|]. exact Hcap.
Qed.

Lemma add_edges_registered_witness :
  exists e', add_edges example_edges (init 6) = Ok tt e'
    /\ V e' = 6
    /\ (forall a b, 0 <= a < 6 -> 0 <= b < 6 -> K e' b a = - K e' a b)
    /\ (forall a b, 0 <= a < 6 -> 0 <= b < 6 ->
          (b ∈ adj (graph e') a <-> a ∈ adj (graph e') b))
    /\ (forall a b, 0 <= a < 6 -> b ∈ adj (graph e') a -> 0 <= b < 6)
    /\ (forall a b, 0 <= a < 6 -> 0 <= b < 6 -> C e' a b <> 0 ->
          b ∈ adj (graph e') a).
Proof.
  apply (add_edges_registered 6 example_edges).
  unfold example_edges.
  repeat (apply List.Forall_cons; [unfold simple_edge; lia|]).
  apply List.Forall_nil.
Defined.


(** ** [push] and the saturation step of [refine] *)

Lemma sum_excess_moved e u v d :
  wf e -> vertex e u -> vertex e v ->
  sum (excess (moved e u v d)) = sum (excess e).
Proof.
  intros Hwf Hu Hv.
  rewrite (sum_sumf (excess (moved e u v d)) (V e))
    by apply (wf_excess _ (wf_moved e u v d Hwf)).
  rewrite (sum_sumf (excess e) (V e)) by apply Hwf.
  destruct (decide (u = v)) as [Huv|Huv].
  - apply sumf_ext. intros a Ha%elem_of_range.
    change (X (moved e u v d) a = X e a).
    rewrite X_moved by done. now rewrite decide_True.
  - rewrite (sumf_ext _ _ (fun a => at1 (excess e) a
               + ((if decide (a = u) then - d else 0)
                  + (if decide (a = v) then d else 0)))).
    + rewrite !sumf_add.
      rewrite !sumf_single by (try apply NoDup_range; now apply elem_of_range).
      lia.
    + intros a Ha%elem_of_range.
      change (X (moved e u v d) a
              = X e a + ((if decide (a = u) then - d else 0)
                         + (if decide (a = v) then d else 0))).
      rewrite X_moved by done.
      rewrite decide_False by done. repeat case_decide; subst; lia.
Qed.

(** X14. [push(u, v)] conserves the total excess: it moves
    [min(excess[u], capacity[u][v] - flow[u][v])] from one cell of [excess]
    to another (or nowhere, when [u = v]). *)
Theorem push_conserves_total_excess e u v :
  wf e -> vertex e u -> vertex e v ->
  exists e', push u v e = Ok tt e' /\ sum (excess e') = sum (excess e).
Proof.
  intros Hwf Hu Hv. exists (pushed e u v).
  split; [now apply mc_push_ok|]. now apply sum_excess_moved.
Qed.

(** A path 0 -> 1 -> 2 whose second arc has a negative cost, with
    supply at 0 and demand at 2. *)
Definition routed_engine : engine :=
  match (add_edge 0 1 5 3;; add_edge 1 2 4 (-2);;
         set_supply 0 4;; set_supply 2 (-4)) (init 3) with
  | Ok _ e => e
  | _ => init 3
  end.

Lemma push_conserves_total_excess_witness :
  exists e', push 0 1 routed_engine = Ok tt e'
             /\ sum (excess e') = sum (excess routed_engine)
             /\ X routed_engine 0 = 4 /\ X e' 0 = 0 /\ X e' 1 = 4.
Proof.
  destruct (push_conserves_total_excess routed_engine 0 1)
    as (e' & Hrun & Hsum).
  - apply wfb_wf. vm_compute. reflexivity.
  - vm_compute. split; discriminate || reflexivity.
  - vm_compute. split; discriminate || reflexivity.
  - exists e'. split; [exact Hrun|]. split; [exact Hsum|].
    vm_compute in Hrun. injection Hrun as <-.
    repeat split; vm_compute; reflexivity.
Defined.

(** What every step of the saturation loops leaves alone. *)
Record frame (e e' : engine) : Prop := {
  frame_wf : wf e';
  frame_V : V e' = V e;
  frame_graph : graph e' = graph e;
  frame_capacity : capacity e' = capacity e;
  frame_cost : cost e' = cost e;
  frame_potential : potential e' = potential e;
  frame_total : sum (excess e') = sum (excess e)
}.

Lemma frame_refl e : wf e -> frame e e.
Proof. intros Hwf. split; done. Qed.

Lemma frame_arc r e e1 u v :
  frame e e1 -> vertex e u -> vertex e v -> frame e (arc_saturated r e1 u v).
Proof.
  intros [Hwf HV Hg Hc Hk Hp Ht] Hu Hv.
  unfold arc_saturated.
  destruct (lt r (Int 0)); [|done]. case_decide; [|done].
  split; try done.
  - now apply wf_moved.
  - rewrite sum_excess_moved; [done..|unfold vertex; now rewrite HV
                                     |unfold vertex; now rewrite HV].
Qed.

Lemma frame_rc e e' a b : frame e e' -> rc e' a b = rc e a b.
Proof.
  intros Hfr. unfold rc, K, P.
  now rewrite (frame_cost _ _ Hfr), (frame_potential _ _ Hfr).
Qed.

Lemma frame_C e e' a b : frame e e' -> C e' a b = C e a b.
Proof. intros Hfr. unfold C. now rewrite (frame_capacity _ _ Hfr). Qed.

(** A [for] loop in which every iteration establishes its own
    postcondition and spoils none of the others. *)
Lemma for_each_establishes {S A B} (I : S -> Prop) (Q : B -> S -> Prop)
  (f : A -> B) (l : list A) (body : A -> M S unit) :
  (forall x s, x ∈ l -> I s ->
     exists s', body x s = Ok tt s' /\ I s' /\ Q (f x) s'
                /\ forall y, Q y s -> Q y s') ->
  forall s, I s ->
    exists s', for_each l body s = Ok tt s' /\ I s'
               /\ (forall x, x ∈ l -> Q (f x) s')
               /\ forall y, Q y s -> Q y s'.
Proof.
  induction l as [|x l IH]; intros Hbody s Hs.
  - exists s. split; [done|]. split; [done|]. split; [|done].
    intros x Hx. now apply elem_of_nil in Hx.
  - destruct (Hbody x s) as (s1 & Hrun & Hs1 & Hq1 & Hst1); [left|done|].
    destruct (IH (fun y s0 Hy => Hbody y s0 (list_elem_of_further _ _ _ Hy)) s1 Hs1)
      as (s2 & Hrun2 & Hs2 & Hq2 & Hst2).
    exists s2. split.
    { cbn [for_each]. erewrite bind_ok by exact Hrun. exact Hrun2. }
    split; [done|]. split; [|auto].
    intros y Hy. apply elem_of_cons in Hy as [->|Hy]; auto.
Qed.

(** The arc [(a, b)] cannot carry a push. *)
Definition spent (e : engine) (arc : Z * Z) (e' : engine) : Prop :=
  vertex e arc.1 -> vertex e arc.2 ->
  rcz e arc.1 arc.2 < 0 -> residual e' arc.1 arc.2 <= 0.

Lemma rc_antisymmetric e a b :
  skew (V e) (cost e) -> vertex e a -> vertex e b ->
  rcz e b a = - rcz e a b.
Proof.
  intros Hsk Ha Hb. unfold rcz.
  pose proof (Hsk a b Ha Hb) as Hk. fold (K e b a) (K e a b) in Hk. lia.
Qed.

Lemma spent_arc e e1 u v :
  skew (V e) (cost e) -> frame e e1 -> vertex e u -> vertex e v ->
  spent e (u, v) (arc_saturated (Int (rcz e u v)) e1 u v)
  /\ forall y, spent e y e1 ->
               spent e y (arc_saturated (Int (rcz e u v)) e1 u v).
Proof.
  intros Hsk Hfr Hu Hv.
  pose proof (frame_wf _ _ Hfr) as Hwf1.
  pose proof (frame_V _ _ Hfr) as HV1.
  assert (Hu1 : 0 <= u < V e1) by (rewrite HV1; exact Hu).
  assert (Hv1 : 0 <= v < V e1) by (rewrite HV1; exact Hv).
  unfold arc_saturated. rewrite lt_Int.
  case_bool_decide as Hneg.
  2:{ split; [|done]. intros _ _ Hlt. simpl in Hlt. lia. }
  assert (Huv : u <> v).
  { intros <-. pose proof (rc_antisymmetric e u u Hsk Hu Hu). lia. }
  destruct (decide (C e1 u v - F e1 u v > 0)) as [Hres|Hres].
  2:{ split; [|done]. intros _ _ _. unfold residual. simpl. lia. }
  assert (HF : forall a b, vertex e a -> vertex e b ->
            F (moved e1 u v (C e1 u v - F e1 u v)) a b
            = if decide (a = u /\ b = v) then C e1 u v
              else if decide (a = v /\ b = u)
                   then F e1 v u - (C e1 u v - F e1 u v)
                   else F e1 a b).
  { intros a b Ha Hb. rewrite F_moved by (try done; rewrite HV1; done).
    rewrite decide_False by done. repeat case_decide; lia. }
  split.
  - intros _ _ _. unfold residual. simpl. rewrite HF by done.
    rewrite decide_True by done.
    change (C (moved e1 u v (C e1 u v - F e1 u v)) u v) with (C e1 u v). lia.
  - intros [a b] Hy Ha Hb Hlt. simpl in *.
    specialize (Hy Ha Hb Hlt). unfold residual in *. rewrite HF by done.
    change (C (moved e1 u v (C e1 u v - F e1 u v)) a b) with (C e1 a b).
    destruct (decide (a = u /\ b = v)) as [[-> ->]|Hn1]; [lia|].
    destruct (decide (a = v /\ b = u)) as [[-> ->]|Hn2]; [|done].
    pose proof (rc_antisymmetric e u v Hsk Hu Hv). lia.
Qed.


Definition integralb (e : engine) : bool :=
  forallb (fun p => match p with Int _ => true | Float _ => false end)
          (potential e).

Lemma integralb_integral e : wf e -> integralb e = true -> integral e.
Proof.
  intros Hwf Hb a Ha. unfold integralb in Hb. rewrite forallb_forall in Hb.
  unfold P, atn, vertex in *.
  rewrite getitem_in by (rewrite (wf_potential _ Hwf); lia).
  destruct (lookup_lt_is_Some_2 (potential e) (Z.to_nat a)) as [p Hp];
    [rewrite (wf_potential _ Hwf); lia|].
  rewrite Hp. simpl.
  specialize (Hb p (proj1 (list_elem_of_In _ _) (list_elem_of_lookup_2 _ _ _ Hp))).
  destruct p; [eauto|done].
Qed.


(** ** The discharge loop of [refine] *)

(** Vertex 0 holds two units and has no arc at all. *)
Definition stranded_engine : engine :=
  match set_supply 0 2 (init 2) with
  | Ok _ e => e
  | _ => init 2
  end.

Lemma relabeled_spent e u epsilon :
  (forall v, v ∈ adj (graph e) u -> residual e u v <= 0) ->
  relabeled e u epsilon = inr e.
Proof.
  intros Hres. unfold relabeled. now rewrite min_diff_spent.
Qed.



(** X17. The loop [while self.excess[u] > 0] never ends when [u]
    holds excess and no arc of [graph[u]] has residual capacity: the sweep
    pushes nothing, [relabel] finds no neighbour and leaves the potential
    as it is, and the next round meets the same state.  Whatever budget
    the loop is given, it is used up. *)
Theorem discharge_starves fuel u epsilon active_nodes e :
  wf e -> vertex e u -> (forall v, v ∈ adj (graph e) u -> vertex e v) ->
  X e u > 0 -> (forall v, v ∈ adj (graph e) u -> residual e u v <= 0) ->
  discharge fuel u epsilon active_nodes e = Timeout.
Proof.
  intros Hwf Hu Hadj Hx Hres.
  apply discharge_repeats; try done.
  - apply push_all_none; [done..|].
    intros v Hv Hr. specialize (Hres v Hv). lia.
  - rewrite mc_relabel_ok by done. now rewrite relabeled_spent.
Qed.

Lemma discharge_starves_witness :
  discharge 1000 0 one [] stranded_engine = Timeout.
Proof.
  apply (discharge_starves 1000 0 one [] stranded_engine).
  - apply wfb_wf. vm_compute. reflexivity.
  - unfold vertex. simpl. lia.
  - intros v Hv. vm_compute in Hv. now apply elem_of_nil in Hv.
  - vm_compute. reflexivity.
  - intros v Hv. vm_compute in Hv. now apply elem_of_nil in Hv.
Defined.

(** *** An active vertex without arcs stalls [refine] *)

Lemma elem_of_active_of xs a :
  a ∈ active_of xs <-> 0 <= a < Z.of_nat (length xs) /\ at1 xs a > 0.
Proof.
  unfold active_of. rewrite list_elem_of_fmap. split.
  - intros ([i x] & -> & Hin). apply list_elem_of_filter in Hin as [Hpos Hin].
    apply elem_of_lookup_imap in Hin as (j & y & Heq & Hj).
    injection Heq as -> ->. simpl in *.
    pose proof (lookup_lt_Some _ _ _ Hj) as Hlt.
    split; [lia|]. unfold at1. rewrite getitem_in by lia.
    rewrite Nat2Z.id, Hj. exact Hpos.
  - intros [Ha Hpos].
    destruct (lookup_lt_is_Some_2 xs (Z.to_nat a)) as [x Hx]; [lia|].
    exists (Z.to_nat a, x). split; [simpl; lia|].
    apply list_elem_of_filter. split.
    + simpl. unfold at1 in Hpos. rewrite getitem_in in Hpos by lia.
      now rewrite Hx in Hpos.
    + apply elem_of_lookup_imap. eauto.
Qed.

(** A run that did not return: its budget ran out, or an arithmetic
    operation raised [OverflowError]. *)
Definition stalled {S A} (r : res S A) : Prop :=
  match r with
  | Ok _ _ => False
  | Raise err _ => err = OverflowError
  | Timeout => True
  end.

Lemma stalled_bind {S A B} (m : M S A) (k : A -> M S B) s :
  stalled (m s) -> stalled ((m ≫= k) s).
Proof. unfold mbind, M_bind. now destruct (m s). Qed.

Lemma relabeled_error e u epsilon err :
  relabeled e u epsilon = inl err -> err = OverflowError.
Proof.
  unfold relabeled.
  assert (Hmin : forall vs acc, min_diff e u vs acc = inl err ->
                                err = OverflowError).
  { induction vs as [|v vs IH]; intros acc; [done|]. cbn [min_diff].
    case_decide; [|apply IH].
    destruct (sub (P e v) (Int (K e u v))) as [x|d] eqn:Hsub; [|apply IH].
    intros [= <-]. now apply sub_error in Hsub. }
  destruct (min_diff e u (adj (graph e) u) inf) as [x|m] eqn:Hm.
  - intros [= <-]. now apply Hmin in Hm.
  - destruct (ne m inf); [|done].
    destruct (sub m epsilon) as [x|p] eqn:Hsub; [|done].
    intros [= <-]. now apply sub_error in Hsub.
Qed.

(** What the rest of [refine] keeps while the stranded vertex [u]
    waits: the shape of the engine, its graph, and the excess of [u],
    which can only grow. *)
Record waiting (e : engine) (u : Z) (e' : engine) : Prop := {
  wait_wf : wf e';
  wait_V : V e' = V e;
  wait_graph : graph e' = graph e;
  wait_X : X e u <= X e' u
}.

Lemma waiting_moved e u e1 a b d :
  waiting e u e1 -> vertex e u -> vertex e a -> vertex e b -> a <> u ->
  0 <= d -> waiting e u (moved e1 a b d).
Proof.
  intros [Hwf HV Hg Hx] Hu Ha Hb Hau Hd. unfold vertex in *.
  split; try done.
  - now apply wf_moved.
  - rewrite X_moved by (try done; rewrite HV; done).
    repeat case_decide; subst; lia.
Qed.

Lemma saturate_waiting e u :
  wf e -> adj_ok e -> vertex e u -> adj (graph e) u = [] ->
  ended (waiting e u) (saturate e).
Proof.
  intros Hwf Hadj Hu Hiso. unfold saturate.
  unfold mbind at 1, M_bind at 1. cbn [get].
  apply (for_each_ended (waiting e u)); [|split; first [done|lia]].
  intros a e1 Ha%elem_of_range Hw1.
  unfold mbind, M_bind. cbn [get]. rewrite (wait_graph _ _ _ Hw1).
  apply (for_each_ended (waiting e u)); [|done].
  intros b e2 Hb Hw2.
  assert (Hb' : vertex e b) by (now apply (Hadj a b)).
  assert (Hau : a <> u).
  { intros ->. rewrite Hiso in Hb. now apply elem_of_nil in Hb. }
  rewrite saturate_arc_ok
    by (try apply Hw2; rewrite (wait_V _ _ _ Hw2); done).
  destruct (rc e2 a b) as [err|r] eqn:Hrc; simpl.
  - split; [now apply rc_error in Hrc|done].
  - unfold arc_saturated. destruct (lt r (Int 0)); [|done].
    case_decide; [|done]. apply waiting_moved; try done. lia.
Qed.

(** The sweep of the discharge step at another vertex [w] only appends
    vertices to the work list and takes nothing from [u]. *)
Lemma push_all_waiting e u w vs pushed q e1 :
  vertex e u -> vertex e w -> w <> u ->
  (forall v, v ∈ vs -> vertex e v) ->
  waiting e u e1 -> 0 <= X e1 w ->
  (exists e2, push_all w vs pushed q e1 = Raise OverflowError e2)
  \/ exists pushed' extra e2,
       push_all w vs pushed q e1 = Ok (pushed', q ++ extra) e2
       /\ waiting e u e2 /\ 0 <= X e2 w /\ forall x, x ∈ extra -> vertex e x.
Proof.
  intros Hu Hw Hwu. revert pushed q e1.
  induction vs as [|v vs IH]; intros pushed q e1 Hvs Hw1 Hx.
  - right. exists pushed, [], e1. rewrite app_nil_r. split; [done|].
    split; [done|]. split; [done|]. intros x Hin. now apply elem_of_nil in Hin.
  - assert (Hv : vertex e v) by (apply Hvs; left).
    assert (Hvs' : forall x, x ∈ vs -> vertex e x)
      by (intros x Hin; apply Hvs; now right).
    pose proof (wait_wf _ _ _ Hw1) as Hwf1.
    pose proof (wait_V _ _ _ Hw1) as HV1.
    assert (Hw' : 0 <= w < V e1) by (rewrite HV1; exact Hw).
    assert (Hv' : 0 <= v < V e1) by (rewrite HV1; exact Hv).
    rewrite push_all_cons by done.
    destruct (decide (residual e1 w v > 0)) as [Hr|Hr]; [|now apply IH].
    destruct (rc e1 w v) as [err|r] eqn:Hrc.
    { left. exists e1. apply rc_error in Hrc. now subst err. }
    destruct (lt r (Int 0)); [|now apply IH].
    set (q1 := if bool_decide (X (MinCostFacts.pushed e1 w v) v > 0)
                  && bool_decide (X e1 v <= 0)
               then q ++ [v] else q).
    unfold residual in Hr.
    assert (Hd : 0 <= push_delta e1 w v) by (unfold push_delta; lia).
    destruct (IH true q1 (MinCostFacts.pushed e1 w v))
      as [Herr|(p' & extra & e2 & Hrun & Hw2 & Hx2 & Hex)].
    { done. }
    { apply waiting_moved; done. }
    { unfold MinCostFacts.pushed. rewrite X_moved by done. unfold push_delta.
      repeat case_decide; lia. }
    { now left. }
    right. subst q1.
    destruct (bool_decide (X (MinCostFacts.pushed e1 w v) v > 0)
              && bool_decide (X e1 v <= 0)).
    + exists p', ([v] ++ extra), e2. rewrite app_assoc. split; [done|].
      split; [done|]. split; [done|]. intros x Hin.
      apply elem_of_app in Hin as [Hin%list_elem_of_singleton|Hin]; subst; auto.
    + exists p', extra, e2. done.
Qed.

Lemma waiting_relabeled e u e1 w epsilon e2 :
  waiting e u e1 -> relabeled e1 w epsilon = inr e2 -> waiting e u e2.
Proof.
  intros [Hwf HV Hg Hx]. unfold relabeled.
  destruct (min_diff _ _ _ _) as [|m]; [done|].
  destruct (ne m inf); [|now intros [= <-]].
  destruct (sub m epsilon); [done|]. intros [= <-]. split; auto.
Qed.

(** The discharge of another vertex does not return, or returns with
    [u] still waiting. *)
Lemma discharge_waiting fuel e u w epsilon q e1 :
  adj_ok e -> vertex e u -> vertex e w -> w <> u ->
  waiting e u e1 ->
  stalled (discharge fuel w epsilon q e1)
  \/ exists extra e2,
       discharge fuel w epsilon q e1 = Ok (q ++ extra) e2
       /\ waiting e u e2 /\ forall x, x ∈ extra -> vertex e x.
Proof.
  intros Hadj Hu Hw Hwu. revert q e1.
  induction fuel as [|fuel IH]; intros q e1 Hw1; [now left|].
  pose proof (wait_wf _ _ _ Hw1) as Hwf1.
  pose proof (wait_V _ _ _ Hw1) as HV1.
  pose proof (wait_graph _ _ _ Hw1) as Hg1.
  assert (Hw' : 0 <= w < V e1) by (rewrite HV1; exact Hw).
  rewrite discharge_S by done.
  destruct (decide (X e1 w > 0)) as [Hx|Hx].
  2:{ right. exists [], e1. rewrite app_nil_r. split; [done|]. split; [done|].
      intros x Hin. now apply elem_of_nil in Hin. }
  rewrite Hg1.
  destruct (push_all_waiting e u w (adj (graph e) w) false q e1)
    as [[e2 Herr]|(p' & extra & e2 & Hrun & Hw2 & _ & Hex)]; try done.
  { intros v Hv. now apply (Hadj w v). }
  { lia. }
  { left. apply stalled_bind. now rewrite Herr. }
  erewrite bind_ok by exact Hrun. cbn [fst snd].
  pose proof (wait_wf _ _ _ Hw2) as Hwf2.
  pose proof (wait_V _ _ _ Hw2) as HV2.
  pose proof (wait_graph _ _ _ Hw2) as Hg2.
  assert (Hrel : relabel w epsilon e2 = outcome (relabeled e2 w epsilon) e2).
  { apply mc_relabel_ok; [done|lia|].
    intros v Hv. rewrite Hg2 in Hv. rewrite HV2. now apply (Hadj w v). }
  assert (Hstep : stalled (((if p' then mret tt else relabel w epsilon)
                            : M engine unit) e2)
                  \/ exists e3, ((if p' then mret tt else relabel w epsilon)
                                 : M engine unit) e2 = Ok tt e3
                                /\ waiting e u e3).
  { destruct p'; [right; now exists e2|]. rewrite Hrel.
    destruct (relabeled e2 w epsilon) as [err|e3] eqn:Hr; simpl.
    - left. now apply relabeled_error in Hr.
    - right. exists e3. split; [done|]. now apply (waiting_relabeled e u e2 w epsilon). }
  destruct Hstep as [Hst|(e3 & Hstep & Hw3)].
  { left. now apply stalled_bind. }
  erewrite bind_ok by exact Hstep.
  destruct (IH (q ++ extra) e3 Hw3) as [Hto|(extra' & e4 & Hrun4 & Hw4 & Hex4)].
  - now left.
  - right. exists (extra ++ extra'), e4. rewrite app_assoc.
    split; [done|]. split; [done|]. intros x Hin.
    apply elem_of_app in Hin as [Hin|Hin]; auto.
Qed.

(** With [u] in the work list the loop over the work list does not
    return, whatever its budget. *)
Lemma drain_stalls e u epsilon pre :
  adj_ok e -> vertex e u -> adj (graph e) u = [] -> 0 < X e u ->
  forall fuel post e1,
    waiting e u e1 ->
    (forall x, x ∈ pre -> vertex e x) ->
    stalled (drain fuel epsilon (pre ++ u :: post) e1).
Proof.
  intros Hadj Hu Hiso Hpos.
  assert (Hstuck : forall fuel q e1, waiting e u e1 ->
            discharge fuel u epsilon q e1 = Timeout).
  { intros fuel q e1 [Hwf HV Hg Hx].
    assert (Hu1 : 0 <= u < V e1) by (rewrite HV; exact Hu).
    assert (Hno : adj (graph e1) u = []) by (now rewrite Hg).
    apply discharge_repeats; [done|done|lia| |].
    - now rewrite Hno.
    - rewrite mc_relabel_ok; [|done|done|].
      + rewrite relabeled_spent; [done|]. rewrite Hno.
        intros v Hv. now apply elem_of_nil in Hv.
      + rewrite Hno. intros v Hv. now apply elem_of_nil in Hv. }
  induction pre as [|w pre IH]; intros fuel post e1 Hw1 Hpre.
  - destruct fuel as [|fuel]; [done|].
    cbn [drain app]. apply stalled_bind. now rewrite Hstuck.
  - destruct fuel as [|fuel]; [done|].
    cbn [drain app].
    destruct (decide (w = u)) as [->|Hwu].
    { apply stalled_bind. now rewrite Hstuck. }
    assert (Hw : vertex e w) by (apply Hpre; left).
    destruct (discharge_waiting (S fuel) e u w epsilon (pre ++ u :: post) e1)
      as [Hto|(extra & e2 & Hrun & Hw2 & Hex)]; try done.
    + now apply stalled_bind.
    + erewrite bind_ok by exact Hrun. rewrite <- app_assoc. cbn [app].
      apply IH; [done|]. intros x Hin. apply Hpre. now right.
Qed.

(** X18. [refine(epsilon)] never returns on an engine in which
    some vertex holds positive excess and has no entry in its adjacency
    list (a supply declared on a vertex no arc touches): whatever the
    budget of the loops, it is used up, unless a reduced cost or a new
    potential raises [OverflowError] first. *)
Theorem refine_stalls_on_stranded_excess fuel epsilon e u :
  wf e -> adj_ok e -> vertex e u -> X e u > 0 -> adj (graph e) u = [] ->
  refine fuel epsilon e = Timeout
  \/ exists e', refine fuel epsilon e = Raise OverflowError e'.
Proof.
  intros Hwf Hadj Hu Hx Hiso.
  assert (Hst : stalled (refine fuel epsilon e)).
  { unfold refine.
    pose proof (saturate_waiting e u Hwf Hadj Hu Hiso) as Hsat.
    destruct (saturate e) as [[] e1|err e1|] eqn:Hrun; simpl in Hsat;
      [|apply stalled_bind; rewrite Hrun; apply Hsat|done].
    rename Hsat into Hw1.
    erewrite bind_ok by exact Hrun. erewrite bind_ok by reflexivity.
    assert (Hin : u ∈ active_of (excess e1)).
    { apply elem_of_active_of. rewrite (wf_excess _ (wait_wf _ _ _ Hw1)).
      rewrite (wait_V _ _ _ Hw1). pose proof (wait_X _ _ _ Hw1).
      unfold vertex in Hu. fold (X e1 u). lia. }
    assert (Hall : forall x, x ∈ active_of (excess e1) -> vertex e x).
    { intros x Hx'. apply elem_of_active_of in Hx' as [Hr _].
      rewrite (wf_excess _ (wait_wf _ _ _ Hw1)), (wait_V _ _ _ Hw1) in Hr.
      unfold vertex. lia. }
    apply list_elem_of_split in Hin as (pre & post & Hsplit).
    rewrite Hsplit.
    assert (Hdr : stalled (drain fuel epsilon (pre ++ u :: post) e1)).
    { apply (drain_stalls e u epsilon pre); try done; [lia|].
      intros x Hin. apply Hall. rewrite Hsplit. apply elem_of_app. now left. }
    revert Hdr. unfold mbind, M_bind.
    now destruct (drain fuel epsilon (pre ++ u :: post) e1). }
  destruct (refine fuel epsilon e) as [r e'|err e'|]; simpl in Hst.
  - destruct Hst.
  - right. exists e'. now subst err.
  - now left.
Qed.

Lemma refine_stalls_on_stranded_excess_witness :
  refine 1000 one stranded_engine = Timeout.
Proof.
  destruct (refine_stalls_on_stranded_excess 1000 one stranded_engine 0)
    as [Hto|[e' Herr]].
  - apply wfb_wf. vm_compute. reflexivity.
  - apply adj_okb_ok. vm_compute. reflexivity.
  - unfold vertex. simpl. lia.
  - vm_compute. reflexivity.
  - vm_compute. reflexivity.
  - exact Hto.
  - vm_compute in Herr. discriminate Herr.
Defined.

(** ** The auxiliary network of [min_cost_flow] *)

(** What the three comprehensions that fill the auxiliary graph keep:
    an untouched engine with non-negative capacities on listed arcs, the
    same number of vertices, and no capacity on the loop at [s]. *)
Record network (n s : Z) (g : PushRelabel.engine) : Prop := {
  net_fresh : PushRelabelFacts.Fresh g;
  net_V : PushRelabel.V g = n;
  net_loop : PushRelabelFacts.C g s s = 0
}.

Lemma network_edge_added n s g u v cap :
  network n s g -> 0 <= s < n -> 0 <= u < n -> 0 <= v < n -> 0 <= cap ->
  ~ (u = s /\ v = s) ->
  network n s (PushRelabelFacts.edge_added g u v cap).
Proof.
  intros [Hfr HV Hl] Hs Hu Hv Hcap Hne. split.
  - apply PushRelabelFacts.fresh_edge_added; [done|].
    unfold PushRelabelFacts.valid_edge. rewrite HV. done.
  - done.
  - unfold PushRelabelFacts.edge_added. cbv zeta.
    rewrite PushRelabelFacts.C_upd
      by (first [apply PushRelabelFacts.wf_set_graph, Hfr
                |simpl; rewrite HV; lia]).
    rewrite decide_False by (intros [? ?]; apply Hne; split; congruence).
    exact Hl.
Qed.

Lemma export_arcs_network e g ps s :
  wf e -> network (V e + 2) s g -> V e <= s < V e + 2 ->
  (forall u v, (u, v) ∈ ps -> 0 <= u < V e /\ 0 <= v < V e) ->
  exists g', export_arcs g ps e = Ok g' e /\ network (V e + 2) s g'.
Proof.
  intros Hwf. revert g. induction ps as [|[u v] ps IH]; intros g Hg Hs Hps.
  - exists g. done.
  - destruct (Hps u v) as [Hu Hv]; [left|].
    assert (Hps' : forall a b, (a, b) ∈ ps -> 0 <= a < V e /\ 0 <= b < V e)
      by (intros a b Hab; apply Hps; now right).
    pose proof (net_V _ _ _ Hg) as HV.
    cbn [export_arcs].
    erewrite bind_ok by now apply mc_rd_capacity_ok.
    case_decide; [|now apply IH].
    erewrite bind_ok by now apply mc_rd_capacity_ok.
    erewrite bind_ok
      by (apply on_ok, PushRelabelFacts.add_edge_ok;
          [apply Hg|unfold PushRelabelFacts.vertex; lia..]).
    cbn [snd]. apply IH; [|done..].
    apply network_edge_added; try done; lia.
Qed.

Lemma connect_supply_network e g vs :
  wf e -> network (V e + 2) (V e) g -> 0 <= V e ->
  (forall v, v ∈ vs -> 0 <= v < V e) ->
  exists g', connect_supply g (V e) vs e = Ok g' e
             /\ network (V e + 2) (V e) g'.
Proof.
  intros Hwf. revert g. induction vs as [|v vs IH]; intros g Hg HV0 Hvs.
  - exists g. done.
  - assert (Hv : 0 <= v < V e) by (apply Hvs; left).
    pose proof (net_V _ _ _ Hg) as HV.
    cbn [connect_supply].
    erewrite bind_ok by now apply mc_rd_excess_ok.
    erewrite bind_ok
      by (apply on_ok, PushRelabelFacts.add_edge_ok;
          [apply Hg|unfold PushRelabelFacts.vertex; lia..]).
    cbn [snd]. apply IH; [|done|intros w Hw; apply Hvs; now right].
    apply network_edge_added; try done; lia.
Qed.

Lemma connect_demand_network e g us :
  wf e -> network (V e + 2) (V e) g -> 0 <= V e ->
  (forall u, u ∈ us -> 0 <= u < V e) ->
  exists g', connect_demand g (V e + 1) us e = Ok g' e
             /\ network (V e + 2) (V e) g'.
Proof.
  intros Hwf. revert g. induction us as [|u us IH]; intros g Hg HV0 Hus.
  - exists g. done.
  - assert (Hu : 0 <= u < V e) by (apply Hus; left).
    pose proof (net_V _ _ _ Hg) as HV.
    cbn [connect_demand].
    erewrite bind_ok by now apply mc_rd_excess_ok.
    erewrite bind_ok
      by (apply on_ok, PushRelabelFacts.add_edge_ok;
          [apply Hg|unfold PushRelabelFacts.vertex; lia..]).
    cbn [snd]. apply IH; [|done|intros w Hw; apply Hus; now right].
    apply network_edge_added; try done; lia.
Qed.

(** X19. The auxiliary network that [min_cost_flow] builds from a
    well-formed engine is a valid input of the maximum-flow engine: the
    three comprehensions return, [max_flow(source, sink)] on the result
    returns, and afterwards the two sums that the feasibility test
    compares, [sum([f[sink] for f in g.flow])] and [sum(g.flow[source])],
    are equal, so the test cannot tell an infeasible instance. *)
Theorem auxiliary_network_sums_agree e :
  ready e ->
  exists g1 g2 g3,
    export_arcs (PushRelabel.init (V e + 2))
                (product (range (V e)) (range (V e))) e = Ok g1 e
    /\ connect_supply g1 (V e) (supply e) e = Ok g2 e
    /\ connect_demand g2 (V e + 1) (demand e) e = Ok g3 e
    /\ exists fuel r g' into_sink out_of_source,
         PushRelabel.max_flow fuel (V e) (V e + 1) g3 = Ok r g'
         /\ column (PushRelabel.flow g') (V e + 1) = Some into_sink
         /\ getitem (PushRelabel.flow g') (V e) = Some out_of_source
         /\ sum into_sink = sum out_of_source.
Proof.
  intros [HV Hwf Hadj Hs Hd].
  assert (Hnet0 : network (V e + 2) (V e) (PushRelabel.init (V e + 2))).
  { split; [apply PushRelabelFacts.fresh_init|done|].
    unfold PushRelabelFacts.C. simpl. apply at2_zeros2. }
  destruct (export_arcs_network e _ (product (range (V e)) (range (V e)))
              (V e) Hwf Hnet0) as (g1 & Hexp & Hnet1); [lia| |].
  { intros u v [Hu Hv]%elem_of_product. split; now apply elem_of_range. }
  destruct (connect_supply_network e g1 (supply e) Hwf Hnet1 HV)
    as (g2 & Hsup & Hnet2); [intros v Hv; now apply Hs|].
  destruct (connect_demand_network e g2 (demand e) Hwf Hnet2 HV)
    as (g3 & Hdem & Hnet3); [intros v Hv; now apply Hd|].
  exists g1, g2, g3. repeat (split; [done|]).
  destruct Hnet3 as [Hfr HV3 Hloop].
  assert (Hsrc : PushRelabelFacts.vertex g3 (V e))
    by (unfold PushRelabelFacts.vertex; lia).
  assert (Hsnk : PushRelabelFacts.vertex g3 (V e + 1))
    by (unfold PushRelabelFacts.vertex; lia).
  assert (Hne : V e <> V e + 1) by lia.
  destruct (PushRelabelFacts.max_flow_terminates _ _ g3 Hfr Hsrc Hsnk Hne)
    as (fuel & r & g' & Hrun).
  destruct (PushRelabelFacts.max_flow_inv _ _ _ _ _ _ Hfr Hsrc Hsnk Hne Hrun)
    as (HI & Hset & _ & _ & Hcap).
  destruct (MaxFlowMore.settled_row_column (V e) (V e + 1) g' HI Hset)
    as (col & row & Hcol & Hrow & Hc & Hr).
  { rewrite Hcap. exact Hloop. }
  exists fuel, r, g', col, row. repeat (split; [done|]). congruence.
Qed.

Lemma auxiliary_network_sums_agree_witness :
  exists g1 g2 g3,
    export_arcs (PushRelabel.init (V routed_engine + 2))
                (product (range (V routed_engine)) (range (V routed_engine)))
                routed_engine = Ok g1 routed_engine
    /\ connect_supply g1 (V routed_engine) (supply routed_engine)
                      routed_engine = Ok g2 routed_engine
    /\ connect_demand g2 (V routed_engine + 1) (demand routed_engine)
                      routed_engine = Ok g3 routed_engine
    /\ exists fuel r g' into_sink out_of_source,
         PushRelabel.max_flow fuel (V routed_engine) (V routed_engine + 1) g3
         = Ok r g'
         /\ column (PushRelabel.flow g') (V routed_engine + 1) = Some into_sink
         /\ getitem (PushRelabel.flow g') (V routed_engine)
            = Some out_of_source
         /\ sum into_sink = sum out_of_source.
Proof.
  apply (auxiliary_network_sums_agree routed_engine).
  apply readyb_ready. vm_compute. reflexivity.
Defined.

End MinCostMore.
